(** * legs: a lexer generator

    A shallow embedding of the automaton pipeline of [legs] (NFA, subset
    construction, DFA minimisation) and of its table-driven runtime
    ([legs_base.py]), with the properties proved about them.

    Conventions.  Python [int] nodes are [nat]; symbols are [Z], so that the
    reserved [empty_symbol = -1] lives next to the bytes [0..255]; [str] is
    [string]; [dict] is [gmap]; [set] and [frozenset] are [gset].  A Python
    list used as a stack keeps its order: the top of the stack is the last
    element.  Exceptions are explicit results. *)

From stdpp Require Import gmap strings list sorting.
From Stdlib Require Import ZArith Lia.
From Stdlib Require HexString.

Open Scope string_scope.
Open Scope nat_scope.
Open Scope list_scope.

(** ** Exceptions the embedded code can raise. *)

Inductive exn : Type :=
| AssertionError
| IndexError
| KeyError
| SystemExit.

(** * The runtime: [legs_base.py] *)

Module Token.
Record t : Type := mk { kind : string; pos : nat; end_ : nat }.
End Token.

Abbreviation Token := Token.t.

(** [StateTransitions = Dict[int,Dict[int,int]]], [MatchStateKinds =
    Dict[int,str]], [ModeData = Tuple[int,StateTransitions,MatchStateKinds]]. *)
Abbreviation StateTransitions := (gmap nat (gmap Z nat)).
Abbreviation MatchStateKinds := (gmap nat string).
Abbreviation ModeData := (nat * StateTransitions * MatchStateKinds)%type.

(** [ModeTransitions = Dict[str,Dict[str,Tuple[str,str]]]]. *)
Abbreviation KindModeTransitions := (gmap string (string * string)).
Abbreviation ModeTransitions := (gmap string KindModeTransitions).

(** The class attributes a generated lexer class carries. *)
Record LexerClass : Type := {
  mode_transitions : ModeTransitions;
  mode_data : gmap string ModeData;
}.

(** The instance attributes of [DictLexerBase]: [source.text], [pos] and
    [stack], a list of [(mode, pop_kind)] frames whose last element is the
    top. *)
Record DictLexerBase : Type := {
  text : list Z;
  pos : nat;
  stack : list (string * option string);
}.

(** [DictLexerBase.__init__]. *)
Definition init (source_text : list Z) : DictLexerBase :=
  {| text := source_text; pos := 0; stack := [("main", None)] |}.

(** Two-level dictionary lookup [d[k1][k2]]; [None] is Python's [KeyError]. *)
Definition lookup2 {K1 K2 V} `{Countable K1} `{Countable K2}
    (d : gmap K1 (gmap K2 V)) (k1 : K1) (k2 : K2) : option V :=
  d !! k1 ≫= (.!! k2).

(** The matching loop of [__next__]:
<<
    while pos < len_text:
      byte = text[pos]
      try: state = transitions[state][byte]
      except KeyError: break
      else: # advance.
        pos += 1
        try: kind = match_node_kinds[state]
        except KeyError: pass
        else: end = pos
>>
    [rest] is [text[pos:]]; the result is the final [(pos, kind, end)]. *)
Fixpoint scan (transitions : StateTransitions) (match_node_kinds : MatchStateKinds)
    (rest : list Z) (state pos : nat) (kind : string) (end_ : option nat)
    : nat * string * option nat :=
  match rest with
  | [] => (pos, kind, end_)
  | byte :: rest' =>
    match lookup2 transitions state byte with
    | None => (pos, kind, end_)
    | Some state' =>
      let pos' := S pos in
      match match_node_kinds !! state' with
      | Some kind' => scan transitions match_node_kinds rest' state' pos' kind' (Some pos')
      | None => scan transitions match_node_kinds rest' state' pos' kind end_
      end
    end
  end.

(** What one call of [__next__] does. *)
Inductive next_result : Type :=
| StopIteration
| Return (token : Token) (self' : DictLexerBase)
| Raise (e : exn).

(** The mode-stack update at the end of [__next__]. *)
Definition update_stack (cls : LexerClass) (mode : string) (pop_kind : option string)
    (kind : string) (stack : list (string * option string))
    : list (string * option string) :=
  if decide (Some kind = pop_kind) then removelast stack
  else
    match lookup2 (mode_transitions cls) mode kind with
    | None => stack
    | Some child_frame => stack ++ [(child_frame.1, Some child_frame.2)]
    end.

(** [DictLexerBase.__next__]. *)
Definition next (cls : LexerClass) (self : DictLexerBase) : next_result :=
  let len_text := length (text self) in
  if decide (pos self = len_text) then StopIteration
  else
    match last (stack self) with
    | None => Raise IndexError
    | Some (mode, pop_kind) =>
      match mode_data cls !! mode with
      | None => Raise AssertionError
      | Some (mode_start, transitions, match_node_kinds) =>
        let '(pos', kind, end_) :=
          scan transitions match_node_kinds (drop (pos self) (text self))
               mode_start (pos self) "incomplete" None in
        let token_pos := pos self in
        match (match end_ with
               | None => if decide (kind = "incomplete") then Some pos' else None
               | Some e => Some e
               end) with
        | None => Raise AssertionError
        | Some end' =>
          if decide (token_pos < end') then
            Return (Token.mk kind token_pos end')
                   {| text := text self; pos := end';
                      stack := update_stack cls mode pop_kind kind (stack self) |}
          else Raise AssertionError
        end
      end
    end.

(** Iterating the lexer, [for token in lexer]: the tokens produced and how
    the iteration ended. *)
Inductive ending : Type :=
| Exhausted                (* StopIteration *)
| Raised (e : exn)
| OutOfFuel.

Fixpoint tokens (cls : LexerClass) (fuel : nat) (self : DictLexerBase)
    : list Token * ending :=
  match fuel with
  | 0 => ([], OutOfFuel)
  | S fuel' =>
    match next cls self with
    | StopIteration => ([], Exhausted)
    | Raise e => ([], Raised e)
    | Return token self' =>
      let '(toks, e) := tokens cls fuel' self' in (token :: toks, e)
    end
  end.

(** One token per byte at worst: [S (length text)] calls always suffice. *)
Definition lex (cls : LexerClass) (source_text : list Z) : list Token * ending :=
  tokens cls (S (length source_text)) (init source_text).

(** [Source.bytes_for]: the slice [text[pos:end]]. *)
Definition bytes_for (source_text : list Z) (token : Token) : list Z :=
  take (Token.end_ token - Token.pos token) (drop (Token.pos token) source_text).

(** [Mode.incomplete_name] as [combine_dfas] derives it. *)
Definition incomplete_name (mode_name : string) : string :=
  if decide (mode_name = "main") then "incomplete" else mode_name +:+ "_incomplete".

(** * Iteration order of Python sets

    Python fixes neither the order in which a [set] or [frozenset] is
    iterated nor the element that [set.pop()] removes.  Every algorithm
    below takes the order as a parameter: [visit s] lists the elements of
    [s] once each, in the order a [for] loop visits them, and [set.pop()]
    removes the first of them.  All theorems hold for every such order. *)

Class SetOrder : Type := {
  visit : ∀ `{Countable A}, gset A → list A;
  visit_perm : ∀ `{Countable A} (s : gset A), visit s ≡ₚ elements s;
}.

(** [set.pop()]: the element removed, [None] on an empty set. *)
Definition pop `{SetOrder} `{Countable A} (s : gset A) : option A :=
  head (visit s).

(** One admissible order: ascending in the elements' codes, which for nodes
    and bytes is the ascending numeric order. *)
Definition code_le `{Countable A} (x y : A) : Prop :=
  (encode x ≤ encode y)%positive.

#[export] Instance code_le_dec `{Countable A} (x y : A) : Decision (code_le x y).
Proof. unfold code_le. apply _. Defined.

Definition ascending : SetOrder :=
  {| visit := λ A _ _ s, merge_sort code_le (elements s);
     visit_perm := λ A _ _ s, merge_sort_Permutation code_le (elements s) |}.

(** [empty_symbol = -1 # not a legitimate byte value]. *)
Definition empty_symbol : Z := (-1)%Z.

(** A byte value, [range(0x100)]. *)
Definition is_byte (b : Z) : Prop := (0 ≤ b < 256)%Z.

#[export] Instance is_byte_dec b : Decision (is_byte b).
Proof. unfold is_byte. apply _. Defined.

(** [range(0x100)] as a list. *)
Definition byte_range : list Z := Z.of_nat <$> seq 0 256.

(** The result of a computation that may raise or, in the model only, use up
    the iteration bound it was given. *)
Inductive result (A : Type) : Type :=
| Ok (a : A)
| Err (e : exn)
| Timeout_.

Arguments Ok {A} a.
Arguments Err {A} e.
Arguments Timeout_ {A}.

(** * Deterministic automata: [legs/dfa.py] *)

Module DFA.

(** [class DFA].  The class is used with two kinds of values in
    [matchNodeNames]: [dfa.py] annotates one name per match node
    ([Dict[int, str]]), and [gen_dfa] hands over one [frozenset] of names per
    match node; the type of these values is the parameter [A].
    [literalRules] is only ever tested for membership of a name and passed
    on, so it is the set of its names. *)
Record t (A : Type) : Type := mk {
  transitions : gmap nat (gmap Z nat);
  matchNodeNames : gmap nat A;
  literalRules : gset string;
}.

Arguments mk {A} _ _ _.
Arguments transitions {A} _.
Arguments matchNodeNames {A} _.
Arguments literalRules {A} _.

Section methods.
Context {A : Type} `{Countable A}.

(** [allByteToStateDicts] and [alphabet]. *)
Definition alphabet (dfa : t A) : gset Z :=
  (⋃ (dom <$> (map_to_list (transitions dfa)).*2)) ∖ {[empty_symbol]}.

Definition allSrcNodes (dfa : t A) : gset nat := dom (transitions dfa).

(** [dstNodes(node)] is [frozenset(self.transitions[node].values())]; it is
    only called on source nodes. *)
Definition dstNodes (dfa : t A) (node : nat) : gset nat :=
  match transitions dfa !! node with
  | Some d => list_to_set (map_to_list d).*2
  | None => ∅
  end.

Definition allDstNodes (dfa : t A) : gset nat :=
  ⋃ (dstNodes dfa <$> elements (allSrcNodes dfa)).

Definition allNodes (dfa : t A) : gset nat := allSrcNodes dfa ∪ allDstNodes dfa.

Definition matchNodes (dfa : t A) : gset nat := dom (matchNodeNames dfa).

Definition nonMatchNodes (dfa : t A) : gset nat := allNodes dfa ∖ matchNodes dfa.


(** [advance(state, byte)]: [self.transitions[state][byte]], [None] for
    [KeyError]. *)
Definition advance (dfa : t A) (state : nat) (byte : Z) : option nat :=
  lookup2 (transitions dfa) state byte.

(** The walk of [match]: the final node, or [None] as soon as a byte has no
    edge. *)
Fixpoint run (dfa : t A) (state : nat) (text_bytes : list Z) : option nat :=
  match text_bytes with
  | [] => Some state
  | byte :: rest =>
    match advance dfa state byte with
    | None => None
    | Some state' => run dfa state' rest
    end
  end.

(** [match(text, start=0)], on the encoded bytes of [text]. *)
Definition match_ (dfa : t A) (text_bytes : list Z) : option A :=
  run dfa 0 text_bytes ≫= (matchNodeNames dfa !!.).

End methods.
End DFA.

(** * Nondeterministic automata: [legs/nfa.py] *)

Module NFA.

(** [class NFA]. *)
Record t : Type := mk {
  transitions : gmap nat (gmap Z (gset nat));
  matchNodeNames : gmap nat string;
  literalRules : gset string;
}.

(** [sorted(self.matchNodeNames.items())]: keys are distinct, so the pairs
    are sorted by node. *)
Definition key_le {V} (p q : nat * V) : Prop := p.1 ≤ q.1.

#[global] Instance key_le_dec {V} (p q : nat * V) : Decision (key_le p q).
Proof. unfold key_le. apply _. Defined.

Definition sorted_items {V} (m : gmap nat V) : list (nat * V) :=
  merge_sort key_le (map_to_list m).

(** The message [validate] formats for a rule name. *)
Definition trivial_msg (name : string) : string :=
  "error: rule is trivially matched from start: " +:+ name +:+ ".".

Section methods.
Context `{SetOrder}.

Definition alphabet (nfa : t) : gset Z :=
  (⋃ (dom <$> (map_to_list (transitions nfa)).*2)) ∖ {[empty_symbol]}.

Definition all_src_nodes (nfa : t) : gset nat := dom (transitions nfa).

Definition dst_nodes (nfa : t) (node : nat) : gset nat :=
  match transitions nfa !! node with
  | Some d => ⋃ (map_to_list d).*2
  | None => ∅
  end.

Definition all_dst_nodes (nfa : t) : gset nat :=
  ⋃ (dst_nodes nfa <$> elements (all_src_nodes nfa)).

Definition all_nodes (nfa : t) : gset nat := all_src_nodes nfa ∪ all_dst_nodes nfa.

(** The loop of [advance_empties]:
<<
    while remaining:
      node = remaining.pop()
      expanded.add(node)
      try: dst_nodes = self.transitions[node][empty_symbol]
      except KeyError: continue
      novel = dst_nodes - expanded
      remaining.update(novel)
>>
    bounded by [fuel] iterations. *)
Fixpoint advance_empties_loop (nfa : t) (fuel : nat) (remaining expanded : gset nat)
    : gset nat :=
  match fuel with
  | 0 => expanded
  | S fuel' =>
    match pop remaining with
    | None => expanded
    | Some node =>
      let remaining := remaining ∖ {[node]} in
      let expanded := {[node]} ∪ expanded in
      match lookup2 (transitions nfa) node empty_symbol with
      | None => advance_empties_loop nfa fuel' remaining expanded
      | Some dst_nodes =>
        let novel := dst_nodes ∖ expanded in
        advance_empties_loop nfa fuel' (remaining ∪ novel) expanded
      end
    end
  end.

(** [advance_empties(state)].  Every iteration moves one more node of
    [state ∪ all_nodes] into [expanded], which bounds the loop. *)
Definition advance_empties (nfa : t) (state : gset nat) : gset nat :=
  advance_empties_loop nfa (S (size (state ∪ all_nodes nfa))) state ∅.

(** [advance(state, byte)]. *)
Definition advance (nfa : t) (state : gset nat) (byte : Z) : gset nat :=
  let nextState :=
    ⋃ ((λ node, default ∅ (lookup2 (transitions nfa) node byte)) <$> visit state) in
  advance_empties nfa nextState.

(** The simulation of [match]: the state after all bytes. *)
Definition run (nfa : t) (text_bytes : list Z) : gset nat :=
  foldl (advance nfa) (advance_empties nfa {[0]}) text_bytes.

(** [filtermap_with_mapping(state, self.matchNodeNames)]: the names of the
    nodes of [state] that have one. *)
Definition names_of (nfa : t) (state : gset nat) : gset string :=
  list_to_set (omap (matchNodeNames nfa !!.) (elements state)).

(** [match(text)], on the encoded bytes of [text]. *)
Definition match_ (nfa : t) (text_bytes : list Z) : gset string :=
  let all_matches := names_of nfa (run nfa text_bytes) in
  let literal_matches := filter (.∈ literalRules nfa) all_matches in
  if decide (literal_matches = ∅) then all_matches else literal_matches.

(** [validate()]. *)
Definition validate (nfa : t) : list string :=
  let start := advance_empties nfa {[0]} in
  (λ p, trivial_msg p.2) <$> filter (λ p, p.1 ∈ start) (sorted_items (matchNodeNames nfa)).

End methods.
End NFA.

(** ** Subset construction: [gen_dfa] *)

Section gen_dfa.
Context `{SetOrder}.

(** The mutable locals of [gen_dfa]: the counter behind [mk_node], the
    [defaultdict] from NFA states to DFA nodes, the DFA transitions built so
    far, and the worklist. *)
Record gen_state : Type := {
  indexer : nat;
  nfa_states_to_dfa_nodes : gmap (gset nat) nat;
  transitions : gmap nat (gmap Z nat);
  remaining : gset (gset nat);
}.

(** [nfa_states_to_dfa_nodes[state]] on a [defaultdict(mk_node)]: an unseen
    state is given the next index. *)
Definition node_for (st : gen_state) (state : gset nat) : gen_state * nat :=
  match nfa_states_to_dfa_nodes st !! state with
  | Some node => (st, node)
  | None =>
    ({| indexer := S (indexer st);
        nfa_states_to_dfa_nodes := <[state := indexer st]> (nfa_states_to_dfa_nodes st);
        transitions := transitions st;
        remaining := remaining st |},
     indexer st)
  end.

(** [transitions[node]] on a [defaultdict(dict)]: an unseen node is given
    an empty dictionary. *)
Definition touch (node : nat) (transitions : gmap nat (gmap Z nat))
    : gmap nat (gmap Z nat) :=
  match transitions !! node with
  | Some _ => transitions
  | None => <[node := ∅]> transitions
  end.

(** [d[char] = dst_node] where [d] is the dictionary [transitions[node]]. *)
Definition set_edge (node : nat) (char : Z) (dst_node : nat)
    (transitions : gmap nat (gmap Z nat)) : gmap nat (gmap Z nat) :=
  <[node := <[char := dst_node]> (default ∅ (transitions !! node))]> transitions.

(** The body of [for char in alphabet]. *)
Definition gen_char (nfa : NFA.t) (state : gset nat) (node : nat)
    (st : gen_state) (char : Z) : gen_state :=
  let dst_state := NFA.advance nfa state char in
  if decide (dst_state = ∅) then st
  else
    let '(st, dst_node) := node_for st dst_state in
    let transitions' := set_edge node char dst_node (transitions st) in
    {| indexer := indexer st;
       nfa_states_to_dfa_nodes := nfa_states_to_dfa_nodes st;
       transitions := transitions';
       remaining :=
         if decide (dst_node ∈ dom transitions') then remaining st
         else {[dst_state]} ∪ remaining st |}.

(** The body of [while remaining], for the popped [state]. *)
Definition gen_step (nfa : NFA.t) (alphabet : gset Z) (st : gen_state)
    (state : gset nat) : gen_state :=
  let st := {| indexer := indexer st;
               nfa_states_to_dfa_nodes := nfa_states_to_dfa_nodes st;
               transitions := transitions st;
               remaining := remaining st ∖ {[state]} |} in
  let '(st, node) := node_for st state in
  let st := {| indexer := indexer st;
               nfa_states_to_dfa_nodes := nfa_states_to_dfa_nodes st;
               transitions := touch node (transitions st);
               remaining := remaining st |} in
  foldl (gen_char nfa state node) st (visit alphabet).

(** [while remaining: ...], at most [fuel] iterations. *)
Fixpoint gen_loop (nfa : NFA.t) (alphabet : gset Z) (fuel : nat) (st : gen_state)
    : option gen_state :=
  match fuel with
  | 0 => None
  | S fuel' =>
    match pop (remaining st) with
    | None => Some st
    | Some state => gen_loop nfa alphabet fuel' (gen_step nfa alphabet st state)
    end
  end.

(** The transitions to and from [invalid]:
<<
    start_dict = transitions[start_node]
    invalid_dict = transitions[invalid_node]
    invalid_start_chars = set(range(0x100)) - set(start_dict)
    for c in invalid_start_chars:
      start_dict[c] = invalid_node
      invalid_dict[c] = invalid_node
>> *)
Definition add_invalid (start_node invalid_node : nat)
    (transitions : gmap nat (gmap Z nat)) : gmap nat (gmap Z nat) :=
  let transitions := touch invalid_node (touch start_node transitions) in
  let start_dict := default ∅ (transitions !! start_node) in
  let invalid_start_chars : gset Z := list_to_set byte_range ∖ dom start_dict in
  foldl (λ t c, set_edge invalid_node c invalid_node (set_edge start_node c invalid_node t))
        transitions (visit invalid_start_chars).

(** The names of the match nodes:
<<
    for nfa_state, dfa_node in nfa_states_to_dfa_nodes.items():
      for nfa_node in nfa_state:
        try: name = nfa.matchNodeNames[nfa_node]
        except KeyError: continue
        node_names[dfa_node].add(name)
>> *)
Definition add_name (nfa : NFA.t) (dfa_node : nat)
    (node_names : gmap nat (gset string)) (nfa_node : nat) : gmap nat (gset string) :=
  match NFA.matchNodeNames nfa !! nfa_node with
  | None => node_names
  | Some name => <[dfa_node := {[name]} ∪ default ∅ (node_names !! dfa_node)]> node_names
  end.

Definition gen_names (nfa : NFA.t) (table : gmap (gset nat) nat) : gmap nat (gset string) :=
  foldl (λ node_names '(nfa_state, dfa_node),
           foldl (add_name nfa dfa_node) node_names (visit nfa_state))
        ∅ (map_to_list table).

(** [gen_dfa(nfa)] with the worklist loop bounded by [fuel].  The DFA that
    [gen_dfa] returns holds, for every match node, the [frozenset] of names
    it passes as [matchNodeNameSets]. *)
Definition gen_dfa_bounded (fuel : nat) (nfa : NFA.t) : result (DFA.t (gset string)) :=
  let st0 := {| indexer := 0; nfa_states_to_dfa_nodes := ∅;
                transitions := ∅; remaining := ∅ |} in
  let start := NFA.advance_empties nfa {[0]} in
  let invalid : gset nat := {[1]} in
  let '(st1, start_node) := node_for st0 start in
  let '(st2, invalid_node) := node_for st1 invalid in
  let st3 := {| indexer := indexer st2;
                nfa_states_to_dfa_nodes := nfa_states_to_dfa_nodes st2;
                transitions := transitions st2;
                remaining := {[start]} |} in
  match gen_loop nfa (NFA.alphabet nfa) fuel st3 with
  | None => Timeout_
  | Some st =>
    if decide (invalid_node ∈ dom (transitions st)) then Err AssertionError
    else
      Ok (DFA.mk (add_invalid start_node invalid_node (transitions st))
                 (gen_names nfa (nfa_states_to_dfa_nodes st))
                 (NFA.literalRules nfa))
  end.

(** Every iteration of the worklist loop handles a state, a set of nodes of
    the NFA, that no earlier iteration handled. *)
Definition gen_fuel (nfa : NFA.t) : nat :=
  S (2 ^ size ({[0]} ∪ NFA.all_nodes nfa)).

Definition gen_dfa (nfa : NFA.t) : result (DFA.t (gset string)) :=
  gen_dfa_bounded (gen_fuel nfa) nfa.

End gen_dfa.

(** ** Minimisation: [minimizeDFA] *)

(** Sequencing of computations that may raise. *)
Definition result_bind {A B} (f : A → result B) (r : result A) : result B :=
  match r with
  | Ok a => f a
  | Err e => Err e
  | Timeout_ => Timeout_
  end.

#[export] Instance result_mbind : MBind result := @result_bind.
#[export] Instance result_mret : MRet result := @Ok.

(** [d[k]] on a plain dictionary. *)
Definition getitem `{Countable K} {V} (d : gmap K V) (k : K) : result V :=
  match d !! k with
  | Some v => Ok v
  | None => Err KeyError
  end.

(** [d.items()].  The order of a dictionary's items is the order in which
    its keys were inserted, which the dictionary's value does not tell: it
    is taken from the iteration order as well. *)
Definition items `{SetOrder} `{Countable K} {V} (d : gmap K V) : list (K * V) :=
  omap (λ k, (k,.) <$> d !! k) (visit (dom d)).

(** Python's order on lists of integers, used by [sorted] on the classes. *)
Fixpoint list_le (l k : list nat) : Prop :=
  match l, k with
  | [], _ => True
  | _ :: _, [] => False
  | x :: l', y :: k' => x < y ∨ (x = y ∧ list_le l' k')
  end.

#[export] Instance list_le_dec l k : Decision (list_le l k).
Proof.
  revert k. induction l as [|x l IH]; intros [|y k]; simpl; try apply _.
Defined.

(** [sorted(p)] for a set of nodes. *)
Definition sorted_nodes (p : gset nat) : list nat := merge_sort le (elements p).

Section minimizeDFA.
Context `{SetOrder} {A : Type}.

(** The partition under refinement.  [sets] is the dictionary [sets] of the
    source, from [id(s)] to the set object [s]; since the classes are
    mutated in place and shared between [sets], [partition] and
    [remaining], it doubles as the store of these objects, and [partition]
    and [remaining] hold their identities.  [next_id] is the identity the
    next new set object gets. *)
Record min_state : Type := {
  next_id : nat;
  sets : gmap nat (gset nat);
  partition : gmap nat nat;
}.

(** [rev_transitions[dst][char]]: the sources of the edges into [dst]
    labelled [char]. *)
Definition rev_transitions (dfa : DFA.t A) (dst : nat) (char : Z) : gset nat :=
  filter (λ src, lookup2 (DFA.transitions dfa) src char = Some dst)
         (dom (DFA.transitions dfa)).

(** [init_sets], [sets] and [partition] before the loop. *)
Definition init_sets (dfa : DFA.t A) : list (gset nat) :=
  ((λ n, {[n]}) <$> visit (DFA.matchNodes dfa)) ++ [DFA.nonMatchNodes dfa].

Definition init_state (dfa : DFA.t A) : min_state :=
  let objs := imap (λ i s, (i, s)) (init_sets dfa) in
  {| next_id := length objs;
     sets := list_to_map objs;
     partition :=
       foldl (λ part '(i, s), foldl (λ part n, <[n := i]> part) part (visit s))
             ∅ objs |}.

(** [part_sets_to_intersections[id(s)].add(node)] on a [defaultdict(set)],
    kept in insertion order. *)
Fixpoint add_to (groups : list (nat * gset nat)) (id_s node : nat)
    : list (nat * gset nat) :=
  match groups with
  | [] => [(id_s, {[node]})]
  | (i, g) :: groups' =>
    if decide (i = id_s) then (i, {[node]} ∪ g) :: groups'
    else (i, g) :: add_to groups' id_s node
  end.

(** The first loop of [refine]. *)
Definition intersections (st : min_state) (refining_set : gset nat)
    : result (list (nat * gset nat)) :=
  foldl (λ acc node,
           groups ← acc;
           id_s ← getitem (partition st) node;
           Ok (add_to groups id_s node))
        (Ok []) (visit refining_set).

(** The body of the second loop of [refine]; [set_pairs] holds the pairs
    [(new, old)] of identities. *)
Definition split (acc : result (min_state * list (nat * nat)))
    (entry : nat * gset nat) : result (min_state * list (nat * nat)) :=
  '(st, set_pairs) ← acc;
  let '(id_s, intersection) := entry in
  s ← getitem (sets st) id_s;
  if decide (intersection = s) then Ok (st, set_pairs)
  else
    let new := next_id st in
    Ok ({| next_id := S new;
           sets := <[id_s := s ∖ intersection]> (<[new := intersection]> (sets st));
           partition :=
             foldl (λ part x, <[x := new]> part) (partition st) (visit intersection) |},
        set_pairs ++ [(new, id_s)]).

(** [refine(refining_set)]. *)
Definition refine (st : min_state) (refining_set : gset nat)
    : result (min_state * list (nat * nat)) :=
  groups ← intersections st refining_set;
  foldl split (Ok (st, [])) groups.

(** [x in remaining] for a list of set objects: the same object or an equal
    set. *)
Definition in_remaining (st : min_state) (x : nat) (remaining : list nat) : bool :=
  existsb (λ r, bool_decide (r = x ∨ sets st !! r = sets st !! x)) remaining.

(** The body of [for new, old in refine(dsts)]. *)
Definition enqueue (st : min_state) (remaining : list nat) (pair : nat * nat)
    : list nat :=
  let '(new, old) := pair in
  let len i := size (default ∅ (sets st !! i)) in
  if decide (len new < len old) then
    if negb (in_remaining st new remaining) then remaining ++ [new]
    else if negb (in_remaining st old remaining) then remaining ++ [old]
    else remaining
  else
    if negb (in_remaining st old remaining) then remaining ++ [old]
    else if negb (in_remaining st new remaining) then remaining ++ [new]
    else remaining.

(** The body of [for char in alphabet], for the popped set object [a]. *)
Definition min_char (dfa : DFA.t A) (a : nat)
    (acc : result (min_state * list nat)) (char : Z) : result (min_state * list nat) :=
  '(st, remaining) ← acc;
  members ← getitem (sets st) a;
  let dsts : gset nat := ⋃ ((λ node, rev_transitions dfa node char) <$> visit members) in
  let len_dsts := size dsts in
  if decide (len_dsts = 0 ∨ len_dsts = size (partition st)) then Ok (st, remaining)
  else
    '(st', set_pairs) ← refine st dsts;
    Ok (st', foldl (enqueue st') remaining set_pairs).

(** [while remaining: a = remaining.pop(); ...], at most [fuel]
    iterations.  [remaining] is a list and [pop()] takes its last element. *)
Fixpoint min_loop (dfa : DFA.t A) (alphabet : gset Z) (fuel : nat)
    (st : min_state) (remaining : list nat) : result min_state :=
  match fuel with
  | 0 => Timeout_
  | S fuel' =>
    match last remaining with
    | None => Ok st
    | Some a =>
      '(st', remaining') ←
        foldl (min_char dfa a) (Ok (st, removelast remaining)) (visit alphabet);
      min_loop dfa alphabet fuel' st' remaining'
    end
  end.

(** The renumbering:
<<
    mapping = {}
    for new_node, part in enumerate(sorted(sorted(p) for p in partition.values())):
      for old_node in part:
        mapping[old_node] = new_node
>>
    [partition.values()] has one entry per node. *)
Definition parts (st : min_state) : list (list nat) :=
  merge_sort list_le
    ((λ i, sorted_nodes (default ∅ (sets st !! i))) <$> (map_to_list (partition st)).*2).

Definition renumber (parts : list (list nat)) : gmap nat nat :=
  foldl (λ mapping '(new_node, part),
           foldl (λ mapping old_node, <[old_node := new_node]> mapping) mapping part)
        ∅ (imap (λ i p, (i, p)) parts).

(** The transitions of the minimised DFA:
<<
    for old_node, old_d in dfa.transitions.items():
      new_d = transitions[mapping[old_node]]
      for char, old_dst in old_d.items():
        new_dst = mapping[old_dst]
        try:
          existing = new_d[char]
          if existing != new_dst:
            exit(...)
        except KeyError:
          new_d[char] = new_dst
>> *)
Definition map_edge (mapping : gmap nat nat) (new_src : nat)
    (acc : result (gmap nat (gmap Z nat))) (edge : Z * nat)
    : result (gmap nat (gmap Z nat)) :=
  transitions ← acc;
  let '(char, old_dst) := edge in
  new_dst ← getitem mapping old_dst;
  match lookup2 transitions new_src char with
  | Some existing =>
    if decide (existing = new_dst) then Ok transitions else Err SystemExit
  | None => Ok (set_edge new_src char new_dst transitions)
  end.

Definition map_node (mapping : gmap nat nat)
    (acc : result (gmap nat (gmap Z nat))) (entry : nat * gmap Z nat)
    : result (gmap nat (gmap Z nat)) :=
  transitions ← acc;
  let '(old_node, old_d) := entry in
  new_src ← getitem mapping old_node;
  foldl (map_edge mapping new_src) (Ok (touch new_src transitions)) (items old_d).

(** [{ mapping[old] : name for old, name in dfa.matchNodeNames.items() }]. *)
Definition map_names (mapping : gmap nat nat) (names : gmap nat A)
    : result (gmap nat A) :=
  foldl (λ acc '(old, name),
           m ← acc; new ← getitem mapping old; Ok (<[new := name]> m))
        (Ok ∅) (items names).

(** [minimizeDFA(dfa)] with the refinement loop bounded by [fuel]:
    [refine_partition] is the code up to the end of the loop, with
    [remaining = list(init_sets)] as the identities of the initial sets. *)
Definition refine_partition (fuel : nat) (dfa : DFA.t A) : result min_state :=
  min_loop dfa (DFA.alphabet dfa) fuel (init_state dfa) (seq 0 (length (init_sets dfa))).

Definition minimizeDFA_bounded (fuel : nat) (dfa : DFA.t A) : result (DFA.t A) :=
  st ← refine_partition fuel dfa;
  let mapping := renumber (parts st) in
  transitions ← foldl (map_node mapping) (Ok ∅) (items (DFA.transitions dfa));
  matchNodeNames ← map_names mapping (DFA.matchNodeNames dfa);
  Ok (DFA.mk transitions matchNodeNames (DFA.literalRules dfa)).

(** A set object is appended to [remaining] only when a class is split,
    which can happen less often than there are nodes. *)
Definition min_fuel (dfa : DFA.t A) : nat :=
  S (length (init_sets dfa) + size (DFA.allNodes dfa ∪ DFA.matchNodes dfa)).

Definition minimizeDFA (dfa : DFA.t A) : result (DFA.t A) :=
  minimizeDFA_bounded (min_fuel dfa) dfa.

End minimizeDFA.

(** * Specifications *)

(** ** The runtime *)

(** The modes a lexer can be in: [main], and every mode that a mode
    transition pushes. *)
Definition lexer_mode (cls : LexerClass) (mode : string) : Prop :=
  mode = "main" ∨
  ∃ from_mode kind pop_kind,
    lookup2 (mode_transitions cls) from_mode kind = Some (mode, pop_kind).

(** The start state of a mode has a transition on every byte. *)
Definition start_total (data : ModeData) : Prop :=
  ∀ b, is_byte b → is_Some (lookup2 data.1.2 data.1.1 b).

(** The sink-completion invariant, as the runtime meets it: every mode of
    the lexer has mode data, whose start state has a transition on every
    byte. *)
Definition sink_complete (cls : LexerClass) : Prop :=
  ∀ mode, lexer_mode cls mode →
    ∃ data, mode_data cls !! mode = Some data ∧ start_total data.

(** A checker for [sink_complete] on concrete tables. *)
Definition pushed_modes (cls : LexerClass) : list string :=
  (map_to_list (mode_transitions cls)).*2 ≫= (λ d, (map_to_list d).*2.*1).

Definition start_totalb (data : ModeData) : bool :=
  forallb (λ b, bool_decide (is_Some (lookup2 data.1.2 data.1.1 b))) byte_range.

Definition sink_completeb (cls : LexerClass) : bool :=
  forallb (λ mode, from_option start_totalb false (mode_data cls !! mode))
          ("main" :: pushed_modes cls).

(** The stack of a running lexer: the [main] frame, which nothing pops,
    below the frames that mode transitions pushed. *)
Definition stack_ok (cls : LexerClass) (stk : list (string * option string)) : Prop :=
  ∃ pushed, stk = ("main", None) :: pushed ∧
    Forall (λ frame, lexer_mode cls frame.1 ∧ is_Some frame.2) pushed.

(** The tokens [toks] tile the text from position [p] to position [q]: each
    starts where the one before it ended, and none is empty. *)
Fixpoint tiles (p : nat) (toks : list Token) (q : nat) : Prop :=
  match toks with
  | [] => p = q
  | token :: toks' =>
    Token.pos token = p ∧ p < Token.end_ token ∧ tiles (Token.end_ token) toks' q
  end.

(** ** The NFA *)

(** An ε-transition from [n] to [m]. *)
Definition eps_step (nfa : NFA.t) (n m : nat) : Prop :=
  ∃ dsts, lookup2 (NFA.transitions nfa) n empty_symbol = Some dsts ∧ m ∈ dsts.

(** The ε-closure of a state: the nodes reachable from a node of the state
    by ε-transitions alone. *)
Definition eps_closure (nfa : NFA.t) (state : gset nat) (m : nat) : Prop :=
  ∃ n, n ∈ state ∧ rtc (eps_step nfa) n m.

(** The nodes a state leads to on a byte, before ε-transitions. *)
Definition byte_step (nfa : NFA.t) (state : gset nat) (byte : Z) (m : nat) : Prop :=
  ∃ n dsts, n ∈ state ∧ lookup2 (NFA.transitions nfa) n byte = Some dsts ∧ m ∈ dsts.

(** ** Subset construction *)

(** The dictionary [d] of a DFA node holds exactly the edges that the NFA
    state [state] has on the symbols of [chars]. *)
Definition edges_ok `{SetOrder} (nfa : NFA.t) (table : gmap (gset nat) nat)
    (state : gset nat) (d : gmap Z nat) (chars : gset Z) : Prop :=
  ∀ c,
    (∀ m, d !! c = Some m →
       c ∈ chars ∧ NFA.advance nfa state c ≠ ∅ ∧
       table !! NFA.advance nfa state c = Some m) ∧
    (c ∈ chars → NFA.advance nfa state c ≠ ∅ → is_Some (d !! c)).

(** The invariant of the worklist loop of [gen_dfa], while the edges of the
    state [cur] on the symbols [chars] have been added. *)
Record gen_inv `{SetOrder} (nfa : NFA.t) (cur : gset nat) (chars : gset Z)
    (st : gen_state) : Prop := {
  inv_bound : ∀ state n,
    nfa_states_to_dfa_nodes st !! state = Some n → n < indexer st;
  inv_inj : ∀ state state' n,
    nfa_states_to_dfa_nodes st !! state = Some n →
    nfa_states_to_dfa_nodes st !! state' = Some n → state = state';
  inv_start :
    nfa_states_to_dfa_nodes st !! NFA.advance_empties nfa {[0]} = Some 0;
  inv_invalid : nfa_states_to_dfa_nodes st !! {[1]} = Some 1;
  inv_dom : ∀ n, n ∈ dom (transitions st) →
    ∃ state, nfa_states_to_dfa_nodes st !! state = Some n;
  inv_edges : ∀ state n d,
    nfa_states_to_dfa_nodes st !! state = Some n →
    transitions st !! n = Some d →
    edges_ok nfa (nfa_states_to_dfa_nodes st) state d
      (if decide (state = cur) then chars else NFA.alphabet nfa);
  inv_targets : ∀ n c m,
    lookup2 (transitions st) n c = Some m →
    m ∈ dom (transitions st) ∨
    ∃ state, nfa_states_to_dfa_nodes st !! state = Some m ∧ state ∈ remaining st;
  inv_remaining : ∀ state, state ∈ remaining st →
    ∃ n, nfa_states_to_dfa_nodes st !! state = Some n ∧ n ∉ dom (transitions st);
  inv_start_seen :
    0 ∈ dom (transitions st) ∨ NFA.advance_empties nfa {[0]} ∈ remaining st;
}.

(** The state of [gen_dfa] when the worklist loop starts: the start state
    is node 0, [{1}] is node 1, and only the start state is on the
    worklist. *)
Definition gen_start `{SetOrder} (nfa : NFA.t) : gen_state :=
  {| indexer := 2;
     nfa_states_to_dfa_nodes :=
       <[({[1]} : gset nat) := 1]> {[NFA.advance_empties nfa {[0]} := 0]};
     transitions := ∅;
     remaining := {[NFA.advance_empties nfa {[0]}]} |}.

(** ** Minimisation *)

(** The invariant of the refinement loop of [minimizeDFA]: [partition] and
    [sets] describe the same classes, identities of set objects are below
    [next_id], and every match node is alone in its class. *)
Record min_inv {A} (dfa : DFA.t A) (st : min_state) : Prop := {
  inv_class : ∀ x i, partition st !! x = Some i →
    ∃ s, sets st !! i = Some s ∧ x ∈ s;
  inv_member : ∀ i s x, sets st !! i = Some s → x ∈ s → partition st !! x = Some i;
  inv_ids : ∀ i, i ∈ dom (sets st) → i < next_id st;
  inv_match : ∀ n, n ∈ DFA.matchNodes dfa →
    ∃ i, partition st !! n = Some i ∧ sets st !! i = Some {[n]};
}.

(** The groups [refine] collects: one non-empty group per class, of nodes of
    that class. *)
Definition groups_ok (partition : gmap nat nat) (groups : list (nat * gset nat)) : Prop :=
  NoDup groups.*1 ∧
  ∀ i g, (i, g) ∈ groups → g ≠ ∅ ∧ ∀ x, x ∈ g → partition !! x = Some i.

(** The part of the invariant of [minimizeDFA] that bounds its loop: at most
    one class is empty. *)
Definition one_empty (st : min_state) : Prop :=
  ∀ i j, sets st !! i = Some ∅ → sets st !! j = Some ∅ → i = j.

(** ** The renumbering of [minimizeDFA], and [DFA.match] from any node *)

(** The dictionary [mapping] of [minimizeDFA], from the nodes of its
    argument to the nodes of its result. *)
Definition mapping_of `{SetOrder} {A} (dfa : DFA.t A) : result (gmap nat nat) :=
  st ← refine_partition (min_fuel dfa) dfa;
  Ok (renumber (parts st)).

(** [DFA.match(text, start)] with its parameter [start], on the encoded
    bytes of [text]. *)
Definition match_at {A} (dfa : DFA.t A) (start : nat) (text_bytes : list Z) : option A :=
  DFA.run dfa start text_bytes ≫= (DFA.matchNodeNames dfa !!.).

(** ** The nodes of the DFA that [gen_dfa] builds *)

(** No transition of the NFA leads to node 1, the node that [genNFA]
    reserves for [invalid]. *)
Definition invalid_unreachable (nfa : NFA.t) : Prop :=
  map_Forall (λ _ d, map_Forall (λ (_ : Z) (dsts : gset nat), 1 ∉ dsts) d)
             (NFA.transitions nfa).

#[export] Instance invalid_unreachable_dec nfa : Decision (invalid_unreachable nfa).
Proof. unfold invalid_unreachable. apply _. Defined.


(** A byte on which the NFA cannot advance from its start state. *)
Definition invalid_byte `{SetOrder} (nfa : NFA.t) (b : Z) : Prop :=
  is_byte b ∧ NFA.advance nfa (NFA.advance_empties nfa {[0]}) b = ∅.

#[export] Instance invalid_byte_dec `{SetOrder} nfa b : Decision (invalid_byte nfa b).
Proof. unfold invalid_byte. apply _. Defined.


(** ** Walks of the runtime's tables *)

(** The node that the transitions of a mode lead to from [state] on
    [bytes]; [None] when some byte has no transition. *)
Fixpoint walk (transitions : StateTransitions) (state : nat) (bytes : list Z)
    : option nat :=
  match bytes with
  | [] => Some state
  | byte :: rest =>
    match lookup2 transitions state byte with
    | None => None
    | Some state' => walk transitions state' rest
    end
  end.

(** * Combining the DFAs of the modes: [combine_dfas] in [legs/__main__.py] *)

(** [class Mode(NamedTuple)] of [legs/defs.py]; [invalid_name] is a value of
    [matchNodeNames]. *)
Module Mode.
Record t (A : Type) : Type := mk {
  name : string;
  start : nat;
  invalid : nat;
  invalid_name : A;
  incomplete_name : string;
}.
Arguments mk {A} _ _ _ _ _.
Arguments name {A} _.
Arguments start {A} _.
Arguments invalid {A} _.
Arguments invalid_name {A} _.
Arguments incomplete_name {A} _.
End Mode.

(** [sorted(..., key=lambda p: '' if p[0] == 'main' else p[0])]: Python's
    sort is stable and compares [str] keys by code point, which on encoded
    strings is the order of [String.leb]. *)
Definition mode_key {B} (p : string * B) : string :=
  if decide (p.1 = "main") then "" else p.1.

Fixpoint insert_sorted {B} (key : B → string) (x : B) (l : list B) : list B :=
  match l with
  | [] => [x]
  | y :: l' =>
    if String.leb (key y) (key x) then y :: insert_sorted key x l'
    else x :: y :: l'
  end.

Definition sorted_by_key {B} (key : B → string) (l : list B) : list B :=
  foldl (λ acc x, insert_sorted key x acc) [] l.

(** [{ node : mk_node() for node in nodes }] when the counter stands at
    [base]. *)
Definition remap_of (base : nat) (nodes : list nat) : gmap nat nat :=
  list_to_map (zip nodes (seq base (length nodes))).

Section combine_dfas.
Context `{SetOrder} {A : Type}.

(** [target.update((remap[k], g(v)) for k, v in pairs)]. *)
Definition update_remapped {V W} (remap : gmap nat nat) (g : V → result W)
    (target : gmap nat W) (pairs : list (nat * V)) : result (gmap nat W) :=
  foldl (λ acc '(k, v),
           m ← acc; k' ← getitem remap k; w ← g v; Ok (<[k' := w]> m))
        (Ok target) pairs.

(** [remap_trans_dict(d)]: [{ c : remap[dst] for c, dst in d.items() }]. *)
Definition remap_trans_dict (remap : gmap nat nat) (d : gmap Z nat)
    : result (gmap Z nat) :=
  foldl (λ acc '(c, dst), m ← acc; dst' ← getitem remap dst; Ok (<[c := dst']> m))
        (Ok ∅) (items d).

(** The locals of [combine_dfas] that its loop updates. *)
Record combined : Type := {
  c_indexer : nat;
  c_transitions : gmap nat (gmap Z nat);
  c_matchNodeNames : gmap nat A;
  c_literalRules : gset string;
  c_modes : list (Mode.t A);
  c_node_modes : gmap nat (Mode.t A);
}.

(** The body of the loop of [combine_dfas]. *)
Definition combine_step (st : combined) (pair : string * DFA.t A) : result combined :=
  let '(mode_name, dfa) := pair in
  let nodes := sorted_nodes (DFA.allNodes dfa) in
  let remap := remap_of (c_indexer st) nodes in
  start ← getitem remap 0;
  invalid ← getitem remap 1;
  invalid_name ← getitem (DFA.matchNodeNames dfa) 1;
  let mode := Mode.mk mode_name start invalid invalid_name (incomplete_name mode_name) in
  let node_modes :=
    foldl (λ m node, <[node := mode]> m) (c_node_modes st)
          (seq (c_indexer st) (length nodes)) in
  transitions ←
    update_remapped remap (remap_trans_dict remap) (c_transitions st)
                    (NFA.sorted_items (DFA.transitions dfa));
  matchNodeNames ←
    update_remapped remap Ok (c_matchNodeNames st)
                    (NFA.sorted_items (DFA.matchNodeNames dfa));
  Ok {| c_indexer := c_indexer st + length nodes;
        c_transitions := transitions;
        c_matchNodeNames := matchNodeNames;
        c_literalRules := c_literalRules st ∪ DFA.literalRules dfa;
        c_modes := c_modes st ++ [mode];
        c_node_modes := node_modes |}.

Definition combine_loop (pairs : list (string * DFA.t A)) : result combined :=
  foldl (λ acc pair, st ← acc; combine_step st pair)
        (Ok {| c_indexer := 0; c_transitions := ∅; c_matchNodeNames := ∅;
               c_literalRules := ∅; c_modes := []; c_node_modes := ∅ |})
        pairs.

(** [combine_dfas(mode_dfa_pairs, mode_rule_names)]; the second argument is
    not used. *)
Definition combine_dfas (mode_dfa_pairs : list (string * DFA.t A))
    : result (DFA.t A * list (Mode.t A) * gmap nat (Mode.t A)) :=
  st ← combine_loop (sorted_by_key mode_key mode_dfa_pairs);
  Ok (DFA.mk (c_transitions st) (c_matchNodeNames st) (c_literalRules st),
      c_modes st, c_node_modes st).

End combine_dfas.

(** The combined tables hold a copy of [dfa] on the nodes that [remap]
    assigns. *)
Definition embeds {A} (dfa : DFA.t A) (remap : gmap nat nat)
    (transitions : gmap nat (gmap Z nat)) (names : gmap nat A) : Prop :=
  ∀ n n', remap !! n = Some n' →
    (∀ c, lookup2 transitions n' c = DFA.advance dfa n c ≫= (remap !!.)) ∧
    names !! n' = DFA.matchNodeNames dfa !! n.

(** The invariant of the loop of [combine_dfas]: the nodes in use are below
    the counter. *)
Definition bounded {A} (st : @combined A) : Prop :=
  (∀ k, k ∈ dom (c_transitions st) → k < c_indexer st) ∧
  (∀ k, k ∈ dom (c_matchNodeNames st) → k < c_indexer st).

(** The [Mode] record that the loop makes for a pair. *)
Definition mode_of {A} (pair : string * DFA.t A) (remap : gmap nat nat)
    (mode : Mode.t A) : Prop :=
  Mode.name mode = pair.1 ∧
  Mode.incomplete_name mode = incomplete_name pair.1 ∧
  remap !! 0 = Some (Mode.start mode) ∧
  remap !! 1 = Some (Mode.invalid mode) ∧
  DFA.matchNodeNames pair.2 !! 1 = Some (Mode.invalid_name mode).

(** What [combine_dfas] needs of a DFA: nodes 0 and 1, a name for node 1,
    and every match node among the nodes of the transitions. *)
Definition combinable {A} (dfa : DFA.t A) : Prop :=
  0 ∈ DFA.allNodes dfa ∧ 1 ∈ DFA.allNodes dfa ∧
  1 ∈ DFA.matchNodes dfa ∧ DFA.matchNodes dfa ⊆ DFA.allNodes dfa.

(** * [Source]: the lines of a text, [legs_base.py] *)

(** The byte [b'\n']. *)
Definition newline : Z := 10%Z.

(** [text.rfind(b'\n', 0, end)]: the highest index below [end] that holds
    a newline; [None] stands for the result [-1]. *)
Fixpoint rfind_newline (text : list Z) (end_ : nat) : option nat :=
  match end_ with
  | 0 => None
  | S i => if decide (text !! i = Some newline) then Some i else rfind_newline text i
  end.

(** [text.find(b'\n', pos)], searching [rest = text[pos:]] whose first byte
    has index [i]; [None] stands for the result [-1]. *)
Fixpoint find_newline_from (rest : list Z) (i : nat) : option nat :=
  match rest with
  | [] => None
  | b :: rest' => if decide (b = newline) then Some i else find_newline_from rest' (S i)
  end.

Definition find_newline (text : list Z) (pos : nat) : option nat :=
  find_newline_from (drop pos text) pos.

(** [Source.get_line_start(pos)]: [rfind] returns -1 for no match, so just
    add one. *)
Definition get_line_start (text : list Z) (pos : nat) : nat :=
  match rfind_newline text pos with
  | Some i => S i
  | None => 0
  end.

(** [Source.get_line_end(pos)]. *)
Definition get_line_end (text : list Z) (pos : nat) : nat :=
  match find_newline text pos with
  | None => length text
  | Some line_end => S line_end
  end.

(** * The Swift generator: [byte_case_ranges] in [legs/swift.py] *)

(** The body of the loop of [byte_case_ranges]; the last element of
    [ranges] is [ranges[-1]]. *)
Definition add_char (ranges : list (Z * Z)) (char : Z) : list (Z * Z) :=
  match last ranges with
  | None => [(char, char)]
  | Some (low, prev) =>
    if decide ((prev + 1)%Z = char) then removelast ranges ++ [(low, char)]
    else ranges ++ [(char, char)]
  end.

(** The list [ranges] at the end of the loop. *)
Definition char_ranges (chars : list Z) : list (Z * Z) :=
  foldl add_char [] chars.

(** Python's [hex]. *)
Definition hex (n : Z) : string := HexString.of_Z n.

(** [fmt(l, h)]. *)
Definition fmt (r : Z * Z) : string :=
  let '(l, h) := r in
  if decide (l = h) then hex l
  else hex l +:+ (if decide ((l + 1)%Z = h) then ", " else "...") +:+ hex h.

(** [byte_case_ranges(chars)]. *)
Definition byte_case_ranges (chars : list Z) : list string :=
  fmt <$> char_ranges chars.

(** The integers that a pair [(low, high)] stands for, [low] to [high]
    inclusive. *)
Definition range_values (r : Z * Z) : list Z :=
  (λ i, (r.1 + Z.of_nat i)%Z) <$> seq 0 (Z.to_nat (r.2 - r.1 + 1)).

(** Between one range and the next, at least one integer is left out. *)
Fixpoint gapped (ranges : list (Z * Z)) : Prop :=
  match ranges with
  | r1 :: (r2 :: _) as rest => (r1.2 + 1 < r2.1)%Z ∧ gapped rest
  | _ => True
  end.

(** * The Python generator: [py_safe_sym] in [legs/python.py] *)

(** A Python [str] as the list of its code points. *)
Definition codes (s : string) : list nat :=
  (λ a, Ascii.nat_of_ascii a) <$> String.list_ascii_of_string s.

Definition underscore : nat := 95.

Definition py_reserved_syms : list (list nat) :=
  codes <$>
    ["False"; "class"; "finally"; "is"; "return"; "None"; "continue"; "for";
     "lambda"; "try"; "True"; "def"; "from"; "nonlocal"; "while"; "and"; "del";
     "global"; "not"; "with"; "as"; "elif"; "if"; "or"; "yield"; "assert";
     "else"; "import"; "pass"; "break"; "except"; "in"; "raise"].

Section py_safe_sym.
(** The characters that the pattern [\w] matches in a [str], and those for
    which [str.isdigit] holds, by code point. *)
Variable is_word : nat → bool.
Variable isdigit : nat → bool.

(** [py_safe_sym(name)]; [name[0]] raises [IndexError] on the empty
    string. *)
Definition py_safe_sym (name : list nat) : result (list nat) :=
  let name := (λ c, if is_word c then c else underscore) <$> name in
  match name with
  | [] => Err IndexError
  | c :: _ =>
    let name := if isdigit c then underscore :: name else name in
    Ok (if decide (name ∈ py_reserved_syms) then name ++ [underscore] else name)
  end.
End py_safe_sym.

(** * [ploy_repr] in [legs_base.py] *)

(** What [ploy_repr] appends for a character, by code point: a backslash
    is 92, a single quote 39, and the characters [0], [t], [n], [r] and [;]
    are 48, 116, 110, 114 and 59. *)
Definition ploy_escape (char : nat) : list nat :=
  if decide (char = 92) then [92; 92]
  else if decide (char = 39) then [92; 39]
  else if decide (32 ≤ char ≤ 126) then [char]
  else if decide (char = 0) then [92; 48]
  else if decide (char = 9) then [92; 116]
  else if decide (char = 10) then [92; 110]
  else if decide (char = 13) then [92; 114]
  else [92] ++ codes (hex (Z.of_nat char)) ++ [59].

(** [ploy_repr(string)]. *)
Definition ploy_repr (string : list nat) : list nat :=
  [39] ++ (string ≫= ploy_escape) ++ [39].

(** The printable characters of ASCII. *)
Definition printable (c : nat) : Prop := 32 ≤ c ≤ 126.

(** * [DFA.postMatchNodes] *)

Section postMatchNodes.
Context `{SetOrder} {A : Type}.

(** [dstNodes(node)]: [self.transitions[node]] raises [KeyError] for a node
    without a dictionary of edges. *)
Definition dstNodes_of (dfa : DFA.t A) (node : nat) : result (gset nat) :=
  d ← getitem (DFA.transitions dfa) node;
  Ok (list_to_set (map_to_list d).*2).

(** The body of [for dst in self.dstNodes(node)]. *)
Definition post_dst (dfa : DFA.t A) (acc : gset nat * gset nat) (dst : nat)
    : gset nat * gset nat :=
  let '(nodes, remaining) := acc in
  if decide (dst ∉ DFA.matchNodes dfa ∧ dst ∉ nodes)
  then ({[dst]} ∪ nodes, {[dst]} ∪ remaining)
  else (nodes, remaining).

(** [while remaining: node = remaining.pop(); ...], at most [fuel]
    iterations. *)
Fixpoint post_loop (dfa : DFA.t A) (fuel : nat) (nodes remaining : gset nat)
    : result (gset nat) :=
  match fuel with
  | 0 => Timeout_
  | S fuel' =>
    match pop remaining with
    | None => Ok nodes
    | Some node =>
      dsts ← dstNodes_of dfa node;
      let '(nodes', remaining') :=
        foldl (post_dst dfa) (nodes, remaining ∖ {[node]}) (visit dsts) in
      post_loop dfa fuel' nodes' remaining'
    end
  end.

(** [postMatchNodes].  Every node is popped at most once. *)
Definition postMatchNodes (dfa : DFA.t A) : result (gset nat) :=
  post_loop dfa (S (size (DFA.matchNodes dfa ∪ DFA.allNodes dfa))) ∅ (DFA.matchNodes dfa).

(** An edge to a node that is no match node. *)
Definition post_edge (dfa : DFA.t A) (n m : nat) : Prop :=
  (∃ c, DFA.advance dfa n c = Some m) ∧ m ∉ DFA.matchNodes dfa.

(** The invariant of the loop, with the set of the nodes popped so far. *)
Definition post_inv (dfa : DFA.t A) (nodes remaining processed : gset nat) : Prop :=
  processed ## remaining ∧
  processed ∪ remaining = DFA.matchNodes dfa ∪ nodes ∧
  (∀ x, x ∈ nodes → ∃ m, m ∈ DFA.matchNodes dfa ∧ tc (post_edge dfa) m x) ∧
  (∀ n x, n ∈ processed → post_edge dfa n x → x ∈ nodes) ∧
  nodes ⊆ DFA.allDstNodes dfa.

End postMatchNodes.

(** * Example automata and lexers *)

(** The DFA of a result, for results known to be [Ok]. *)
Definition unwrap {A} (r : result (DFA.t A)) : DFA.t A :=
  match r with
  | Ok dfa => dfa
  | _ => DFA.mk ∅ ∅ ∅
  end.

(** The NFA of the single rule [a = "a"], as [genNFA] lays it out: node 0
    is the start, node 1 the unreachable invalid node, node 2 the match
    node of [a]. *)
Definition nfa_a : NFA.t :=
  NFA.mk {[0 := {[97%Z := {[2]}]}]}
         (list_to_map [(1, "invalid"); (2, "a")])
         {["a"]}.


(** The NFA of the rule [x = (a|c)b], with one path per alternative. *)
Definition nfa_acb : NFA.t :=
  NFA.mk (list_to_map
            [(0, list_to_map [(97%Z, {[3]}); (99%Z, {[4]})]);
             (3, list_to_map [(98%Z, {[2]})]);
             (4, list_to_map [(98%Z, {[2]})])])
         (list_to_map [(1, "invalid"); (2, "x")])
         ∅.

(** The NFA of a rule [r = ([^a].)*a]: from the start every byte has an
    edge, [a] to the match node 2 and every other byte to node 3; node 3
    goes to node 4 on every byte, and node 4 does what the start does. *)
Definition nfa_loop : NFA.t :=
  let first : gmap Z (gset nat) :=
    list_to_map ((λ b, (b, if decide (b = 97%Z) then {[2]} else {[3]})) <$> byte_range) in
  NFA.mk (list_to_map
            [(0, first);
             (3, list_to_map ((λ b, (b, {[4]})) <$> byte_range));
             (4, first)])
         (list_to_map [(1, "invalid"); (2, "r")])
         ∅.

Definition fat_acb : DFA.t (gset string) := unwrap (gen_dfa (H := ascending) nfa_acb).
Definition fat_loop : DFA.t (gset string) := unwrap (gen_dfa (H := ascending) nfa_loop).

(** What [match_string] of [__main__.py] compares for a string: the matches
    of the NFA, of its fat DFA and of the minimised DFA. *)
Definition match_results `{SetOrder} (nfa : NFA.t) (text_bytes : list Z)
    : result (gset string * option (gset string) * option (gset string)) :=
  fat_dfa ← gen_dfa nfa;
  min_dfa ← minimizeDFA fat_dfa;
  Ok (NFA.match_ nfa text_bytes, DFA.match_ fat_dfa text_bytes,
      DFA.match_ min_dfa text_bytes).

(** The sorted classes and the renumbering that [minimizeDFA] computes. *)
Definition renumbering `{SetOrder} {A} (dfa : DFA.t A)
    : result (list (list nat) * gmap nat nat) :=
  st ← refine_partition (min_fuel dfa) dfa;
  Ok (parts st, renumber (parts st)).

(** A result that is a value. *)
Definition is_Ok {A} (r : result A) : Prop :=
  match r with
  | Ok _ => True
  | _ => False
  end.

(** A lexer with two modes.  In [main] the rule [open = "("] pushes the
    mode [paren] with pop kind [close]; [paren] has the rules [close = ")"]
    and [ab = "ab"].  The tables are those of the two DFAs after sink
    completion: nodes 0 and 1 are the start and invalid nodes of [main],
    nodes 3 and 4 those of [paren]. *)
Definition sink_row (start_dict : list (Z * nat)) (invalid : nat) : gmap Z nat :=
  list_to_map (start_dict ++ ((λ b, (b, invalid)) <$> byte_range)).

Definition main_data : ModeData :=
  (0,
   list_to_map
     [(0, sink_row [(40%Z, 2)] 1);
      (1, list_to_map ((λ b, (b, 1)) <$> filter (λ b, b ≠ 40%Z) byte_range))],
   list_to_map [(1, "invalid"); (2, "open")]).

Definition paren_data : ModeData :=
  (3,
   list_to_map
     [(3, sink_row [(41%Z, 5); (97%Z, 6)] 4);
      (4, list_to_map
            ((λ b, (b, 4)) <$> filter (λ b, b ≠ 41%Z ∧ b ≠ 97%Z) byte_range));
      (6, {[98%Z := 7]})],
   list_to_map [(4, "paren_invalid"); (5, "close"); (7, "ab")]).

Definition paren_lexer : LexerClass :=
  {| mode_transitions := {["main" := {["open" := ("paren", "close")]}]};
     mode_data := <["main" := main_data]> {["paren" := paren_data]} |}.

(** The lexer after the token [open] of a text that starts with [(]. *)
Definition in_paren (source_text : list Z) : DictLexerBase :=
  {| text := source_text; pos := 1;
     stack := [("main", None); ("paren", Some "close")] |}.

(** The minimised DFA of the rule [x = (a|c)b]. *)
Definition min_acb : DFA.t (gset string) :=
  unwrap (minimizeDFA (H := ascending) fat_acb).

(** Two small DFAs with the nodes that [combine_dfas] expects: node 0 is
    the start, node 1 the invalid node; the first matches [a] at node 2, the
    second [ab] at node 3. *)
Definition dfa_main : DFA.t string :=
  DFA.mk (list_to_map [(0, {[97%Z := 2; 32%Z := 1]}); (1, {[32%Z := 1]})])
         (list_to_map [(1, "invalid"); (2, "a")])
         {["a"]}.

Definition dfa_str : DFA.t string :=
  DFA.mk (list_to_map [(0, {[97%Z := 2; 32%Z := 1]}); (1, {[32%Z := 1]});
                       (2, {[98%Z := 3]})])
         (list_to_map [(1, "str_invalid"); (3, "ab")])
         {["ab"]}.

Definition mode_pairs : list (string * DFA.t string) :=
  [("str", dfa_str); ("main", dfa_main)].

(** What [combine_dfas] returns for a result known to be [Ok]. *)
Definition unwrap_combined {A}
    (r : result (DFA.t A * list (Mode.t A) * gmap nat (Mode.t A)))
    : DFA.t A * list (Mode.t A) * gmap nat (Mode.t A) :=
  match r with
  | Ok x => x
  | _ => (DFA.mk ∅ ∅ ∅, [], ∅)
  end.

Definition combined_pairs : DFA.t string * list (Mode.t string) * gmap nat (Mode.t string) :=
  unwrap_combined (combine_dfas (H := ascending) mode_pairs).

(** The dictionary [mapping] that [minimizeDFA] computes for the fat DFA of
    [x = (a|c)b]. *)
Definition mapping_acb : gmap nat nat :=
  match mapping_of (H := ascending) fat_acb with
  | Ok mapping => mapping
  | _ => ∅
  end.

(** A DFA in which node 2 comes after the match node 1. *)
Definition dfa_post : DFA.t string :=
  DFA.mk (list_to_map [(0, {[97%Z := 1]}); (1, {[98%Z := 2]}); (2, ∅)])
         {[1 := "a"]}
         ∅.

(** The word characters and the digits of ASCII. *)
Definition ascii_word (c : nat) : bool :=
  bool_decide (48 ≤ c ≤ 57 ∨ 65 ≤ c ≤ 90 ∨ 97 ≤ c ≤ 122 ∨ c = 95).

Definition ascii_digit (c : nat) : bool := bool_decide (48 ≤ c ≤ 57).

(** The lexer in the mode [paren] of a text that starts with [(]; the token
    it returns on [(ab)] is [ab]. *)
Definition after_ab (source_text : list Z) : DictLexerBase :=
  {| text := source_text; pos := 3;
     stack := [("main", None); ("paren", Some "close")] |}.

(** * Proofs *)

(** * Properties of the runtime *)

Section lexer_facts.
Variable cls : LexerClass.

Lemma scan_bounds transitions kinds rest state p kind e p' kind' e' :
  scan transitions kinds rest state p kind e = (p', kind', e') →
  p ≤ p' ≤ p + length rest ∧
  (e' = e ∧ kind' = kind ∨ ∃ q, e' = Some q ∧ p < q ≤ p').
Proof.
  revert state p kind e.
  induction rest as [|byte rest IH]; intros state p kind e Hscan; simpl in Hscan.
  - injection Hscan as <- <- <-. simpl. split; [lia | by left].
  - destruct (lookup2 transitions state byte) as [state'|].
    + destruct (kinds !! state') as [k|];
        apply IH in Hscan as [Hp He]; simpl; (split; [lia|]).
      * right. destruct He as [[-> _]|(q & -> & Hq)]; eexists; split; eauto; lia.
      * destruct He as [He|(q & -> & Hq)]; [by left|].
        right. eexists; split; eauto; lia.
    + injection Hscan as <- <- <-. simpl. split; [lia | by left].
Qed.

Lemma scan_progress transitions kinds byte rest state state' p kind e p' kind' e' :
  lookup2 transitions state byte = Some state' →
  scan transitions kinds (byte :: rest) state p kind e = (p', kind', e') →
  p < p'.
Proof.
  intros Hstep Hscan. simpl in Hscan. rewrite Hstep in Hscan.
  destruct (kinds !! state'); apply scan_bounds in Hscan; lia.
Qed.

Lemma update_stack_ok mode pop_kind kind stk :
  stack_ok cls stk → last stk = Some (mode, pop_kind) →
  stack_ok cls (update_stack cls mode pop_kind kind stk).
Proof.
  intros (pushed & -> & Hpushed) Hlast. unfold update_stack.
  case_decide as Hpop.
  - destruct pushed as [|f pushed _] using rev_ind.
    + simpl in Hlast. congruence.
    + exists pushed. split.
      * change (("main", None) :: pushed ++ [f]) with ((("main", None) :: pushed) ++ [f]).
        by rewrite removelast_last.
      * by apply Forall_app in Hpushed as [? _].
  - destruct (lookup2 (mode_transitions cls) mode kind) as [[to_mode pk]|] eqn:Hpush.
    + exists (pushed ++ [(to_mode, Some pk)]). split; [done|].
      apply Forall_app. split; [done|]. constructor; [|done]. simpl.
      split; [|by eexists]. right. eauto.
    + by exists pushed.
Qed.

Lemma stack_ok_top stk :
  stack_ok cls stk → ∃ mode pop_kind, last stk = Some (mode, pop_kind) ∧ lexer_mode cls mode.
Proof.
  intros (pushed & -> & Hpushed).
  destruct pushed as [|[m pk] pushed _] using rev_ind.
  - exists "main", None. split; [done | by left].
  - exists m, pk. split.
    + change (("main", None) :: pushed ++ [(m, pk)])
        with ((("main", None) :: pushed) ++ [(m, pk)]).
      apply last_snoc.
    + apply Forall_app in Hpushed as [_ Hf]. by inversion Hf as [|?? [? _]].
Qed.

(** One call of [__next__] on a running lexer that has input left returns a
    token that starts at the current position, is not empty, and ends where
    the lexer then stands. *)
Lemma next_returns self :
  sink_complete cls → Forall is_byte (text self) → stack_ok cls (stack self) →
  pos self < length (text self) →
  ∃ token self',
    next cls self = Return token self' ∧
    Token.pos token = pos self ∧
    Token.pos token < Token.end_ token ≤ length (text self) ∧
    pos self' = Token.end_ token ∧
    text self' = text self ∧
    stack_ok cls (stack self').
Proof.
  intros Hsink Hbytes Hstack Hpos. unfold next.
  case_decide as Heq; [lia|].
  destruct (stack_ok_top _ Hstack) as (mode & pop_kind & Hlast & Hmode).
  rewrite Hlast.
  destruct (Hsink mode Hmode) as ([[mode_start transitions] kinds] & -> & Htotal).
  destruct (drop (pos self) (text self)) as [|byte rest] eqn:Hdrop.
  { apply (f_equal length) in Hdrop. rewrite length_drop in Hdrop. simpl in Hdrop. lia. }
  assert (is_byte byte) as Hbyte.
  { eapply Forall_forall; [exact Hbytes|].
    apply (list_elem_of_lookup_2 _ (pos self)).
    rewrite <- (Nat.add_0_r (pos self)), <- lookup_drop, Hdrop. done. }
  destruct (Htotal byte Hbyte) as [state' Hstep]. simpl in Hstep.
  destruct (scan transitions kinds (byte :: rest) mode_start (pos self) "incomplete" None)
    as [[p' kind] e] eqn:Hscan.
  pose proof (scan_progress _ _ _ _ _ _ _ _ _ _ _ _ Hstep Hscan) as Hprog.
  pose proof (scan_bounds _ _ _ _ _ _ _ _ _ _ Hscan) as [Hp He].
  assert (pos self + length (byte :: rest) = length (text self)) as Hlen.
  { rewrite <- Hdrop, length_drop. lia. }
  destruct He as [[-> ->]|(q & -> & Hq)].
  - rewrite decide_True by done. rewrite decide_True by lia.
    do 2 eexists. split; [done|]. simpl.
    repeat split; try lia; try done. by apply update_stack_ok.
  - rewrite decide_True by lia.
    do 2 eexists. split; [done|]. simpl.
    repeat split; try lia; try done. by apply update_stack_ok.
Qed.

Lemma tokens_tile fuel self :
  sink_complete cls → Forall is_byte (text self) → stack_ok cls (stack self) →
  pos self ≤ length (text self) →
  length (text self) - pos self < fuel →
  ∃ toks, tokens cls fuel self = (toks, Exhausted) ∧
          tiles (pos self) toks (length (text self)).
Proof.
  intros Hsink. revert self.
  induction fuel as [|fuel IH]; intros self Hbytes Hstack Hle Hfuel; [lia|].
  simpl. destruct (decide (pos self = length (text self))) as [Heq|Hne].
  - exists []. unfold next. rewrite decide_True by done. done.
  - destruct (next_returns self) as (token & self' & -> & Hp & He & Hp' & Ht & Hs);
      [done..|lia|].
    destruct (IH self') as (toks & -> & Htiles).
    + by rewrite Ht.
    + done.
    + rewrite Ht, Hp'. lia.
    + rewrite Ht, Hp'. lia.
    + exists (token :: toks). split; [done|]. simpl.
      rewrite Ht, Hp' in Htiles. repeat split; [done|lia|done].
Qed.

Lemma tiles_concat source_text p toks :
  tiles p toks (length source_text) →
  concat (bytes_for source_text <$> toks) = drop p source_text.
Proof.
  revert p. induction toks as [|token toks IH]; intros p.
  - simpl. intros ->. by rewrite drop_all.
  - intros (Hp & Hlt & Htiles). rewrite fmap_cons. simpl concat.
    rewrite (IH _ Htiles). unfold bytes_for.
    rewrite Hp.
    transitivity (take (Token.end_ token - p) (drop p source_text) ++
                  drop (Token.end_ token - p) (drop p source_text));
      [|apply take_drop].
    rewrite drop_drop. do 2 f_equal. lia.
Qed.

Lemma tiles_lookup p toks q i token :
  tiles p toks q → toks !! i = Some token →
  Token.pos token < Token.end_ token ∧
  (i = 0 → Token.pos token = p) ∧
  (∀ token', toks !! S i = Some token' → Token.pos token' = Token.end_ token).
Proof.
  revert p i. induction toks as [|t toks IH]; intros p i Htiles Hi; [done|].
  destruct Htiles as (Hp & Hlt & Htiles).
  destruct i as [|i]; simpl in Hi.
  - injection Hi as ->. repeat split; [lia|done|].
    intros token' Hnext. simpl in Hnext.
    destruct toks as [|t' toks]; [done|]. injection Hnext as <-.
    by destruct Htiles as (-> & _).
  - destruct (IH _ _ Htiles Hi) as (? & _ & Hnext). repeat split; [done|lia|].
    intros token' Hn. by apply Hnext.
Qed.

Lemma elem_of_byte_range b : b ∈ byte_range ↔ is_byte b.
Proof.
  unfold byte_range, is_byte. rewrite list_elem_of_fmap. split.
  - intros (n & -> & Hn%elem_of_seq). lia.
  - intros Hb. exists (Z.to_nat b). split; [lia|]. apply elem_of_seq. lia.
Qed.

Lemma start_totalb_correct data : start_totalb data = true → start_total data.
Proof.
  unfold start_totalb, start_total. rewrite forallb_forall.
  intros Hall b Hb%elem_of_byte_range%list_elem_of_In.
  by apply Hall, bool_decide_eq_true in Hb.
Qed.

Lemma sink_completeb_correct : sink_completeb cls = true → sink_complete cls.
Proof.
  unfold sink_completeb. rewrite forallb_forall. intros Hall mode Hmode.
  assert (In mode ("main" :: pushed_modes cls)) as Hin.
  { destruct Hmode as [->|(from_mode & kind & pop_kind & Hpush)]; [by left|].
    right. apply list_elem_of_In. unfold pushed_modes. apply list_elem_of_bind.
    unfold lookup2 in Hpush.
    destruct (mode_transitions cls !! from_mode) as [d|] eqn:Hd; [|done].
    simpl in Hpush. exists d. split.
    - apply list_elem_of_fmap. exists (mode, pop_kind). split; [done|].
      apply list_elem_of_fmap. exists (kind, (mode, pop_kind)). split; [done|].
      by apply elem_of_map_to_list.
    - apply list_elem_of_fmap. exists (from_mode, d). split; [done|].
      by apply elem_of_map_to_list. }
  apply Hall in Hin. destruct (mode_data cls !! mode) as [data|]; [|done].
  exists data. split; [done|]. by apply start_totalb_correct.
Qed.

(** C1. Iterating the lexer over any byte text ends with [StopIteration]
    and yields tokens that partition the text: the first token starts at
    0, each later token starts where the one before it ended, every token
    has [pos < end], and the concatenation of the tokens' slices of the
    text is the whole text; provided every mode of the lexer has a start
    state with a transition on every byte. *)
Theorem lexer_tokens_partition_text source_text :
  sink_complete cls → Forall is_byte source_text →
  ∃ toks,
    lex cls source_text = (toks, Exhausted) ∧
    (∀ token, toks !! 0 = Some token → Token.pos token = 0) ∧
    (∀ i token token',
       toks !! i = Some token → toks !! S i = Some token' →
       Token.pos token' = Token.end_ token) ∧
    (∀ token, token ∈ toks → Token.pos token < Token.end_ token) ∧
    concat (bytes_for source_text <$> toks) = source_text.
Proof.
  intros Hsink Hbytes.
  destruct (tokens_tile (S (length source_text)) (init source_text))
    as (toks & Hlex & Htiles); simpl; try done; try lia.
  { exists []. by split. }
  exists toks. split; [done|]. simpl in Htiles. repeat split.
  - intros token Ht. by eapply tiles_lookup.
  - intros i token token' Ht Ht'.
    destruct (tiles_lookup _ _ _ _ _ Htiles Ht) as (_ & _ & Hnext). by apply Hnext.
  - intros token (i & Ht)%list_elem_of_lookup. by eapply tiles_lookup.
  - by rewrite (tiles_concat _ _ _ Htiles).
Qed.

(** C7 (amended). Whenever [__next__] returns a token for which the
    matching loop recorded no match, in whatever mode, the token's kind is
    the fixed string [incomplete] and the token ends where the loop
    stopped; this is the incomplete name of the mode only for [main]. *)
Theorem unmatched_token_kind_is_incomplete self token self'
    mode pop_kind mode_start transitions kinds p k :
  next cls self = Return token self' →
  last (stack self) = Some (mode, pop_kind) →
  mode_data cls !! mode = Some (mode_start, transitions, kinds) →
  scan transitions kinds (drop (pos self) (text self)) mode_start (pos self)
       "incomplete" None = (p, k, None) →
  Token.kind token = "incomplete" ∧ Token.end_ token = p ∧
  (mode = "main" → Token.kind token = incomplete_name mode).
Proof.
  intros Hnext Hlast Hdata Hscan. unfold next in Hnext.
  case_decide; [done|]. rewrite Hlast, Hdata, Hscan in Hnext.
  apply scan_bounds in Hscan as [_ [[_ ->]|(q & ? & _)]]; [|done].
  rewrite decide_True in Hnext by done. case_decide; [|done].
  injection Hnext as <- <-. simpl. repeat split. by intros ->.
Qed.

(** C8. After [__next__] returns a token of kind [k] with [(mode,
    pop_kind)] on top of the stack: if [k] is [pop_kind] the stack is
    popped, whether or not [(mode, k)] is a mode transition; otherwise, if
    [(mode, k)] is a mode transition its frame is pushed; otherwise the
    stack is unchanged. *)
Theorem mode_stack_update self token self' mode pop_kind :
  next cls self = Return token self' →
  last (stack self) = Some (mode, pop_kind) →
  let k := Token.kind token in
  (pop_kind = Some k → stack self' = removelast (stack self)) ∧
  (pop_kind ≠ Some k →
     ∀ to_mode pk, lookup2 (mode_transitions cls) mode k = Some (to_mode, pk) →
     stack self' = stack self ++ [(to_mode, Some pk)]) ∧
  (pop_kind ≠ Some k → lookup2 (mode_transitions cls) mode k = None →
     stack self' = stack self).
Proof.
  intros Hnext Hlast. unfold next in Hnext.
  case_decide; [done|]. rewrite Hlast in Hnext.
  destruct (mode_data cls !! mode) as [[[mode_start transitions] kinds]|]; [|done].
  destruct (scan _ _ _ _ _ _ _) as [[p kind] e].
  destruct (match e with Some e0 => _ | None => _ end) as [end'|]; [|done].
  case_decide; [|done]. injection Hnext as <- <-. simpl.
  unfold update_stack. repeat split.
  - intros ->. by rewrite decide_True.
  - intros Hne to_mode pk ->. rewrite decide_False by done. done.
  - intros Hne ->. rewrite decide_False by done. done.
Qed.

End lexer_facts.

(** * Properties of the NFA *)

Section nfa_facts.
Context `{SetOrder}.

Lemma elem_of_visit `{Countable A} (s : gset A) x : x ∈ visit s ↔ x ∈ s.
Proof. by rewrite visit_perm, elem_of_elements. Qed.

Lemma NoDup_visit `{Countable A} (s : gset A) : NoDup (visit s).
Proof. rewrite visit_perm. apply NoDup_elements. Qed.

Lemma pop_Some `{Countable A} (s : gset A) x : pop s = Some x → x ∈ s.
Proof.
  unfold pop. intros Hhead. apply elem_of_visit.
  destruct (visit s); [done|]. injection Hhead as ->. by left.
Qed.

Lemma pop_None `{Countable A} (s : gset A) : pop s = None → s = ∅.
Proof.
  unfold pop. intros Hhead. apply set_eq. intros x.
  rewrite <- elem_of_visit. destruct (visit s); [|done]. set_solver.
Qed.

Lemma lookup2_Some `{Countable K1} `{Countable K2} {V}
    (d : gmap K1 (gmap K2 V)) k1 k2 v :
  lookup2 d k1 k2 = Some v ↔ ∃ d1, d !! k1 = Some d1 ∧ d1 !! k2 = Some v.
Proof.
  unfold lookup2. destruct (d !! k1) as [d1|]; simpl; [|naive_solver].
  split; [eauto|]. by intros (? & [= <-] & ?).
Qed.

Variable nfa : NFA.t.

Lemma dsts_subseteq_all_nodes n c dsts :
  lookup2 (NFA.transitions nfa) n c = Some dsts → dsts ⊆ NFA.all_nodes nfa.
Proof.
  intros (d & Hn & Hc)%lookup2_Some m Hm.
  unfold NFA.all_nodes, NFA.all_dst_nodes. apply elem_of_union. right.
  apply elem_of_union_list. exists (NFA.dst_nodes nfa n). split.
  - apply list_elem_of_fmap. exists n. split; [done|].
    apply elem_of_elements, elem_of_dom. by eexists.
  - unfold NFA.dst_nodes. rewrite Hn. apply elem_of_union_list.
    exists dsts. split; [|done].
    apply list_elem_of_fmap. exists (c, dsts). split; [done|].
    by apply elem_of_map_to_list.
Qed.

(** The invariant of the loop of [advance_empties] started on [state]. *)
Definition closing (state remaining expanded : gset nat) : Prop :=
  state ⊆ remaining ∪ expanded ∧
  (∀ m, m ∈ remaining ∪ expanded → eps_closure nfa state m) ∧
  (∀ n m, n ∈ expanded → eps_step nfa n m → m ∈ remaining ∪ expanded) ∧
  remaining ## expanded ∧
  remaining ∪ expanded ⊆ state ∪ NFA.all_nodes nfa.

Lemma closing_step state remaining expanded node :
  closing state remaining expanded → node ∈ remaining →
  closing state
    (match lookup2 (NFA.transitions nfa) node empty_symbol with
     | None => remaining ∖ {[node]}
     | Some dst_nodes => remaining ∖ {[node]} ∪ dst_nodes ∖ ({[node]} ∪ expanded)
     end)
    ({[node]} ∪ expanded).
Proof.
  intros (Hstate & Hsound & Hclosed & Hdisj & Hbound) Hnode.
  destruct (lookup2 (NFA.transitions nfa) node empty_symbol) as [dsts|] eqn:Hdsts.
  - pose proof (dsts_subseteq_all_nodes _ _ _ Hdsts) as Hsub.
    repeat split.
    + intros x Hx. apply Hstate in Hx.
      destruct (decide (x = node)); set_solver.
    + intros m Hm.
      destruct (decide (m ∈ remaining ∪ expanded)) as [|Hnew]; [by apply Hsound|].
      assert (m ∈ dsts) as Hmd by set_solver.
      destruct (Hsound node) as (n & Hn & Hreach); [set_solver|].
      exists n. split; [done|]. eapply rtc_r; [done|]. by exists dsts.
    + intros n m [->%elem_of_singleton|Hn]%elem_of_union Hstep.
      * destruct Hstep as (dsts' & Hl & Hm). rewrite Hdsts in Hl. injection Hl as <-.
        destruct (decide (m ∈ {[node]} ∪ expanded)); set_solver.
      * specialize (Hclosed n m Hn Hstep).
        destruct (decide (m = node)); set_solver.
    + set_solver.
    + set_solver.
  - repeat split.
    + intros x Hx. apply Hstate in Hx. destruct (decide (x = node)); set_solver.
    + intros m Hm. apply Hsound. set_solver.
    + intros n m [->%elem_of_singleton|Hn]%elem_of_union Hstep.
      * destruct Hstep as (dsts' & Hl & Hm). by rewrite Hdsts in Hl.
      * specialize (Hclosed n m Hn Hstep).
        destruct (decide (m = node)); set_solver.
    + set_solver.
    + set_solver.
Qed.

Lemma advance_empties_loop_closed state fuel remaining expanded :
  closing state remaining expanded →
  size ((state ∪ NFA.all_nodes nfa) ∖ expanded) < fuel →
  closing state ∅ (NFA.advance_empties_loop nfa fuel remaining expanded).
Proof.
  revert remaining expanded.
  induction fuel as [|fuel IH]; intros remaining expanded Hinv Hfuel; [lia|].
  simpl. destruct (pop remaining) as [node|] eqn:Hpop.
  - apply pop_Some in Hpop.
    pose proof (closing_step _ _ _ _ Hinv Hpop) as Hinv'.
    destruct Hinv as (_ & _ & _ & Hdisj & Hbound).
    assert (size ((state ∪ NFA.all_nodes nfa) ∖ ({[node]} ∪ expanded)) < fuel) as Hfuel'.
    { assert (node ∈ (state ∪ NFA.all_nodes nfa) ∖ expanded) as Hin by set_solver.
      assert ((state ∪ NFA.all_nodes nfa) ∖ ({[node]} ∪ expanded)
              ⊂ (state ∪ NFA.all_nodes nfa) ∖ expanded) as Hlt by set_solver.
      apply subset_size in Hlt. lia. }
    destruct (lookup2 (NFA.transitions nfa) node empty_symbol); by apply IH.
  - apply pop_None in Hpop. by subst.
Qed.

(** [advance_empties] computes the ε-closure. *)
Lemma elem_of_advance_empties state m :
  m ∈ NFA.advance_empties nfa state ↔ eps_closure nfa state m.
Proof.
  unfold NFA.advance_empties.
  destruct (advance_empties_loop_closed state
              (S (size (state ∪ NFA.all_nodes nfa))) state ∅)
    as (Hstate & Hsound & Hclosed & _ & _).
  { repeat split; set_solver. }
  { apply Nat.lt_succ_r, subseteq_size. set_solver. }
  split.
  - intros Hm. apply Hsound. set_solver.
  - intros (n & Hn & Hreach).
    assert (n ∈ NFA.advance_empties_loop nfa
                  (S (size (state ∪ NFA.all_nodes nfa))) state ∅) as Hn' by set_solver.
    clear Hn. induction Hreach as [|n k m Hstep _ IH]; [done|].
    apply IH. specialize (Hclosed n k Hn' Hstep). set_solver.
Qed.

Lemma advance_empties_empty : NFA.advance_empties nfa ∅ = ∅.
Proof.
  apply set_eq. intros m. rewrite elem_of_advance_empties.
  split; [|set_solver]. intros (n & Hn & _). set_solver.
Qed.

Lemma advance_empties_extensive state : state ⊆ NFA.advance_empties nfa state.
Proof. intros n Hn. apply elem_of_advance_empties. by exists n. Qed.

(** [advance] computes the ε-closure of the byte successors. *)
Lemma elem_of_advance state byte m :
  m ∈ NFA.advance nfa state byte ↔
  ∃ k, byte_step nfa state byte k ∧ rtc (eps_step nfa) k m.
Proof.
  unfold NFA.advance. rewrite elem_of_advance_empties. unfold eps_closure.
  assert (∀ k, k ∈ ⋃ ((λ node, default ∅ (lookup2 (NFA.transitions nfa) node byte))
                        <$> visit state) ↔ byte_step nfa state byte k) as Hstep.
  { intros k. rewrite elem_of_union_list. split.
    - intros (X & (n & -> & Hn%elem_of_visit)%list_elem_of_fmap & Hk).
      destruct (lookup2 (NFA.transitions nfa) n byte) as [dsts|] eqn:Hd; [|set_solver].
      by exists n, dsts.
    - intros (n & dsts & Hn & Hd & Hk). exists dsts. split; [|done].
      apply list_elem_of_fmap. exists n. rewrite Hd. split; [done|].
      by apply elem_of_visit. }
  split; intros (k & Hk & Hreach); exists k; split; try done; by apply Hstep.
Qed.

Lemma advance_empty byte : NFA.advance nfa ∅ byte = ∅.
Proof.
  apply set_eq. intros m. rewrite elem_of_advance.
  split; [|set_solver]. intros (k & (n & _ & Hn & _) & _). set_solver.
Qed.


Lemma elem_of_names_of state name :
  name ∈ NFA.names_of nfa state ↔
  ∃ n, n ∈ state ∧ NFA.matchNodeNames nfa !! n = Some name.
Proof.
  unfold NFA.names_of. rewrite elem_of_list_to_set, list_elem_of_omap.
  by setoid_rewrite elem_of_elements.
Qed.


End nfa_facts.

Section gen_facts.
Context `{SetOrder}.
Variable nfa : NFA.t.

Lemma lookup2_set_edge n c m (t : gmap nat (gmap Z nat)) n' c' :
  lookup2 (set_edge n c m t) n' c' =
  if decide (n' = n ∧ c' = c) then Some m else lookup2 t n' c'.
Proof.
  unfold lookup2, set_edge. destruct (decide (n' = n)) as [->|Hn].
  - rewrite lookup_insert_eq. simpl. destruct (decide (c' = c)) as [->|Hc].
    + rewrite lookup_insert_eq. by rewrite decide_True.
    + rewrite lookup_insert_ne by done. rewrite decide_False by naive_solver.
      destruct (t !! n); simpl; [done | apply lookup_empty].
  - rewrite lookup_insert_ne by done. rewrite decide_False by naive_solver. done.
Qed.

Lemma dom_set_edge n c m (t : gmap nat (gmap Z nat)) :
  dom (set_edge n c m t) = {[n]} ∪ dom t.
Proof. unfold set_edge. apply dom_insert_L. Qed.

Lemma lookup2_touch n (t : gmap nat (gmap Z nat)) n' c :
  lookup2 (touch n t) n' c = lookup2 t n' c.
Proof.
  unfold lookup2, touch. destruct (t !! n) eqn:Hn; [done|].
  destruct (decide (n' = n)) as [->|].
  - rewrite lookup_insert_eq, Hn. simpl. apply lookup_empty.
  - by rewrite lookup_insert_ne.
Qed.

Lemma dom_touch n (t : gmap nat (gmap Z nat)) : dom (touch n t) = {[n]} ∪ dom t.
Proof.
  unfold touch. destruct (t !! n) eqn:Hn.
  - apply elem_of_dom_2 in Hn. set_solver.
  - apply dom_insert_L.
Qed.

(** The edges of a DFA node, read through [lookup2]. *)
Lemma edges_ok_lookup2 (t : gmap nat (gmap Z nat)) table state n chars :
  n ∈ dom t →
  (∀ d, t !! n = Some d → edges_ok nfa table state d chars) ↔
  (∀ c,
    (∀ m, lookup2 t n c = Some m →
       c ∈ chars ∧ NFA.advance nfa state c ≠ ∅ ∧
       table !! NFA.advance nfa state c = Some m) ∧
    (c ∈ chars → NFA.advance nfa state c ≠ ∅ → is_Some (lookup2 t n c))).
Proof.
  intros [d Hd]%elem_of_dom. unfold lookup2. rewrite Hd. simpl. split.
  - intros Hok. by apply Hok.
  - intros Hok d' [= <-]. exact Hok.
Qed.

Lemma node_for_spec st state st' n :
  node_for st state = (st', n) →
  (∀ s k, nfa_states_to_dfa_nodes st !! s = Some k → k < indexer st) →
  nfa_states_to_dfa_nodes st' !! state = Some n ∧
  nfa_states_to_dfa_nodes st ⊆ nfa_states_to_dfa_nodes st' ∧
  transitions st' = transitions st ∧ remaining st' = remaining st ∧
  indexer st ≤ indexer st' ∧
  (∀ s k, nfa_states_to_dfa_nodes st' !! s = Some k →
     k < indexer st' ∧
     (nfa_states_to_dfa_nodes st !! s = Some k ∨
      s = state ∧ k = n ∧ n = indexer st ∧ nfa_states_to_dfa_nodes st !! state = None)).
Proof.
  unfold node_for. intros Hnode Hbound.
  destruct (nfa_states_to_dfa_nodes st !! state) as [k|] eqn:Hk.
  - injection Hnode as <- <-. split_and!; try done. naive_solver.
  - injection Hnode as <- <-. simpl. split_and!; try done.
    + apply lookup_insert_eq.
    + by apply insert_subseteq.
    + lia.
    + intros s k [[<- <-]|[_ Hs]]%lookup_insert_Some.
      * split; [lia | by right].
      * split; [apply Hbound in Hs; lia | by left].
Qed.

Lemma edges_ok_weaken table table' state d chars :
  table ⊆ table' → edges_ok nfa table state d chars →
  edges_ok nfa table' state d chars.
Proof.
  intros Hsub Hok c. destruct (Hok c) as [Hsome Hhas]. split; [|done].
  intros m Hm. destruct (Hsome m Hm) as (? & ? & Hlook).
  split_and!; try done. by eapply lookup_weaken.
Qed.

(** Adding the edge of [cur] on [c] keeps the invariant. *)
Lemma gen_char_inv cur n chars st c :
  gen_inv nfa cur chars st →
  nfa_states_to_dfa_nodes st !! cur = Some n →
  n ∈ dom (transitions st) →
  c ∈ NFA.alphabet nfa →
  gen_inv nfa cur ({[c]} ∪ chars) (gen_char nfa cur n st c) ∧
  nfa_states_to_dfa_nodes (gen_char nfa cur n st c) !! cur = Some n ∧
  n ∈ dom (transitions (gen_char nfa cur n st c)).
Proof.
  intros Hinv Hcur Hn Hc. unfold gen_char.
  destruct (decide (NFA.advance nfa cur c = ∅)) as [Hempty|Hne].
  - split_and!; try done. destruct Hinv. constructor; try done.
    intros state k d Hstate Hd. specialize (inv_edges0 state k d Hstate Hd).
    destruct (decide (state = cur)) as [->|]; [|done].
    intros c'. destruct (inv_edges0 c') as [Hsome Hhas]. split.
    + intros m Hm. destruct (Hsome m Hm) as (? & ? & ?). split_and!; try done.
      set_solver.
    + intros [->%elem_of_singleton|Hin]%elem_of_union Hadv; [done | by apply Hhas].
  - destruct (node_for st (NFA.advance nfa cur c)) as [st1 m] eqn:Hnode.
    apply node_for_spec in Hnode
      as (Hm & Hsub & HT & HR & Hidx & Hnew); [|by destruct Hinv].
    simpl. rewrite HT, HR.
    assert (nfa_states_to_dfa_nodes st1 !! cur = Some n) as Hcur1
      by by eapply lookup_weaken.
    assert (∀ k, k ∈ dom (transitions st) →
                 ∀ s, nfa_states_to_dfa_nodes st1 !! s = Some k →
                      nfa_states_to_dfa_nodes st !! s = Some k) as Hold.
    { intros k Hk s Hs. destruct (Hnew s k Hs) as [_ [?|(-> & -> & -> & _)]]; [done|].
      destruct Hinv. apply inv_dom0 in Hk as [s' Hs'].
      apply inv_bound0 in Hs'. lia. }
    assert (∀ s s' k, nfa_states_to_dfa_nodes st1 !! s = Some k →
              nfa_states_to_dfa_nodes st1 !! s' = Some k → s = s') as Hinj1.
    { intros s s' k Hs Hs'. destruct Hinv.
      destruct (Hnew s k Hs) as [_ [Hs0|(Hse & Hk & Hi & _)]];
        destruct (Hnew s' k Hs') as [_ [Hs0'|(Hse' & Hk' & Hi' & _)]].
      - by eapply inv_inj0.
      - apply inv_bound0 in Hs0. lia.
      - apply inv_bound0 in Hs0'. lia.
      - congruence. }
    split_and!; [|done|rewrite dom_set_edge; set_solver].
    destruct Hinv. constructor; simpl.
    + intros s k Hs. by apply Hnew in Hs as [? _].
    + exact Hinj1.
    + by eapply lookup_weaken.
    + by eapply lookup_weaken.
    + intros k. rewrite dom_set_edge. intros [->%elem_of_singleton|Hk]%elem_of_union.
      * by exists cur.
      * apply inv_dom0 in Hk as [s Hs]. exists s. by eapply lookup_weaken.
    + intros s k d Hs Hd. unfold set_edge in Hd.
      destruct (decide (k = n)) as [->|Hkn].
      * assert (s = cur) as -> by by eapply Hinj1.
        rewrite decide_True by done. rewrite lookup_insert_eq in Hd.
        injection Hd as <-. apply elem_of_dom in Hn as [d0 Hd0]. rewrite Hd0. simpl.
        pose proof (inv_edges0 cur n d0 Hcur Hd0) as Hok.
        rewrite decide_True in Hok by done.
        intros c'. destruct (Hok c') as [Hsome Hhas]. split.
        -- intros m' [[<- <-]|[Hne' Hm']]%lookup_insert_Some.
           ++ split_and!; [set_solver|done..].
           ++ destruct (Hsome m' Hm') as (? & ? & ?). split_and!; [set_solver|done|].
              by eapply lookup_weaken.
        -- intros Hin Hadv. destruct (decide (c' = c)) as [->|Hne'].
           ++ rewrite lookup_insert_eq. by eexists.
           ++ rewrite lookup_insert_ne by done. apply Hhas; [set_solver|done].
      * rewrite lookup_insert_ne in Hd by done.
        assert (s ≠ cur) as Hscur.
        { intros ->. rewrite Hcur1 in Hs. by injection Hs as ->. }
        rewrite decide_False by done.
        eapply edges_ok_weaken; [exact Hsub|].
        assert (nfa_states_to_dfa_nodes st !! s = Some k) as Hs0.
        { apply Hold; [|done]. apply elem_of_dom. by eexists. }
        specialize (inv_edges0 s k d Hs0 Hd). by rewrite decide_False in inv_edges0.
    + intros k c' m'. rewrite lookup2_set_edge, dom_set_edge.
      case_decide as Hkc.
      * intros [= <-]. destruct Hkc as [-> ->].
        case_decide as Hdom.
        -- by left.
        -- right. exists (NFA.advance nfa cur c). split; [done | set_solver].
      * intros Hedge. destruct (inv_targets0 k c' m' Hedge) as [?|(s & Hs & HsR)].
        -- left. set_solver.
        -- right. exists s. split; [by eapply lookup_weaken|].
           case_decide; set_solver.
    + intros s. rewrite dom_set_edge.
      assert (∀ s, s ∈ remaining st →
                ∃ k, nfa_states_to_dfa_nodes st1 !! s = Some k ∧
                     k ∉ {[n]} ∪ dom (transitions st)) as HoldR.
      { intros s' (k & Hs' & Hk)%inv_remaining0. exists k.
        split; [by eapply lookup_weaken | set_solver]. }
      case_decide as Hdom; [apply HoldR|].
      intros [->%elem_of_singleton|HsR]%elem_of_union; [|by apply HoldR].
      by exists m.
    + rewrite dom_set_edge. destruct inv_start_seen0; [left; set_solver|].
      right. case_decide; set_solver.
Qed.

Lemma gen_chars_inv cur n cs : ∀ chars st,
  gen_inv nfa cur chars st →
  nfa_states_to_dfa_nodes st !! cur = Some n →
  n ∈ dom (transitions st) →
  (∀ c, c ∈ cs → c ∈ NFA.alphabet nfa) →
  gen_inv nfa cur (list_to_set cs ∪ chars) (foldl (gen_char nfa cur n) st cs).
Proof.
  induction cs as [|c cs IH]; intros chars st Hinv Hcur Hn Hcs; simpl.
  - by rewrite union_empty_l_L.
  - destruct (gen_char_inv cur n chars st c) as (Hinv' & Hcur' & Hn');
      [done..|apply Hcs; by left|].
    replace ({[c]} ∪ list_to_set cs ∪ chars)
      with (list_to_set cs ∪ ({[c]} ∪ chars)) by set_solver.
    apply IH; try done. intros c' Hc'. apply Hcs. by right.
Qed.

(** Once all edges of [cur] are there, the invariant no longer depends on
    [cur]. *)
Lemma gen_inv_done cur cur' st :
  gen_inv nfa cur (NFA.alphabet nfa) st → gen_inv nfa cur' (NFA.alphabet nfa) st.
Proof.
  intros []. constructor; try done.
  intros state n d Hstate Hd. specialize (inv_edges0 state n d Hstate Hd).
  by repeat case_decide.
Qed.

(** Popping a state and creating the dictionary of its node keeps the
    invariant, with no edge of the state added yet. *)
Lemma gen_pop_inv cur st state n :
  gen_inv nfa cur (NFA.alphabet nfa) st → state ∈ remaining st →
  nfa_states_to_dfa_nodes st !! state = Some n →
  n ∉ dom (transitions st) ∧
  gen_inv nfa state ∅
    {| indexer := indexer st;
       nfa_states_to_dfa_nodes := nfa_states_to_dfa_nodes st;
       transitions := touch n (transitions st);
       remaining := remaining st ∖ {[state]} |}.
Proof.
  intros Hinv Hstate Hn.
  destruct (inv_remaining _ _ _ _ Hinv state Hstate) as (n' & Hn' & Hfresh).
  assert (n' = n) as -> by congruence. split; [done|].
  destruct Hinv as [Hbound Hinj Hstart Hinvalid Hdom Hedges Htargets Hrem Hseen].
  constructor; simpl; try done.
  - intros k. rewrite dom_touch. intros [->%elem_of_singleton|Hk]%elem_of_union.
    + by exists state.
    + by apply Hdom.
  - intros s k d Hs Hd. case_decide as Hcur; subst.
    + rewrite Hn in Hs. injection Hs as <-. unfold touch in Hd.
      apply not_elem_of_dom in Hfresh. rewrite Hfresh, lookup_insert_eq in Hd.
      injection Hd as <-. intros c. split; [|set_solver].
      intros m. by rewrite lookup_empty.
    + assert (k ≠ n) as Hkn.
      { intros ->. apply Hcur. by eapply Hinj. }
      unfold touch in Hd. apply not_elem_of_dom in Hfresh.
      rewrite Hfresh, lookup_insert_ne in Hd by done.
      specialize (Hedges s k d Hs Hd). by repeat case_decide.
  - intros k c m. rewrite lookup2_touch, dom_touch. intros Hedge.
    destruct (Htargets k c m Hedge) as [?|(s & Hs & HsR)]; [left; set_solver|].
    destruct (decide (s = state)) as [->|].
    + left. rewrite Hn in Hs. injection Hs as <-. set_solver.
    + right. exists s. split; [done | set_solver].
  - intros s [HsR Hne%not_elem_of_singleton]%elem_of_difference.
    destruct (Hrem s HsR) as (k & Hs & Hk). exists k. split; [done|].
    rewrite dom_touch. apply not_elem_of_union. split; [|done].
    intros ->%elem_of_singleton. apply Hne. by eapply Hinj.
  - rewrite dom_touch. destruct Hseen as [?|HR]; [left; set_solver|].
    destruct (decide (NFA.advance_empties nfa {[0]} = state)) as [Heq|].
    + left. rewrite Heq, Hn in Hstart. injection Hstart as ->. set_solver.
    + right. set_solver.
Qed.

(** One iteration of the worklist loop keeps the invariant. *)
Lemma gen_step_inv cur st state :
  gen_inv nfa cur (NFA.alphabet nfa) st → state ∈ remaining st →
  gen_inv nfa cur (NFA.alphabet nfa) (gen_step nfa (NFA.alphabet nfa) st state).
Proof.
  intros Hinv Hstate. apply (gen_inv_done state). unfold gen_step.
  destruct (inv_remaining _ _ _ _ Hinv state Hstate) as (n & Hn & _).
  destruct (gen_pop_inv cur st state n) as [Hfresh Hinv1]; [done..|].
  unfold node_for. simpl. rewrite Hn.
  replace (NFA.alphabet nfa)
    with (list_to_set (visit (NFA.alphabet nfa)) ∪ (∅ : gset Z)) at 1.
  2:{ apply set_eq. intros c. rewrite elem_of_union, elem_of_list_to_set, elem_of_visit.
      set_solver. }
  apply gen_chars_inv; simpl; try done.
  - rewrite dom_touch. set_solver.
  - intros c. by rewrite elem_of_visit.
Qed.

Lemma gen_loop_inv cur fuel : ∀ st st',
  gen_inv nfa cur (NFA.alphabet nfa) st →
  gen_loop nfa (NFA.alphabet nfa) fuel st = Some st' →
  gen_inv nfa cur (NFA.alphabet nfa) st' ∧ remaining st' = ∅.
Proof.
  induction fuel as [|fuel IH]; intros st st' Hinv Hloop; [done|].
  simpl in Hloop. destruct (pop (remaining st)) as [state|] eqn:Hpop.
  - apply pop_Some in Hpop. eapply IH; [|done]. by apply gen_step_inv.
  - apply pop_None in Hpop. by injection Hloop as <-.
Qed.


Lemma start_not_invalid : NFA.advance_empties nfa {[0]} ≠ {[1]}.
Proof.
  intros Heq. assert (0 ∈ NFA.advance_empties nfa {[0]}) as H0.
  { apply advance_empties_extensive. set_solver. }
  rewrite Heq in H0. set_solver.
Qed.

Lemma gen_start_inv : gen_inv nfa ∅ (NFA.alphabet nfa) (gen_start nfa).
Proof.
  pose proof start_not_invalid as Hne.
  constructor; simpl.
  - intros s n [[<- <-]|[_ [<- <-]%lookup_singleton_Some]]%lookup_insert_Some; lia.
  - intros s s' n [[<- <-]|[_ [<- <-]%lookup_singleton_Some]]%lookup_insert_Some
                  [[<- ?]|[_ [<- ?]%lookup_singleton_Some]]%lookup_insert_Some;
      done.
  - rewrite lookup_insert_ne by done. apply lookup_singleton_eq.
  - apply lookup_insert_eq.
  - intros n. set_solver.
  - intros s n d _. by rewrite lookup_empty.
  - intros n c m. unfold lookup2. by rewrite lookup_empty.
  - intros s ->%elem_of_singleton. exists 0. split; [|set_solver].
    rewrite lookup_insert_ne by done. apply lookup_singleton_eq.
  - right. set_solver.
Qed.

Lemma gen_dfa_bounded_unfold fuel :
  gen_dfa_bounded fuel nfa =
  match gen_loop nfa (NFA.alphabet nfa) fuel (gen_start nfa) with
  | None => Timeout_
  | Some st =>
    if decide (1 ∈ dom (transitions st)) then Err AssertionError
    else Ok (DFA.mk (add_invalid 0 1 (transitions st))
                    (gen_names nfa (nfa_states_to_dfa_nodes st))
                    (NFA.literalRules nfa))
  end.
Proof.
  unfold gen_dfa_bounded, node_for. simpl. rewrite lookup_empty. simpl.
  rewrite lookup_insert_ne by apply start_not_invalid.
  rewrite lookup_empty. simpl.
  by rewrite insert_empty.
Qed.

(** What a successful run of [gen_dfa] leaves behind. *)
Lemma gen_dfa_bounded_Ok fuel dfa :
  gen_dfa_bounded fuel nfa = Ok dfa →
  ∃ st, gen_inv nfa ∅ (NFA.alphabet nfa) st ∧ remaining st = ∅ ∧
        1 ∉ dom (transitions st) ∧ 0 ∈ dom (transitions st) ∧
        dfa = DFA.mk (add_invalid 0 1 (transitions st))
                     (gen_names nfa (nfa_states_to_dfa_nodes st))
                     (NFA.literalRules nfa).
Proof.
  rewrite gen_dfa_bounded_unfold.
  destruct (gen_loop _ _ _ _) as [st|] eqn:Hloop; [|done].
  case_decide as Hinvalid; [done|]. intros [= <-].
  apply gen_loop_inv with (cur := ∅) in Hloop as [Hinv HR]; [|apply gen_start_inv].
  exists st. split_and!; try done.
  destruct (inv_start_seen _ _ _ _ Hinv) as [?|Hin]; [done|].
  rewrite HR in Hin. set_solver.
Qed.






(** The names [gen_names] gives to a node are those of its NFA state. *)
Lemma add_names_lookup dfa_node nodes : ∀ (acc : gmap nat (gset string)) k,
  foldl (add_name nfa dfa_node) acc nodes !! k =
  if decide (k = dfa_node ∧ omap (NFA.matchNodeNames nfa !!.) nodes ≠ [])
  then Some (list_to_set (omap (NFA.matchNodeNames nfa !!.) nodes)
             ∪ default ∅ (acc !! k))
  else acc !! k.
Proof.
  induction nodes as [|x nodes IH]; intros acc k; simpl.
  - by rewrite decide_False by naive_solver.
  - rewrite IH. unfold add_name.
    destruct (NFA.matchNodeNames nfa !! x) as [name|] eqn:Hname; simpl; [|done].
    change (list_omap nat string ?f ?l) with (omap f l).
    destruct (decide (k = dfa_node)) as [->|Hk].
    + rewrite lookup_insert_eq. simpl.
      change (list_omap nat string ?f ?l) with (omap f l).
      rewrite (decide_True (P := _ ∧ _ :: _ ≠ _)) by done.
      destruct (omap (NFA.matchNodeNames nfa !!.) nodes) as [|y names].
      * rewrite decide_False by naive_solver. f_equal. set_solver.
      * rewrite decide_True by done. f_equal. set_solver.
    + rewrite lookup_insert_ne by done. by rewrite !decide_False by naive_solver.
Qed.

Lemma gen_names_fold l : ∀ (acc : gmap nat (gset string)),
  NoDup l.*2 →
  (∀ k, k ∈ l.*2 → acc !! k = None) →
  ∀ k,
    foldl (λ node_names '(nfa_state, dfa_node),
             foldl (add_name nfa dfa_node) node_names (visit nfa_state)) acc l !! k =
    match list_find (λ p, p.2 = k) l with
    | Some (_, (state, _)) =>
      if decide (NFA.names_of nfa state = ∅) then None
      else Some (NFA.names_of nfa state)
    | None => acc !! k
    end.
Proof.
  induction l as [|[state n] l IH]; intros acc Hdup Hfresh k; simpl; [done|].
  apply NoDup_cons in Hdup as [Hn Hdup].
  assert (list_to_set (omap (NFA.matchNodeNames nfa !!.) (visit state))
          = NFA.names_of nfa state) as Hnames.
  { unfold NFA.names_of. apply set_eq. intros name.
    rewrite !elem_of_list_to_set, !list_elem_of_omap.
    by setoid_rewrite elem_of_visit; setoid_rewrite elem_of_elements. }
  rewrite IH; [|done|].
  2:{ intros k' Hk'. rewrite add_names_lookup, decide_False.
      - apply Hfresh. by right.
      - intros [-> _]. done. }
  case_decide as Hk; simpl in Hk.
  - subst k. simpl.
    destruct (list_find (λ p, p.2 = n) l) as [[i [s' n']]|] eqn:Hfind.
    { apply list_find_Some in Hfind as (Hi & Hn' & _). simpl in Hn'. subst n'.
      exfalso. apply Hn. apply list_elem_of_fmap. exists (s', n). split; [done|].
      by eapply list_elem_of_lookup_2. }
    simpl. rewrite add_names_lookup, Hfresh by by left. rewrite Hnames. simpl.
    case_decide as Hne.
    + rewrite decide_False; [f_equal; set_solver|].
      destruct Hne as [_ Hne]. rewrite <- Hnames. intros Hempty. apply Hne.
      destruct (omap _ (visit state)); [done|]. set_solver.
    + rewrite decide_True; [done|]. rewrite <- Hnames.
      destruct (omap _ (visit state)); [done|]. exfalso. by apply Hne.
  - destruct (list_find (λ p, p.2 = k) l) as [[i [s' n']]|]; simpl; [done|].
    rewrite add_names_lookup, decide_False; [done|]. naive_solver.
Qed.

Lemma gen_names_lookup (table : gmap (gset nat) nat) state n :
  (∀ s s' k, table !! s = Some k → table !! s' = Some k → s = s') →
  table !! state = Some n →
  gen_names nfa table !! n =
  if decide (NFA.names_of nfa state = ∅) then None else Some (NFA.names_of nfa state).
Proof.
  intros Hinj Hstate. unfold gen_names. rewrite gen_names_fold.
  - destruct (list_find (λ p, p.2 = n) (map_to_list table)) as [[i [s' n']]|] eqn:Hfind.
    + apply list_find_Some in Hfind as (Hi & Hn' & _). simpl in Hn'. subst n'.
      apply list_elem_of_lookup_2, elem_of_map_to_list in Hi.
      by rewrite (Hinj _ _ _ Hstate Hi).
    + apply list_find_None in Hfind. exfalso.
      rewrite Forall_forall in Hfind. apply (Hfind (state, n)); [|done].
      by apply elem_of_map_to_list.
  - apply NoDup_fmap_2_strong; [|apply NoDup_map_to_list].
    intros [s k] [s' k'] Hs%elem_of_map_to_list Hs'%elem_of_map_to_list Hk.
    simpl in Hk. subst k'. f_equal. by eapply Hinj.
  - intros k _. apply lookup_empty.
Qed.







End gen_facts.

Section min_facts.
Context `{SetOrder} {A : Type}.
Variable dfa : DFA.t A.

Lemma result_bind_Ok {B C} (f : B → result C) (r : result B) c :
  r ≫= f = Ok c ↔ ∃ b, r = Ok b ∧ f b = Ok c.
Proof. destruct r; simpl; unfold mbind, result_mbind; simpl; naive_solver. Qed.

Lemma getitem_Ok `{Countable K} {V} (d : gmap K V) k v :
  getitem d k = Ok v ↔ d !! k = Some v.
Proof. unfold getitem. destruct (d !! k); naive_solver. Qed.

Lemma add_to_fst groups id_s node :
  (add_to groups id_s node).*1 = groups.*1 ∨
  (id_s ∉ groups.*1 ∧ (add_to groups id_s node).*1 = groups.*1 ++ [id_s]).
Proof.
  induction groups as [|[i g] groups IH]; [right; split; [set_solver|done]|].
  simpl add_to. case_decide as Hi; rewrite !fmap_cons; simpl fst; [by left|].
  destruct IH as [->|[Hfresh ->]]; [by left|]. right. split; [set_solver|done].
Qed.

Lemma elem_of_add_to groups id_s node i g :
  (i, g) ∈ add_to groups id_s node →
  (i, g) ∈ groups ∨
  i = id_s ∧ (g = {[node]} ∨ ∃ g0, (i, g0) ∈ groups ∧ g = {[node]} ∪ g0).
Proof.
  induction groups as [|[j g'] groups IH]; simpl.
  - intros [= -> ->]%list_elem_of_singleton. right. by split; [|left].
  - case_decide as Hj.
    + intros [[= -> ->]|Hin]%elem_of_cons.
      * right. split; [done|]. right. exists g'. split; [by left|done].
      * left. by right.
    + intros [[= -> ->]|Hin]%elem_of_cons; [left; by left|].
      destruct (IH Hin) as [?|(-> & [->|(g0 & Hg0 & ->)])].
      * left. by right.
      * right. by split; [|left].
      * right. split; [done|]. right. exists g0. split; [by right|done].
Qed.

Lemma add_to_ok part groups id_s node :
  groups_ok part groups → part !! node = Some id_s →
  groups_ok part (add_to groups id_s node).
Proof.
  intros [Hdup Hgroups] Hnode. split.
  - destruct (add_to_fst groups id_s node) as [->|[Hfresh ->]]; [done|].
    apply NoDup_app. split_and!; [done| |apply NoDup_singleton]. set_solver.
  - intros i g [Hin|(-> & [->|(g0 & Hg0 & ->)])]%elem_of_add_to.
    + by apply Hgroups.
    + split; [set_solver|]. by intros x ->%elem_of_singleton.
    + split; [set_solver|].
      intros x [->%elem_of_singleton|Hx]%elem_of_union; [done|].
      by apply (Hgroups _ _ Hg0).
Qed.

Lemma intersections_ok st refining_set groups :
  intersections st refining_set = Ok groups → groups_ok (partition st) groups.
Proof.
  unfold intersections. generalize (visit refining_set). intros nodes.
  assert (groups_ok (partition st) []) as Hnil.
  { split; [constructor|]. intros i g Hin. by apply elem_of_nil in Hin. }
  revert Hnil groups. generalize (@nil (nat * gset nat)).
  induction nodes as [|node nodes IH]; intros acc Hacc groups; simpl.
  - by intros [= <-].
  - destruct (getitem (partition st) node) as [id_s| |] eqn:Hget; simpl.
    + apply getitem_Ok in Hget. apply IH. by apply add_to_ok.
    + clear. induction nodes as [|x nodes IHn]; simpl; [done|exact IHn].
    + clear. induction nodes as [|x nodes IHn]; simpl; [done|exact IHn].
Qed.

Lemma foldl_insert_lookup (xs : list nat) (v : nat) : ∀ (part : gmap nat nat) x,
  foldl (λ part x, <[x := v]> part) part xs !! x =
  if decide (x ∈ xs) then Some v else part !! x.
Proof.
  induction xs as [|y xs IH]; intros part x; cbn [foldl].
  - by rewrite decide_False by set_solver.
  - rewrite IH. destruct (decide (x = y)) as [->|Hne].
    + rewrite lookup_insert_eq. repeat case_decide; set_solver.
    + rewrite lookup_insert_ne by done. repeat case_decide; set_solver.
Qed.

(** Splitting one class keeps the invariant, and the groups still to be
    handled stay groups of their classes. *)
Lemma split_inv st set_pairs id_s intersection rest st' set_pairs' :
  min_inv dfa st →
  groups_ok (partition st) ((id_s, intersection) :: rest) →
  split (Ok (st, set_pairs)) (id_s, intersection) = Ok (st', set_pairs') →
  min_inv dfa st' ∧ groups_ok (partition st') rest.
Proof.
  intros Hinv [Hdup Hgroups] Hsplit.
  apply NoDup_cons in Hdup as [Hfresh Hdup].
  assert (groups_ok (partition st) rest) as Hrest.
  { split; [done|]. intros i g Hin. apply Hgroups. by right. }
  destruct (Hgroups id_s intersection) as [Hne Hin]; [by left|].
  unfold split in Hsplit. simpl in Hsplit.
  destruct (getitem (sets st) id_s) as [s| |] eqn:Hs; simpl in Hsplit; try done.
  apply getitem_Ok in Hs.
  case_decide as Heq; [by injection Hsplit as <- <-|].
  injection Hsplit as <- <-.
  assert (intersection ⊆ s) as Hsub.
  { intros x Hx. apply Hin in Hx.
    destruct (inv_class _ _ Hinv x id_s Hx) as (s' & Hs' & Hxs). congruence. }
  assert (id_s ≠ next_id st) as Hnew.
  { assert (id_s < next_id st); [|lia]. eapply inv_ids; [done|]. by apply elem_of_dom. }
  assert (∀ x, (foldl (λ part x, <[x := next_id st]> part) (partition st)
                     (visit intersection)) !! x
               = if decide (x ∈ intersection) then Some (next_id st)
                 else partition st !! x) as Hpart.
  { intros x. rewrite foldl_insert_lookup. repeat case_decide; try done.
    - by rewrite elem_of_visit in *.
    - by rewrite elem_of_visit in *. }
  split.
  - constructor; simpl.
    + intros x i. rewrite Hpart. case_decide as Hx.
      * intros [= <-]. exists intersection. split; [|done].
        rewrite lookup_insert_ne by done. apply lookup_insert_eq.
      * intros Hxi. destruct (inv_class _ _ Hinv x i Hxi) as (s' & Hs' & Hxs).
        destruct (decide (i = id_s)) as [->|Hi].
        -- rewrite lookup_insert_eq. exists (s ∖ intersection). split; [done|].
           rewrite Hs in Hs'. injection Hs' as <-. set_solver.
        -- exists s'. split; [|done]. rewrite !lookup_insert_ne; try done.
           intros <-. assert (next_id st < next_id st); [|lia].
           eapply inv_ids; [done|]. by apply elem_of_dom.
    + intros i s' x. rewrite Hpart.
      intros [[<- <-]|[Hi [[<- <-]|[Hi' Hs']]%lookup_insert_Some]]%lookup_insert_Some Hx.
      * rewrite decide_False by set_solver. apply (inv_member _ _ Hinv _ s); set_solver.
      * by rewrite decide_True.
      * rewrite decide_False; [by eapply inv_member|].
        intros Hxi. apply Hin in Hxi.
        pose proof (inv_member _ _ Hinv _ _ _ Hs' Hx). congruence.
    + intros i. rewrite !dom_insert_L.
      intros [->%elem_of_singleton|[->%elem_of_singleton|Hi]%elem_of_union]%elem_of_union.
      * assert (id_s < next_id st); [|lia]. eapply inv_ids; [done|]. by apply elem_of_dom.
      * lia.
      * apply (inv_ids _ _ Hinv) in Hi. lia.
    + intros n Hn. destruct (inv_match _ _ Hinv n Hn) as (i & Hni & Hsi).
      exists i. rewrite Hpart.
      assert (n ∉ intersection) as Hnot.
      { intros Hni'. specialize (Hin n Hni'). rewrite Hni in Hin. injection Hin as ->.
        rewrite Hs in Hsi. injection Hsi as ->. apply Heq.
        apply set_eq. intros x. split; [by apply Hsub|].
        intros ->%elem_of_singleton. done. }
      rewrite decide_False by done. split; [done|].
      assert (i ≠ id_s) as Hi.
      { intros ->. rewrite Hs in Hsi. injection Hsi as ->.
        apply set_choose_L in Hne as [x Hx]. specialize (Hsub x Hx).
        apply elem_of_singleton in Hsub. by subst. }
      rewrite !lookup_insert_ne; try done.
      intros <-. assert (next_id st < next_id st); [|lia].
      eapply inv_ids; [done|]. by apply elem_of_dom.
  - destruct Hrest as [_ Hrest]. split; [done|]. simpl.
    intros i g Hig. destruct (Hrest i g Hig) as [Hgne Hg]. split; [done|].
    intros x Hx. rewrite Hpart, decide_False; [by apply Hg|].
    intros Hxi. apply Hin in Hxi. apply Hg in Hx.
    assert (i = id_s) as -> by congruence.
    apply Hfresh. apply list_elem_of_fmap. by exists (id_s, g).
Qed.

Lemma foldl_split_error (e : result (min_state * list (nat * nat))) groups :
  (∀ p, e ≠ Ok p) → ∀ p, foldl split e groups ≠ Ok p.
Proof.
  revert e. induction groups as [|entry groups IH]; intros e He; cbn [foldl]; [done|].
  apply IH. intros p. destruct e; [by destruct (He a)|done..].
Qed.

Lemma foldl_split_inv groups : ∀ st set_pairs st' set_pairs',
  min_inv dfa st → groups_ok (partition st) groups →
  foldl split (Ok (st, set_pairs)) groups = Ok (st', set_pairs') →
  min_inv dfa st'.
Proof.
  induction groups as [|[id_s intersection] groups IH];
    intros st set_pairs st' set_pairs' Hinv Hgroups; cbn [foldl].
  - by intros [= <- <-].
  - destruct (split (Ok (st, set_pairs)) (id_s, intersection))
      as [[st1 pairs1]| |] eqn:Hsplit.
    + destruct (split_inv _ _ _ _ _ _ _ Hinv Hgroups Hsplit) as [Hinv1 Hgroups1].
      by apply IH.
    + intros Hfold. by apply foldl_split_error in Hfold.
    + intros Hfold. by apply foldl_split_error in Hfold.
Qed.

Lemma refine_inv st refining_set st' set_pairs :
  min_inv dfa st → refine st refining_set = Ok (st', set_pairs) → min_inv dfa st'.
Proof.
  intros Hinv. unfold refine.
  destruct (intersections st refining_set) as [groups| |] eqn:Hgroups; simpl; try done.
  apply intersections_ok in Hgroups. by apply foldl_split_inv.
Qed.

Lemma min_char_inv a st remaining char st' remaining' :
  min_inv dfa st →
  min_char dfa a (Ok (st, remaining)) char = Ok (st', remaining') →
  min_inv dfa st'.
Proof.
  intros Hinv. unfold min_char. simpl.
  destruct (getitem (sets st) a) as [members| |]; simpl; try done.
  case_decide; [by intros [= <- <-]|].
  destruct (refine st _) as [[st1 pairs]| |] eqn:Hrefine; simpl; try done.
  intros [= <- <-]. by eapply refine_inv.
Qed.

Lemma foldl_min_char_error a (e : result (min_state * list nat)) chars :
  (∀ p, e ≠ Ok p) → ∀ p, foldl (min_char dfa a) e chars ≠ Ok p.
Proof.
  revert e. induction chars as [|c chars IH]; intros e He; cbn [foldl]; [done|].
  apply IH. intros p. destruct e; [by destruct (He a0)|done..].
Qed.

Lemma foldl_min_char_inv a chars : ∀ st remaining st' remaining',
  min_inv dfa st →
  foldl (min_char dfa a) (Ok (st, remaining)) chars = Ok (st', remaining') →
  min_inv dfa st'.
Proof.
  induction chars as [|c chars IH]; intros st remaining st' remaining' Hinv; cbn [foldl].
  - by intros [= <- <-].
  - destruct (min_char dfa a (Ok (st, remaining)) c) as [[st1 rem1]| |] eqn:Hchar.
    + apply min_char_inv in Hchar; [|done]. by apply IH.
    + intros Hfold. by apply foldl_min_char_error in Hfold.
    + intros Hfold. by apply foldl_min_char_error in Hfold.
Qed.


(** The classes before the loop are pairwise disjoint. *)
Lemma init_sets_disjoint a b s s' :
  init_sets dfa !! a = Some s → init_sets dfa !! b = Some s' → a ≠ b → s ## s'.
Proof.
  unfold init_sets. intros Ha Hb Hab.
  assert (∀ k t, ((λ n : nat, ({[n]} : gset nat)) <$> visit (DFA.matchNodes dfa)) !! k = Some t →
            ∃ n, t = {[n]} ∧ visit (DFA.matchNodes dfa) !! k = Some n ∧
                 n ∈ DFA.matchNodes dfa) as Hsingle.
  { intros k t (n & -> & Hn)%list_lookup_fmap_Some. exists n. split_and!; try done.
    eapply elem_of_visit, list_elem_of_lookup_2, Hn. }
  apply lookup_app_Some in Ha as [Ha|[Hla Ha]];
    apply lookup_app_Some in Hb as [Hb|[Hlb Hb]].
  - apply Hsingle in Ha as (n & -> & Hn & _). apply Hsingle in Hb as (n' & -> & Hn' & _).
    assert (n ≠ n'); [|set_solver]. intros <-.
    apply Hab.
    apply (NoDup_lookup (visit (DFA.matchNodes dfa)) a b n); [apply NoDup_visit|done..].
  - apply Hsingle in Ha as (n & -> & _ & Hn).
    apply list_lookup_singleton_Some in Hb as [_ <-].
    unfold DFA.nonMatchNodes. set_solver.
  - apply Hsingle in Hb as (n & -> & _ & Hn).
    apply list_lookup_singleton_Some in Ha as [_ <-].
    unfold DFA.nonMatchNodes. set_solver.
  - apply list_lookup_singleton_Some in Ha as [Ha _].
    apply list_lookup_singleton_Some in Hb as [Hb _]. lia.
Qed.

Lemma partition_fold_lookup (objs : list (nat * gset nat)) :
  (∀ a b i s j s', objs !! a = Some (i, s) → objs !! b = Some (j, s') → a ≠ b → s ## s') →
  ∀ n i,
    foldl (λ (part : gmap nat nat) '(i, s),
             foldl (λ part n, <[n := i]> part) part (visit s)) ∅ objs !! n
      = Some i ↔
    ∃ s, (i, s) ∈ objs ∧ n ∈ s.
Proof.
  induction objs as [|[j s] objs IH] using rev_ind; intros Hdisj n i.
  - simpl. rewrite lookup_empty. split; [done|]. intros (s & Hin & _).
    by apply elem_of_nil in Hin.
  - rewrite foldl_app. cbn [foldl]. rewrite foldl_insert_lookup.
    assert (∀ a b i s j s', objs !! a = Some (i, s) → objs !! b = Some (j, s') →
              a ≠ b → s ## s') as Hdisj'.
    { intros a b i0 s0 j0 s0' Ha Hb.
      apply (Hdisj a b i0 s0 j0 s0'); by apply lookup_app_l_Some. }
    specialize (IH Hdisj'). case_decide as Hn.
    + rewrite elem_of_visit in Hn. split.
      * intros [= <-]. exists s. split; [|done]. apply elem_of_app. right. by left.
      * intros (s0 & [Hin|[= -> ->]%list_elem_of_singleton]%elem_of_app & Hns); [|done].
        exfalso. apply list_elem_of_lookup in Hin as [a Ha].
        assert (s0 ## s); [|set_solver].
        apply (Hdisj a (length objs) i s0 j s).
        -- by apply lookup_app_l_Some.
        -- by rewrite list_lookup_middle.
        -- apply lookup_lt_Some in Ha. lia.
    + rewrite elem_of_visit in Hn. rewrite IH. split.
      * intros (s0 & Hin & Hns). exists s0. split; [|done]. apply elem_of_app. by left.
      * intros (s0 & [Hin|[= -> ->]%list_elem_of_singleton]%elem_of_app & Hns); [|done].
        by exists s0.
Qed.

Lemma init_state_inv : min_inv dfa (init_state dfa).
Proof.
  set (objs := imap (λ i s, (i, s)) (init_sets dfa)).
  assert (∀ i s, (i, s) ∈ objs ↔ init_sets dfa !! i = Some s) as Hobjs.
  { intros i s. unfold objs. rewrite elem_of_lookup_imap. split.
    - by intros (j & y & [= -> ->] & Hj).
    - intros Hi. by exists i, s. }
  assert (∀ a i s, objs !! a = Some (i, s) → i = a ∧ init_sets dfa !! a = Some s) as Hpos.
  { intros a i s. unfold objs. rewrite list_lookup_imap.
    destruct (init_sets dfa !! a); simpl; [|done]. by intros [= <- <-]. }
  assert (NoDup objs.*1) as Hdup.
  { apply NoDup_alt. intros a b i.
    rewrite !list_lookup_fmap.
    destruct (objs !! a) as [[i1 s1]|] eqn:Ha; [|done].
    destruct (objs !! b) as [[i2 s2]|] eqn:Hb; [|done].
    apply Hpos in Ha as [-> _]. apply Hpos in Hb as [-> _]. simpl. congruence. }
  assert (∀ i s, sets (init_state dfa) !! i = Some s ↔ init_sets dfa !! i = Some s)
    as Hsets.
  { intros i s. unfold init_state. simpl. fold objs.
    by rewrite <- elem_of_list_to_map, Hobjs. }
  assert (∀ n i, partition (init_state dfa) !! n = Some i ↔
                 ∃ s, init_sets dfa !! i = Some s ∧ n ∈ s) as Hpart.
  { intros n i. unfold init_state. simpl. fold objs. rewrite partition_fold_lookup.
    - by setoid_rewrite Hobjs.
    - intros a b i0 s0 j0 s0' [-> Ha]%Hpos [-> Hb]%Hpos. by apply init_sets_disjoint. }
  constructor.
  - intros x i (s & Hs & Hx)%Hpart. exists s. by rewrite Hsets.
  - intros i s x Hs%Hsets Hx. apply Hpart. by exists s.
  - intros i [s Hs%Hsets]%elem_of_dom. apply lookup_lt_Some in Hs.
    unfold init_state. simpl. by rewrite length_imap.
  - intros n Hn%elem_of_visit. apply list_elem_of_lookup in Hn as [i Hi].
    assert (init_sets dfa !! i = Some {[n]}) as Hs.
    { unfold init_sets. apply lookup_app_l_Some. by rewrite list_lookup_fmap, Hi. }
    exists i. split; [|by apply Hsets]. apply Hpart. exists {[n]}. split; [done|set_solver].
Qed.

Lemma elem_of_sorted_nodes (p : gset nat) x : x ∈ sorted_nodes p ↔ x ∈ p.
Proof. unfold sorted_nodes. by rewrite merge_sort_Permutation, elem_of_elements. Qed.

(** Every entry of the sorted list of classes is the class of some node. *)
Lemma elem_of_parts st p :
  min_inv dfa st → p ∈ parts st →
  ∃ x i s, partition st !! x = Some i ∧ sets st !! i = Some s ∧ p = sorted_nodes s.
Proof.
  intros Hinv. unfold parts. rewrite merge_sort_Permutation.
  intros (i & -> & ([x i'] & Hi & Hxi)%list_elem_of_fmap)%list_elem_of_fmap.
  simpl in Hi. subst i'. apply elem_of_map_to_list in Hxi.
  destruct (inv_class _ _ Hinv x i Hxi) as (s & Hs & _).
  exists x, i, s. rewrite Hs. done.
Qed.

Lemma renumber_fold (l : list (nat * list nat)) : ∀ (acc : gmap nat nat) x j,
  foldl (λ mapping '(new_node, part),
           foldl (λ mapping old_node, <[old_node := new_node]> mapping) mapping part)
        acc l !! x = Some j →
  acc !! x = Some j ∨ ∃ p, (j, p) ∈ l ∧ x ∈ p.
Proof.
  induction l as [|[k p] l IH]; intros acc x j; cbn [foldl]; [by left|].
  intros [Hacc|(p' & Hin & Hx)]%IH.
  - rewrite foldl_insert_lookup in Hacc. case_decide as Hxp.
    + injection Hacc as <-. right. exists p. split; [by left|done].
    + by left.
  - right. exists p'. split; [by right|done].
Qed.

(** The new node of an old node is the position of a class that holds it. *)
Lemma renumber_lookup ps x j :
  renumber ps !! x = Some j → ∃ p, ps !! j = Some p ∧ x ∈ p.
Proof.
  unfold renumber. intros [Hempty|(p & Hin & Hx)]%renumber_fold.
  - by rewrite lookup_empty in Hempty.
  - apply elem_of_lookup_imap in Hin as (i & y & [= <- <-] & Hi). by exists p.
Qed.

(** Two match nodes are never given the same new node. *)
Lemma renumber_match_inj st a b j :
  min_inv dfa st →
  a ∈ DFA.matchNodes dfa →
  renumber (parts st) !! a = Some j → renumber (parts st) !! b = Some j → a = b.
Proof.
  intros Hinv Ha (p & Hp & Hap)%renumber_lookup (p' & Hp' & Hbp)%renumber_lookup.
  rewrite Hp in Hp'. injection Hp' as <-.
  apply list_elem_of_lookup_2 in Hp.
  apply elem_of_parts in Hp as (x & i & s & Hx & Hs & ->); [|done].
  apply elem_of_sorted_nodes in Hap, Hbp.
  destruct (inv_match _ _ Hinv a Ha) as (i' & Hai & Hsi).
  pose proof (inv_member _ _ Hinv _ _ _ Hs Hap) as Hai'.
  assert (i' = i) as -> by congruence.
  rewrite Hs in Hsi. injection Hsi as ->. set_solver.
Qed.

Lemma elem_of_items `{Countable K} {V} (d : gmap K V) k v :
  (k, v) ∈ items d ↔ d !! k = Some v.
Proof.
  unfold items. rewrite list_elem_of_omap. split.
  - intros (k' & _ & Hk). destruct (d !! k') eqn:Hd; simpl in Hk; [|done].
    by injection Hk as -> ->.
  - intros Hk. exists k. split.
    + apply elem_of_visit, elem_of_dom. by eexists.
    + by rewrite Hk.
Qed.

Lemma NoDup_items `{Countable K} {V} (d : gmap K V) : NoDup (items d).*1.
Proof.
  unfold items. generalize (NoDup_visit (dom d)). generalize (visit (dom d)).
  intros l. induction 1 as [|k l Hk Hdup IH]; simpl; [constructor|].
  destruct (d !! k) as [v|]; simpl; [|done].
  apply NoDup_cons. split; [|done].
  intros ((k' & v') & Hkk & Hin)%list_elem_of_fmap. simpl in Hkk. subst k'.
  apply list_elem_of_omap in Hin as (k' & Hk' & Hv).
  destruct (d !! k'); simpl in Hv; [|done]. injection Hv as ->. done.
Qed.

Lemma map_names_error (mapping : gmap nat nat) (e : result (gmap nat A)) l :
  (∀ m, e ≠ Ok m) →
  ∀ m, foldl (λ acc '(old, name),
                m ← acc; new ← getitem mapping old; Ok (<[new := name]> m)) e l ≠ Ok m.
Proof.
  revert e. induction l as [|[old name] l IH]; intros e He; cbn [foldl]; [done|].
  apply IH. intros m. destruct e; [by destruct (He a)|done..].
Qed.

Lemma map_names_fold (mapping : gmap nat nat) l : ∀ (acc m' : gmap nat A),
  foldl (λ acc '(old, name),
           m ← acc; new ← getitem mapping old; Ok (<[new := name]> m)) (Ok acc) l = Ok m' →
  (∀ new name, m' !! new = Some name →
     acc !! new = Some name ∨ ∃ old, (old, name) ∈ l ∧ mapping !! old = Some new) ∧
  (∀ new name, acc !! new = Some name →
     (∀ old name', (old, name') ∈ l → mapping !! old ≠ Some new) →
     m' !! new = Some name) ∧
  (NoDup l.*1 →
   (∀ old old' new, old ∈ l.*1 → mapping !! old = Some new →
      mapping !! old' = Some new → old = old') →
   ∀ old name, (old, name) ∈ l → ∃ new, mapping !! old = Some new ∧ m' !! new = Some name).
Proof.
  induction l as [|[old name] l IH]; intros acc m'; cbn [foldl].
  - intros [= <-]. split_and!.
    + intros new name Hnew. by left.
    + done.
    + intros _ _ old name Hin. by apply elem_of_nil in Hin.
  - simpl. destruct (getitem mapping old) as [new| |] eqn:Hget; simpl.
    2,3: intros Hfold; by apply map_names_error in Hfold.
    apply getitem_Ok in Hget. intros (Hfrom & Hkeep & Hall)%IH. split_and!.
    + intros new' name' [Hacc|(old' & Hin & Hmap)]%Hfrom.
      * apply lookup_insert_Some in Hacc as [[<- <-]|[_ Hacc]]; [|by left].
        right. exists old. split; [by left|done].
      * right. exists old'. split; [by right|done].
    + intros new' name' Hacc Hfresh. apply Hkeep.
      * rewrite lookup_insert_ne; [done|]. intros <-.
        by apply (Hfresh old name); [left|].
      * intros old' name'' Hin. apply (Hfresh old' name''). by right.
    + intros Hdup Hinj old' name' [[= -> ->]|Hin]%elem_of_cons.
      * exists new. split; [done|]. apply Hkeep; [apply lookup_insert_eq|].
        intros old'' name'' Hin Hmap.
        apply NoDup_cons in Hdup as [Hfresh _]. apply Hfresh.
        assert (old = old'') as <-.
        { apply (Hinj old old'' new); [by left|done..]. }
        apply list_elem_of_fmap. by exists (old, name'').
      * apply NoDup_cons in Hdup as [_ Hdup]. apply Hall; [done| |done].
        intros o o' n Ho. apply Hinj. by right.
Qed.

End min_facts.

Section rule_facts.
Context `{SetOrder} `{Countable A}.



End rule_facts.


(** * Termination: the iteration bounds of the models are never reached *)



Section gen_termination.
Context `{SetOrder}.
Variable nfa : NFA.t.








End gen_termination.

Section min_termination.
Context `{SetOrder} {A : Type}.
Variable dfa : DFA.t A.

Lemma dom_foldl_insert (xs : list nat) (v : nat) : ∀ part : gmap nat nat,
  (∀ x, x ∈ xs → x ∈ dom part) →
  dom (foldl (λ part x, <[x := v]> part) part xs) = dom part.
Proof.
  induction xs as [|y xs IH]; intros part Hxs; cbn [foldl]; [done|].
  rewrite IH.
  - rewrite dom_insert_L. specialize (Hxs y). set_solver.
  - intros x Hx. rewrite dom_insert_L. specialize (Hxs x). set_solver.
Qed.

(** A split adds one class and one pair; nothing else changes size. *)
Lemma split_size st set_pairs id_s intersection rest st' set_pairs' :
  min_inv dfa st →
  groups_ok (partition st) ((id_s, intersection) :: rest) →
  split (Ok (st, set_pairs)) (id_s, intersection) = Ok (st', set_pairs') →
  (one_empty st → one_empty st') ∧
  dom (partition st') = dom (partition st) ∧
  length set_pairs' + size (dom (sets st)) = length set_pairs + size (dom (sets st')).
Proof.
  intros Hinv [Hdup Hgroups] Hsplit.
  destruct (Hgroups id_s intersection) as [Hne Hin]; [by left|].
  unfold split in Hsplit. simpl in Hsplit.
  destruct (getitem (sets st) id_s) as [s| |] eqn:Hs; simpl in Hsplit; try done.
  apply getitem_Ok in Hs.
  case_decide as Heq; [by injection Hsplit as <- <-|].
  injection Hsplit as <- <-. simpl.
  assert (intersection ⊆ s) as Hsub.
  { intros x Hx. apply Hin in Hx.
    destruct (inv_class _ _ Hinv x id_s Hx) as (s' & Hs' & Hxs). congruence. }
  assert (next_id st ∉ dom (sets st)) as Hfresh.
  { intros Hi%(inv_ids _ _ Hinv). lia. }
  assert (id_s ≠ next_id st) as Hnew.
  { intros ->. apply Hfresh. by apply elem_of_dom. }
  split_and!.
  - intros Hone i j.
    assert (∀ k, <[id_s := s ∖ intersection]> (<[next_id st := intersection]> (sets st))
                   !! k = Some ∅ → sets st !! k = Some ∅ ∧ k ≠ id_s) as Hold.
    { intros k [[<- Hk]|[Hk [[<- Hk']|[_ Hk']]%lookup_insert_Some]]%lookup_insert_Some.
      - exfalso. apply Heq. apply set_eq. intros x. split; [by apply Hsub|].
        intros Hx. destruct (decide (x ∈ intersection)); [done|]. set_solver.
      - by subst.
      - done. }
    intros [Hi _]%Hold [Hj _]%Hold. by apply Hone.
  - apply dom_foldl_insert. intros x Hx%elem_of_visit.
    apply elem_of_dom. exists id_s. by apply Hin.
  - rewrite length_app. simpl. rewrite !dom_insert_L.
    assert (id_s ∈ dom (sets st)) by by apply elem_of_dom.
    replace ({[id_s]} ∪ ({[next_id st]} ∪ dom (sets st)))
      with ({[next_id st]} ∪ dom (sets st)) by set_solver.
    rewrite size_union, size_singleton by set_solver. lia.
Qed.

Lemma foldl_split_size groups : ∀ st set_pairs st' set_pairs',
  min_inv dfa st → groups_ok (partition st) groups →
  foldl split (Ok (st, set_pairs)) groups = Ok (st', set_pairs') →
  (one_empty st → one_empty st') ∧
  dom (partition st') = dom (partition st) ∧
  length set_pairs' + size (dom (sets st)) = length set_pairs + size (dom (sets st')).
Proof.
  induction groups as [|[id_s intersection] groups IH];
    intros st set_pairs st' set_pairs' Hinv Hgroups; cbn [foldl].
  - by intros [= <- <-].
  - destruct (split (Ok (st, set_pairs)) (id_s, intersection))
      as [[st1 pairs1]| |] eqn:Hsplit.
    + destruct (split_inv dfa _ _ _ _ _ _ _ Hinv Hgroups Hsplit) as [Hinv1 Hgroups1].
      destruct (split_size _ _ _ _ _ _ _ Hinv Hgroups Hsplit) as (Hone1 & Hdom1 & Hlen1).
      intros (Hone2 & Hdom2 & Hlen2)%IH; [|done..].
      split_and!; [by auto|congruence|lia].
    + intros Hfold. by apply foldl_split_error in Hfold.
    + intros Hfold. by apply foldl_split_error in Hfold.
Qed.

Lemma enqueue_length st remaining pair :
  length (enqueue st remaining pair) ≤ S (length remaining).
Proof.
  unfold enqueue. destruct pair as [new old].
  repeat case_decide; repeat destruct (negb _); rewrite ?length_app; simpl; lia.
Qed.

Lemma foldl_enqueue_length st pairs : ∀ remaining,
  length (foldl (enqueue st) remaining pairs) ≤ length remaining + length pairs.
Proof.
  induction pairs as [|pair pairs IH]; intros remaining; cbn [foldl]; simpl; [lia|].
  etrans; [apply IH|]. pose proof (enqueue_length st remaining pair). lia.
Qed.

(** Handling one symbol appends at most as many sets as it creates. *)
Lemma min_char_size a st remaining char st' remaining' :
  min_inv dfa st →
  min_char dfa a (Ok (st, remaining)) char = Ok (st', remaining') →
  (one_empty st → one_empty st') ∧
  dom (partition st') = dom (partition st) ∧
  length remaining' + size (dom (sets st)) ≤ length remaining + size (dom (sets st')).
Proof.
  intros Hinv. unfold min_char. simpl.
  destruct (getitem (sets st) a) as [members| |]; simpl; try done.
  case_decide; [intros [= <- <-]; split_and!; [done..|lia]|].
  unfold refine.
  destruct (intersections st _) as [groups| |] eqn:Hgroups; simpl; try done.
  apply intersections_ok in Hgroups.
  destruct (foldl split (Ok (st, [])) groups) as [[st1 pairs]| |] eqn:Hfold;
    simpl; try done.
  intros [= <- <-].
  destruct (foldl_split_size _ _ _ _ _ Hinv Hgroups Hfold) as (Hone & Hdom & Hlen).
  split_and!; [done..|].
  pose proof (foldl_enqueue_length st1 pairs remaining). simpl in Hlen. lia.
Qed.

Lemma foldl_min_char_size a chars : ∀ st remaining st' remaining',
  min_inv dfa st →
  foldl (min_char dfa a) (Ok (st, remaining)) chars = Ok (st', remaining') →
  (one_empty st → one_empty st') ∧
  dom (partition st') = dom (partition st) ∧
  length remaining' + size (dom (sets st)) ≤ length remaining + size (dom (sets st')).
Proof.
  induction chars as [|c chars IH]; intros st remaining st' remaining' Hinv; cbn [foldl].
  - intros [= <- <-]. split_and!; [done..|lia].
  - destruct (min_char dfa a (Ok (st, remaining)) c) as [[st1 rem1]| |] eqn:Hchar.
    + destruct (min_char_size _ _ _ _ _ _ Hinv Hchar) as (Hone1 & Hdom1 & Hlen1).
      apply min_char_inv in Hchar; [|done].
      intros (Hone2 & Hdom2 & Hlen2)%IH; [|done].
      split_and!; [by auto|congruence|lia].
    + intros Hfold. by apply foldl_min_char_error in Hfold.
    + intros Hfold. by apply foldl_min_char_error in Hfold.
Qed.

Lemma size_list_to_set_le (l : list nat) : size (list_to_set l : gset nat) ≤ length l.
Proof.
  induction l as [|x l IH]; [by rewrite list_to_set_nil, size_empty|].
  rewrite list_to_set_cons, size_union_alt, size_singleton. simpl.
  assert (size (list_to_set l ∖ {[x]} : gset nat) ≤ size (list_to_set l : gset nat)).
  { apply subseteq_size. set_solver. }
  lia.
Qed.

(** There is at most one class more than there are nodes. *)
Lemma classes_bound st :
  min_inv dfa st → one_empty st →
  size (dom (sets st)) ≤ S (size (dom (partition st))).
Proof.
  intros Hinv Hone.
  set (empties := filter (λ i, sets st !! i = Some ∅) (dom (sets st))).
  set (used := (list_to_set (snd <$> map_to_list (partition st)) : gset nat)).
  assert (size empties ≤ 1) as Hempties.
  { unfold size, set_size. simpl.
    destruct (elements empties) as [|i [|j l]] eqn:Hel; simpl; try lia.
    assert (i ∈ empties ∧ j ∈ empties) as [Hi Hj].
    { rewrite <- !elem_of_elements, Hel. set_solver. }
    apply elem_of_filter in Hi as [Hi _]. apply elem_of_filter in Hj as [Hj _].
    pose proof (NoDup_elements empties) as Hdup. rewrite Hel in Hdup.
    apply NoDup_cons in Hdup as [Hij _]. specialize (Hone i j Hi Hj). set_solver. }
  assert (size used ≤ size (dom (partition st))) as Hused.
  { unfold used. etrans; [apply size_list_to_set_le|].
    by rewrite length_fmap, length_map_to_list, size_dom. }
  assert (dom (sets st) ⊆ used ∪ empties) as Hsub.
  { intros i [s Hs]%elem_of_dom.
    destruct (decide (s = ∅)) as [->|Hne].
    - apply elem_of_union. right. apply elem_of_filter. split; [done|].
      apply elem_of_dom. by eexists.
    - apply set_choose_L in Hne as [x Hx]. apply elem_of_union. left.
      unfold used. apply elem_of_list_to_set, list_elem_of_fmap.
      exists (x, i). split; [done|].
      apply elem_of_map_to_list. by eapply inv_member. }
  apply subseteq_size in Hsub.
  assert (size (used ∪ empties) ≤ size used + size empties).
  { rewrite size_union_alt.
    assert (size (empties ∖ used) ≤ size empties) by (apply subseteq_size; set_solver).
    lia. }
  lia.
Qed.

Lemma intersections_not_timeout st refining_set :
  intersections st refining_set ≠ Timeout_.
Proof.
  unfold intersections. generalize (visit refining_set). intros nodes.
  assert (∀ acc : result (list (nat * gset nat)), acc ≠ Timeout_ →
            foldl (λ acc node,
                     groups ← acc; id_s ← getitem (partition st) node;
                     Ok (add_to groups id_s node)) acc nodes ≠ Timeout_) as Hgen.
  { induction nodes as [|node nodes IH]; intros acc Hacc; cbn [foldl]; [done|].
    apply IH. destruct acc as [groups|e|]; simpl; try done.
    unfold getitem. by destruct (partition st !! node). }
  by apply Hgen.
Qed.

Lemma foldl_split_not_timeout groups : ∀ acc,
  acc ≠ Timeout_ → foldl split acc groups ≠ Timeout_.
Proof.
  induction groups as [|[id_s intersection] groups IH]; intros acc Hacc; cbn [foldl];
    [done|].
  apply IH. destruct acc as [[st pairs]|e|]; simpl; try done.
  unfold split. simpl. unfold getitem. destruct (sets st !! id_s); simpl; [|done].
  by case_decide.
Qed.

Lemma min_char_not_timeout a acc char :
  acc ≠ Timeout_ → min_char dfa a acc char ≠ Timeout_.
Proof.
  intros Hacc. destruct acc as [[st remaining]|e|]; simpl; try done.
  unfold min_char. simpl. unfold getitem at 1. destruct (sets st !! a); simpl; [|done].
  case_decide; [done|]. unfold refine.
  pose proof (intersections_not_timeout st
    (⋃ ((λ node, rev_transitions dfa node char) <$> visit g))) as Hint.
  destruct (intersections st _) as [groups|e|]; simpl; try done.
  pose proof (foldl_split_not_timeout groups (Ok (st, [])) ltac:(done)) as Hsplit.
  by destruct (foldl split (Ok (st, [])) groups) as [[st1 pairs]|e|].
Qed.

Lemma foldl_min_char_not_timeout a chars : ∀ acc,
  acc ≠ Timeout_ → foldl (min_char dfa a) acc chars ≠ Timeout_.
Proof.
  induction chars as [|c chars IH]; intros acc Hacc; cbn [foldl]; [done|].
  by apply IH, min_char_not_timeout.
Qed.

Lemma min_loop_terminates alphabet fuel : ∀ st remaining,
  min_inv dfa st → one_empty st →
  length remaining + S (size (dom (partition st))) < fuel + size (dom (sets st)) →
  min_loop dfa alphabet fuel st remaining ≠ Timeout_.
Proof.
  induction fuel as [|fuel IH]; intros st remaining Hinv Hone Hfuel.
  - pose proof (classes_bound st Hinv Hone). lia.
  - cbn [min_loop]. destruct (last remaining) as [a|] eqn:Hlast; [|done].
    apply last_Some in Hlast as [rem0 ->]. rewrite removelast_last.
    pose proof (foldl_min_char_not_timeout a (visit alphabet) (Ok (st, rem0))
                  ltac:(done)) as Hnot.
    destruct (foldl (min_char dfa a) (Ok (st, rem0)) (visit alphabet))
      as [[st1 rem1]|e|] eqn:Hchars; simpl; try done.
    destruct (foldl_min_char_size _ _ _ _ _ _ Hinv Hchars) as (Hone1 & Hdom1 & Hlen1).
    apply foldl_min_char_inv in Hchars; [|done].
    apply IH; [done|by auto|].
    rewrite Hdom1. rewrite length_app in Hfuel. simpl in Hfuel. lia.
Qed.

(** *** No lookup of [minimizeDFA] fails *)

Lemma intersections_Ok st refining_set :
  refining_set ⊆ dom (partition st) →
  ∃ groups, intersections st refining_set = Ok groups.
Proof.
  intros Hsub. unfold intersections.
  assert (∀ nodes (acc : list (nat * gset nat)),
            (∀ x, x ∈ nodes → x ∈ dom (partition st)) →
            ∃ groups,
              foldl (λ acc node,
                       groups ← acc; id_s ← getitem (partition st) node;
                       Ok (add_to groups id_s node)) (Ok acc) nodes = Ok groups) as Hgen.
  { induction nodes as [|node nodes IH]; intros acc Hnodes; cbn [foldl]; [by eexists|].
    assert (node ∈ dom (partition st)) as [i Hi]%elem_of_dom by (apply Hnodes; by left).
    simpl. unfold getitem. rewrite Hi. simpl. apply IH.
    intros x Hx. apply Hnodes. by right. }
  apply Hgen. intros x Hx%elem_of_visit. by apply Hsub.
Qed.

Definition known_pair (st : min_state) (p : nat * nat) : Prop :=
  p.1 ∈ dom (sets st) ∧ p.2 ∈ dom (sets st).

Lemma split_Ok st set_pairs id_s intersection rest :
  min_inv dfa st →
  groups_ok (partition st) ((id_s, intersection) :: rest) →
  Forall (known_pair st) set_pairs →
  ∃ st' set_pairs',
    split (Ok (st, set_pairs)) (id_s, intersection) = Ok (st', set_pairs') ∧
    dom (sets st) ⊆ dom (sets st') ∧
    Forall (known_pair st') set_pairs'.
Proof.
  intros Hinv [Hdup Hgroups] Hpairs.
  destruct (Hgroups id_s intersection) as [Hne Hin]; [by left|].
  apply set_choose_L in Hne as [x Hx].
  destruct (inv_class _ _ Hinv x id_s (Hin x Hx)) as (s & Hs & _).
  unfold split. simpl. unfold getitem. rewrite Hs. simpl.
  case_decide; [by eexists _, _|].
  eexists _, _. split; [done|]. simpl. split; [set_solver|].
  apply Forall_app. split.
  - eapply Forall_impl; [done|]. intros p [? ?]. unfold known_pair. simpl.
    rewrite !dom_insert_L. set_solver.
  - apply Forall_singleton. unfold known_pair. simpl.
    rewrite !dom_insert_L. set_solver.
Qed.

Lemma foldl_split_Ok groups : ∀ st set_pairs,
  min_inv dfa st → groups_ok (partition st) groups →
  Forall (known_pair st) set_pairs →
  ∃ st' set_pairs',
    foldl split (Ok (st, set_pairs)) groups = Ok (st', set_pairs') ∧
    dom (sets st) ⊆ dom (sets st') ∧
    Forall (known_pair st') set_pairs'.
Proof.
  induction groups as [|[id_s intersection] groups IH];
    intros st set_pairs Hinv Hgroups Hpairs; cbn [foldl].
  - by eexists _, _.
  - destruct (split_Ok st set_pairs id_s intersection groups Hinv Hgroups Hpairs)
      as (st1 & pairs1 & Hsplit & Hdom1 & Hpairs1).
    rewrite Hsplit.
    destruct (split_inv dfa _ _ _ _ _ _ _ Hinv Hgroups Hsplit) as [Hinv1 Hgroups1].
    destruct (IH st1 pairs1 Hinv1 Hgroups1 Hpairs1) as (st2 & pairs2 & Hfold & Hdom2 & Hpairs2).
    exists st2, pairs2. split_and!; [done|set_solver|done].
Qed.

Lemma enqueue_known st remaining pair :
  Forall (.∈ dom (sets st)) remaining → known_pair st pair →
  Forall (.∈ dom (sets st)) (enqueue st remaining pair).
Proof.
  intros Hrem [Hnew Hold]. unfold enqueue. destruct pair as [new old]. simpl in *.
  repeat case_decide; repeat destruct (negb _); try done;
    apply Forall_app; split; try done; by apply Forall_singleton.
Qed.

Lemma foldl_enqueue_known st pairs : ∀ remaining,
  Forall (.∈ dom (sets st)) remaining → Forall (known_pair st) pairs →
  Forall (.∈ dom (sets st)) (foldl (enqueue st) remaining pairs).
Proof.
  induction pairs as [|pair pairs IH]; intros remaining Hrem Hpairs; cbn [foldl]; [done|].
  apply Forall_cons in Hpairs as [Hpair Hpairs].
  apply IH; [|done]. by apply enqueue_known.
Qed.

Lemma rev_transitions_subseteq node char :
  rev_transitions dfa node char ⊆ dom (DFA.transitions dfa).
Proof. unfold rev_transitions. intros x [_ Hx]%elem_of_filter. done. Qed.

Lemma min_char_Ok a st remaining char :
  min_inv dfa st → a ∈ dom (sets st) →
  dom (DFA.transitions dfa) ⊆ dom (partition st) →
  Forall (.∈ dom (sets st)) remaining →
  ∃ st' remaining',
    min_char dfa a (Ok (st, remaining)) char = Ok (st', remaining') ∧
    dom (sets st) ⊆ dom (sets st') ∧
    Forall (.∈ dom (sets st')) remaining'.
Proof.
  intros Hinv [members Ha]%elem_of_dom Hnodes Hrem.
  unfold min_char. simpl. unfold getitem at 1. rewrite Ha. simpl.
  case_decide; [by eexists _, _|].
  unfold refine.
  destruct (intersections_Ok st
              (⋃ ((λ node, rev_transitions dfa node char) <$> visit members)))
    as [groups Hgroups].
  { intros x (s & (node & -> & _)%list_elem_of_fmap & Hx)%elem_of_union_list.
    by apply Hnodes, (rev_transitions_subseteq node char). }
  rewrite Hgroups. simpl.
  apply intersections_ok in Hgroups.
  destruct (foldl_split_Ok groups st [] Hinv Hgroups) as (st1 & pairs & Hfold & Hdom & Hpairs);
    [done|].
  rewrite Hfold. simpl. eexists _, _. split_and!; [done..|].
  apply foldl_enqueue_known; [|done].
  eapply Forall_impl; [done|]. simpl. set_solver.
Qed.

Lemma foldl_min_char_Ok a chars : ∀ st remaining,
  min_inv dfa st → a ∈ dom (sets st) →
  dom (DFA.transitions dfa) ⊆ dom (partition st) →
  Forall (.∈ dom (sets st)) remaining →
  ∃ st' remaining',
    foldl (min_char dfa a) (Ok (st, remaining)) chars = Ok (st', remaining') ∧
    Forall (.∈ dom (sets st')) remaining'.
Proof.
  induction chars as [|c chars IH]; intros st remaining Hinv Ha Hnodes Hrem; cbn [foldl].
  - by eexists _, _.
  - destruct (min_char_Ok a st remaining c Hinv Ha Hnodes Hrem)
      as (st1 & rem1 & Hchar & Hdom1 & Hrem1).
    rewrite Hchar.
    destruct (min_char_size _ _ _ _ _ _ Hinv Hchar) as (_ & Hpart & _).
    apply min_char_inv in Hchar; [|done].
    apply IH; [done|set_solver|by rewrite Hpart|done].
Qed.

(** The refinement loop ends, within the bound, without a failed lookup. *)
Lemma min_loop_Ok alphabet fuel : ∀ st remaining,
  min_inv dfa st → one_empty st →
  dom (DFA.transitions dfa) ⊆ dom (partition st) →
  Forall (.∈ dom (sets st)) remaining →
  length remaining + S (size (dom (partition st))) < fuel + size (dom (sets st)) →
  ∃ st', min_loop dfa alphabet fuel st remaining = Ok st' ∧ min_inv dfa st' ∧
         dom (partition st') = dom (partition st).
Proof.
  induction fuel as [|fuel IH]; intros st remaining Hinv Hone Hnodes Hrem Hfuel.
  - pose proof (classes_bound st Hinv Hone). lia.
  - cbn [min_loop]. destruct (last remaining) as [a|] eqn:Hlast; [|by eexists].
    apply last_Some in Hlast as [rem0 ->]. rewrite removelast_last.
    apply Forall_app in Hrem as [Hrem0 Ha]. rewrite Forall_singleton in Ha.
    destruct (foldl_min_char_Ok a (visit alphabet) st rem0 Hinv Ha Hnodes Hrem0)
      as (st1 & rem1 & Hchars & Hrem1).
    rewrite Hchars. simpl.
    destruct (foldl_min_char_size _ _ _ _ _ _ Hinv Hchars) as (Hone1 & Hdom1 & Hlen1).
    apply foldl_min_char_inv in Hchars; [|done].
    destruct (IH st1 rem1) as (st' & Hloop & Hinv' & Hdom'); [done|by auto|by rewrite Hdom1|done| |].
    + rewrite Hdom1. rewrite length_app in Hfuel. simpl in Hfuel. lia.
    + exists st'. split_and!; [done..|congruence].
Qed.

Lemma init_state_sets i s :
  sets (init_state dfa) !! i = Some s ↔ init_sets dfa !! i = Some s.
Proof.
  unfold init_state. simpl. rewrite <- elem_of_list_to_map.
  - rewrite elem_of_lookup_imap. split.
    + by intros (j & y & [= -> ->] & Hj).
    + intros Hi. by exists i, s.
  - apply NoDup_alt. intros a b k. rewrite !list_lookup_fmap, !list_lookup_imap.
    destruct (init_sets dfa !! a), (init_sets dfa !! b); simpl; congruence.
Qed.

Lemma init_sets_nodes i s :
  init_sets dfa !! i = Some s → s ⊆ DFA.allNodes dfa ∪ DFA.matchNodes dfa.
Proof.
  unfold init_sets. intros [Hi|[_ Hi]]%lookup_app_Some.
  - apply list_lookup_fmap_Some in Hi as (n & -> & Hn).
    apply list_elem_of_lookup_2, elem_of_visit in Hn. set_solver.
  - apply list_lookup_singleton_Some in Hi as [_ <-]. unfold DFA.nonMatchNodes. set_solver.
Qed.

Lemma init_state_partition :
  dom (partition (init_state dfa)) = DFA.allNodes dfa ∪ DFA.matchNodes dfa.
Proof.
  pose proof (init_state_inv dfa) as Hinv.
  apply set_eq. intros x. split.
  - intros [i Hi]%elem_of_dom.
    destruct (inv_class _ _ Hinv x i Hi) as (s & Hs%init_state_sets & Hx).
    by apply (init_sets_nodes i s).
  - intros Hx. destruct (decide (x ∈ DFA.matchNodes dfa)) as [Hm|Hm].
    + destruct (inv_match _ _ Hinv x Hm) as (i & Hi & _). apply elem_of_dom. by eexists.
    + apply elem_of_dom. exists (length (visit (DFA.matchNodes dfa))).
      apply (inv_member _ _ Hinv _ (DFA.nonMatchNodes dfa)).
      * apply init_state_sets. unfold init_sets.
        rewrite lookup_app_r by (rewrite length_fmap; lia).
        rewrite length_fmap, Nat.sub_diag. done.
      * unfold DFA.nonMatchNodes. set_solver.
Qed.

Lemma init_state_one_empty : one_empty (init_state dfa).
Proof.
  assert (∀ i, sets (init_state dfa) !! i = Some ∅ →
               i = length (visit (DFA.matchNodes dfa))) as Hlast.
  { intros i Hi%init_state_sets. unfold init_sets in Hi.
    apply lookup_app_Some in Hi as [Hi|[Hlen Hi]].
    - apply list_lookup_fmap_Some in Hi as (n & Hn & _).
      apply (f_equal size) in Hn. by rewrite size_empty, size_singleton in Hn.
    - apply list_lookup_singleton_Some in Hi as [Hi _].
      rewrite length_fmap in Hi, Hlen. lia. }
  intros i j Hi%Hlast Hj%Hlast. congruence.
Qed.

End min_termination.

(** * The result of [minimizeDFA] *)

Section renumbering.
Context `{SetOrder} {A : Type}.
Variable dfa : DFA.t A.

Lemma renumber_fold_Some (l : list (nat * list nat)) x : ∀ acc : gmap nat nat,
  is_Some (acc !! x) ∨ (∃ j p, (j, p) ∈ l ∧ x ∈ p) →
  is_Some (foldl (λ mapping '(new_node, part),
                    foldl (λ mapping old_node, <[old_node := new_node]> mapping)
                          mapping part)
                 acc l !! x).
Proof.
  induction l as [|[k p] l IH]; intros acc Hx; cbn [foldl].
  - destruct Hx as [?|(j & p & Hin & _)]; [done|]. by apply elem_of_nil in Hin.
  - apply IH. rewrite foldl_insert_lookup.
    destruct Hx as [Hacc|(j & q & Hin & Hxq)].
    + left. by case_decide.
    + apply elem_of_cons in Hin as [[= -> ->]|Hin].
      * left. by rewrite decide_True.
      * right. by exists j, q.
Qed.

(** Every node of the partition is renumbered. *)
Lemma renumber_total st x :
  min_inv dfa st → x ∈ dom (partition st) → is_Some (renumber (parts st) !! x).
Proof.
  intros Hinv [i Hi]%elem_of_dom.
  destruct (inv_class _ _ Hinv x i Hi) as (s & Hs & Hx).
  assert (sorted_nodes s ∈ parts st) as [j Hj]%list_elem_of_lookup_1.
  { unfold parts. rewrite merge_sort_Permutation.
    apply list_elem_of_fmap. exists i. split; [by rewrite Hs|].
    apply list_elem_of_fmap. exists (x, i). split; [done|].
    by apply elem_of_map_to_list. }
  unfold renumber. apply renumber_fold_Some. right.
  exists j, (sorted_nodes s). split; [|by apply elem_of_sorted_nodes].
  apply elem_of_lookup_imap. by exists j, (sorted_nodes s).
Qed.

Lemma foldl_map_edge_Err (mapping : gmap nat nat) new_src e edges :
  foldl (map_edge mapping new_src) (Err e) edges = Err e.
Proof. induction edges as [|edge edges IH]; cbn [foldl]; [done|]. apply IH. Qed.

Lemma foldl_map_edge_Timeout (mapping : gmap nat nat) new_src edges :
  foldl (map_edge mapping new_src) Timeout_ edges = Timeout_.
Proof. induction edges as [|edge edges IH]; cbn [foldl]; [done|]. apply IH. Qed.

(** One edge: the lookup that can fail is [mapping[old_dst]], and the exit
    is taken when the source already has another edge on the symbol. *)
Lemma map_edge_cases (mapping : gmap nat nat) new_src acc char old_dst new_dst :
  mapping !! old_dst = Some new_dst →
  (lookup2 acc new_src char = None ∧
   map_edge mapping new_src (Ok acc) (char, old_dst)
     = Ok (set_edge new_src char new_dst acc)) ∨
  (lookup2 acc new_src char = Some new_dst ∧
   map_edge mapping new_src (Ok acc) (char, old_dst) = Ok acc) ∨
  ((∃ existing, lookup2 acc new_src char = Some existing ∧ existing ≠ new_dst) ∧
   map_edge mapping new_src (Ok acc) (char, old_dst) = Err SystemExit).
Proof.
  intros Hmap. unfold map_edge. simpl. unfold getitem. rewrite Hmap. simpl.
  destruct (lookup2 acc new_src char) as [existing|]; [|by left].
  right. case_decide as Heq; [left; by subst|right]. split; [by exists existing|done].
Qed.

(** The edges a fold of [map_edge] leaves: those it found, and the image of
    every edge it was given. *)
Lemma foldl_map_edge_Ok (mapping : gmap nat nat) new_src edges : ∀ acc t,
  foldl (map_edge mapping new_src) (Ok acc) edges = Ok t →
  (∀ n c d, lookup2 acc n c = Some d → lookup2 t n c = Some d) ∧
  (∀ c old_dst, (c, old_dst) ∈ edges →
     ∃ new_dst, mapping !! old_dst = Some new_dst ∧ lookup2 t new_src c = Some new_dst) ∧
  (∀ n c d, lookup2 t n c = Some d →
     lookup2 acc n c = Some d ∨
     n = new_src ∧ ∃ old_dst, (c, old_dst) ∈ edges ∧ mapping !! old_dst = Some d).
Proof.
  induction edges as [|[c0 d0] edges IH]; intros acc t; cbn [foldl].
  - intros [= <-]. split_and!; [done| |by left].
    intros c old_dst Hin. by apply elem_of_nil in Hin.
  - destruct (mapping !! d0) as [new_dst|] eqn:Hmap.
    + destruct (map_edge_cases mapping new_src acc c0 d0 new_dst Hmap)
        as [[Hnone ->]|[[Hsame ->]|[_ ->]]].
      * intros (Hkeep & Hall & Hfrom)%IH. split_and!.
        -- intros n c d Hd. apply Hkeep. rewrite lookup2_set_edge.
           case_decide as Heq; [|done]. destruct Heq as [-> ->]. congruence.
        -- intros c old_dst [[= -> ->]|Hin]%elem_of_cons; [|by apply Hall].
           exists new_dst. split; [done|]. apply Hkeep.
           rewrite lookup2_set_edge. by rewrite decide_True.
        -- intros n c d [Hd|(-> & old_dst & Hin & Hold)]%Hfrom.
           ++ rewrite lookup2_set_edge in Hd. case_decide as Heq; [|by left].
              destruct Heq as [-> ->]. injection Hd as <-.
              right. split; [done|]. exists d0. split; [by left|done].
           ++ right. split; [done|]. exists old_dst. split; [by right|done].
      * intros (Hkeep & Hall & Hfrom)%IH. split_and!; [done| |].
        -- intros c old_dst [[= -> ->]|Hin]%elem_of_cons; [|by apply Hall].
           exists new_dst. split; [done|]. by apply Hkeep.
        -- intros n c d [Hd|(-> & old_dst & Hin & Hold)]%Hfrom; [by left|].
           right. split; [done|]. exists old_dst. split; [by right|done].
      * by rewrite foldl_map_edge_Err.
    + unfold map_edge at 2. simpl. unfold getitem. rewrite Hmap. simpl.
      by rewrite foldl_map_edge_Err.
Qed.

(** With every target renumbered, a fold of [map_edge] returns or exits. *)
Lemma foldl_map_edge_total (mapping : gmap nat nat) new_src edges : ∀ acc,
  (∀ c old_dst, (c, old_dst) ∈ edges → is_Some (mapping !! old_dst)) →
  (∃ t, foldl (map_edge mapping new_src) (Ok acc) edges = Ok t) ∨
  foldl (map_edge mapping new_src) (Ok acc) edges = Err SystemExit.
Proof.
  induction edges as [|[c0 d0] edges IH]; intros acc Hedges; cbn [foldl].
  - left. by eexists.
  - destruct (Hedges c0 d0) as [new_dst Hmap]; [by left|].
    destruct (map_edge_cases mapping new_src acc c0 d0 new_dst Hmap)
      as [[_ ->]|[[_ ->]|[_ ->]]].
    + apply IH. intros c old_dst Hin. apply (Hedges c). by right.
    + apply IH. intros c old_dst Hin. apply (Hedges c). by right.
    + right. apply foldl_map_edge_Err.
Qed.

Lemma foldl_map_node_Err (mapping : gmap nat nat) e entries :
  foldl (map_node mapping) (Err e) entries = Err e.
Proof. induction entries as [|entry entries IH]; cbn [foldl]; [done|]. apply IH. Qed.

Lemma foldl_map_node_Ok (mapping : gmap nat nat) entries : ∀ acc t,
  foldl (map_node mapping) (Ok acc) entries = Ok t →
  (∀ n c d, lookup2 acc n c = Some d → lookup2 t n c = Some d) ∧
  (∀ old_node (old_d : gmap Z nat) c old_dst,
     (old_node, old_d) ∈ entries → old_d !! c = Some old_dst →
     ∃ new_src new_dst, mapping !! old_node = Some new_src ∧
       mapping !! old_dst = Some new_dst ∧ lookup2 t new_src c = Some new_dst) ∧
  (∀ n c d, lookup2 t n c = Some d →
     lookup2 acc n c = Some d ∨
     ∃ old_node old_d old_dst, (old_node, old_d) ∈ entries ∧
       mapping !! old_node = Some n ∧ old_d !! c = Some old_dst ∧
       mapping !! old_dst = Some d).
Proof.
  induction entries as [|[node0 d0] entries IH]; intros acc t; cbn [foldl].
  - intros [= <-]. split_and!; [done| |by left].
    intros ? ? ? ? Hin. by apply elem_of_nil in Hin.
  - unfold map_node at 2. simpl. unfold getitem.
    destruct (mapping !! node0) as [new_src|] eqn:Hsrc; simpl;
      [|by rewrite foldl_map_node_Err].
    destruct (foldl (map_edge mapping new_src) (Ok (touch new_src acc)) (items d0))
      as [t1|e|] eqn:Hedges.
    + apply foldl_map_edge_Ok in Hedges as (Hkeep1 & Hall1 & Hfrom1).
      intros (Hkeep & Hall & Hfrom)%IH. split_and!.
      * intros n c d Hd. apply Hkeep, Hkeep1. by rewrite lookup2_touch.
      * intros old_node old_d c old_dst [[= -> ->]|Hin]%elem_of_cons Hd.
        -- destruct (Hall1 c old_dst) as (new_dst & Hdst & Ht1); [by apply elem_of_items|].
           exists new_src, new_dst. split_and!; [done..|by apply Hkeep].
        -- by apply (Hall old_node old_d).
      * intros n c d [Hd|(old_node & old_d & old_dst & Hin & ? & ? & ?)]%Hfrom.
        -- apply Hfrom1 in Hd as [Hd|(-> & old_dst & Hin%elem_of_items & Hdst)].
           ++ left. by rewrite lookup2_touch in Hd.
           ++ right. exists node0, d0, old_dst. split_and!; [by left|done..].
        -- right. exists old_node, old_d, old_dst. split_and!; [by right|done..].
    + by rewrite foldl_map_node_Err.
    + intros Hfold. exfalso. revert Hfold. clear.
      induction entries as [|entry entries IH]; cbn [foldl]; [done|]. apply IH.
Qed.

Lemma foldl_map_node_total (mapping : gmap nat nat) entries : ∀ acc,
  (∀ old_node (old_d : gmap Z nat), (old_node, old_d) ∈ entries →
     is_Some (mapping !! old_node) ∧
     ∀ c old_dst, old_d !! c = Some old_dst → is_Some (mapping !! old_dst)) →
  (∃ t, foldl (map_node mapping) (Ok acc) entries = Ok t) ∨
  foldl (map_node mapping) (Ok acc) entries = Err SystemExit.
Proof.
  induction entries as [|[node0 d0] entries IH]; intros acc Hentries; cbn [foldl].
  - left. by eexists.
  - destruct (Hentries node0 d0) as [[new_src Hsrc] Hdsts]; [by left|].
    unfold map_node at 2 4. simpl. unfold getitem. rewrite Hsrc. simpl.
    destruct (foldl_map_edge_total mapping new_src (items d0) (touch new_src acc))
      as [[t1 ->]| ->].
    + intros c old_dst Hin%elem_of_items. by apply (Hdsts c).
    + apply IH. intros old_node old_d Hin. apply Hentries. by right.
    + right. apply foldl_map_node_Err.
Qed.

Lemma map_names_total (mapping : gmap nat nat) (names : gmap nat A) :
  (∀ old, old ∈ dom names → is_Some (mapping !! old)) →
  ∃ m, map_names mapping names = Ok m.
Proof.
  intros Hdom. unfold map_names.
  assert (∀ l (acc : gmap nat A),
            (∀ old name, (old, name) ∈ l → is_Some (mapping !! old)) →
            ∃ m, foldl (λ acc '(old, name),
                          m ← acc; new ← getitem mapping old; Ok (<[new := name]> m))
                       (Ok acc) l = Ok m) as Hgen.
  { induction l as [|[old name] l IH]; intros acc Hl; cbn [foldl]; [by eexists|].
    destruct (Hl old name) as [new Hnew]; [by left|].
    simpl. unfold getitem. rewrite Hnew. simpl. apply IH.
    intros old' name' Hin. apply (Hl old' name'). by right. }
  apply Hgen. intros old name Hin%elem_of_items. apply Hdom, elem_of_dom. by eexists.
Qed.

(** Edges lead to nodes of the automaton. *)
Lemma edge_nodes src (d : gmap Z nat) c dst :
  DFA.transitions dfa !! src = Some d → d !! c = Some dst →
  src ∈ DFA.allNodes dfa ∧ dst ∈ DFA.allNodes dfa.
Proof.
  intros Hsrc Hdst. unfold DFA.allNodes, DFA.allSrcNodes, DFA.allDstNodes.
  assert (src ∈ dom (DFA.transitions dfa)) as Hdom by (apply elem_of_dom; by eexists).
  split; [set_solver|]. apply elem_of_union. right.
  apply elem_of_union_list. exists (DFA.dstNodes dfa src). split.
  - apply list_elem_of_fmap. exists src. split; [done|]. by apply elem_of_elements.
  - unfold DFA.dstNodes. rewrite Hsrc. apply elem_of_list_to_set.
    apply list_elem_of_fmap. exists (c, dst). split; [done|]. by apply elem_of_map_to_list.
Qed.

(** The partition [minimizeDFA] ends with: its loop returns, with the
    invariant, on the nodes of the automaton. *)
Lemma refine_partition_Ok :
  ∃ st, refine_partition (min_fuel dfa) dfa = Ok st ∧ min_inv dfa st ∧
        dom (partition st) = DFA.allNodes dfa ∪ DFA.matchNodes dfa.
Proof.
  unfold refine_partition.
  destruct (min_loop_Ok dfa (DFA.alphabet dfa) (min_fuel dfa) (init_state dfa)
              (seq 0 (length (init_sets dfa)))) as (st & Hloop & Hinv & Hdom).
  - apply init_state_inv.
  - apply init_state_one_empty.
  - rewrite init_state_partition. unfold DFA.allNodes, DFA.allSrcNodes. set_solver.
  - apply Forall_forall. intros i Hi%elem_of_seq.
    destruct (lookup_lt_is_Some_2 (init_sets dfa) i) as [s Hs]; [lia|].
    apply elem_of_dom. exists s. by apply init_state_sets.
  - rewrite length_seq, init_state_partition. unfold min_fuel.
    assert (0 < size (dom (sets (init_state dfa)))); [|lia].
    assert (length (visit (DFA.matchNodes dfa)) ∈ dom (sets (init_state dfa))) as Hin.
    { apply elem_of_dom. exists (DFA.nonMatchNodes dfa). apply init_state_sets.
      unfold init_sets. rewrite lookup_app_r by (rewrite length_fmap; lia).
      by rewrite length_fmap, Nat.sub_diag. }
    pose proof (subseteq_size ({[length (visit (DFA.matchNodes dfa))]} : gset nat)
                  (dom (sets (init_state dfa)))) as Hsize.
    rewrite size_singleton in Hsize. apply Hsize. set_solver.
  - exists st. by rewrite Hdom, init_state_partition.
Qed.

(** What [minimizeDFA] returns, in terms of its dictionary [mapping]. *)
Lemma minimizeDFA_mapping dfa' :
  minimizeDFA dfa = Ok dfa' →
  ∃ mapping, mapping_of dfa = Ok mapping ∧
    (∀ n, n ∈ DFA.allNodes dfa ∪ DFA.matchNodes dfa → is_Some (mapping !! n)) ∧
    (∀ s c t, DFA.advance dfa s c = Some t →
       ∃ s' t', mapping !! s = Some s' ∧ mapping !! t = Some t' ∧
                DFA.advance dfa' s' c = Some t') ∧
    (∀ s' c t', DFA.advance dfa' s' c = Some t' →
       ∃ s t, mapping !! s = Some s' ∧ mapping !! t = Some t' ∧
              DFA.advance dfa s c = Some t) ∧
    (∀ n n', mapping !! n = Some n' →
       DFA.matchNodeNames dfa' !! n' = DFA.matchNodeNames dfa !! n).
Proof.
  destruct refine_partition_Ok as (st & Hst & Hinv & Hdom).
  unfold minimizeDFA, minimizeDFA_bounded, mapping_of. rewrite Hst. simpl.
  intros (t & Ht & (names & Hnames & [= <-])%result_bind_Ok)%result_bind_Ok.
  exists (renumber (parts st)). split; [done|].
  apply foldl_map_node_Ok in Ht as (_ & Hall & Hfrom).
  unfold map_names in Hnames. apply map_names_fold in Hnames as (Hnfrom & _ & Hnall).
  assert (∀ old old' new, old ∈ DFA.matchNodes dfa →
            renumber (parts st) !! old = Some new →
            renumber (parts st) !! old' = Some new → old = old') as Hinj.
  { intros old old' new Hold. by apply (renumber_match_inj dfa). }
  split_and!.
  - intros n Hn. apply renumber_total; [done|]. by rewrite Hdom.
  - intros s c t0 (d & Hs & Hd)%lookup2_Some.
    destruct (Hall s d c t0) as (s' & t' & ? & ? & ?); [by apply elem_of_items|done|].
    by exists s', t'.
  - intros s' c t' [Hd|(s & d & t0 & Hin%elem_of_items & ? & ? & ?)]%Hfrom.
    + unfold lookup2 in Hd. by rewrite lookup_empty in Hd.
    + exists s, t0. split_and!; [done..|]. apply lookup2_Some. by exists d.
  - intros n n' Hn. simpl.
    destruct (DFA.matchNodeNames dfa !! n) as [name|] eqn:Hname.
    + destruct (Hnall (NoDup_items _)) with (old := n) (name := name)
        as (new & Hnew & Hm); [|by apply elem_of_items|congruence].
      intros o o' new [[o1 name1] [Ho1 Ho%elem_of_items]]%list_elem_of_fmap.
      simpl in Ho1. subst o1. apply Hinj. apply elem_of_dom. by eexists.
    + destruct (names !! n') as [name|] eqn:Hm; [|done].
      apply Hnfrom in Hm as [Hm|(old & Hin%elem_of_items & Hold)];
        [by rewrite lookup_empty in Hm|].
      assert (old = n) as ->; [|congruence].
      eapply Hinj; [|done..]. apply elem_of_dom. by eexists.
Qed.

(** Walks are renumbered node by node. *)
Lemma run_renumbered (dfa' : DFA.t A) (mapping : gmap nat nat) text : ∀ s s' t,
  (∀ s c t, DFA.advance dfa s c = Some t →
     ∃ s' t', mapping !! s = Some s' ∧ mapping !! t = Some t' ∧
              DFA.advance dfa' s' c = Some t') →
  mapping !! s = Some s' → DFA.run dfa s text = Some t →
  ∃ t', mapping !! t = Some t' ∧ DFA.run dfa' s' text = Some t'.
Proof.
  induction text as [|byte text IH]; intros s s' t Hstep Hs; simpl.
  - intros [= <-]. by exists s'.
  - destruct (DFA.advance dfa s byte) as [s1|] eqn:Hadv; [|done].
    destruct (Hstep s byte s1 Hadv) as (s0 & s1' & Hs0 & Hs1 & Hadv').
    rewrite Hs in Hs0. injection Hs0 as <-. rewrite Hadv'. intros Hrun.
    by apply (IH s1 s1' t).
Qed.

(** [minimizeDFA] looks up only nodes that it renumbered, and its loop ends:
    it returns a DFA, or it takes its [exit] for an inconsistent result. *)
Theorem minimizeDFA_returns_or_exits :
  (∃ dfa', minimizeDFA dfa = Ok dfa') ∨ minimizeDFA dfa = Err SystemExit.
Proof.
  destruct refine_partition_Ok as (st & Hst & Hinv & Hdom).
  assert (∀ n, n ∈ DFA.allNodes dfa ∪ DFA.matchNodes dfa →
               is_Some (renumber (parts st) !! n)) as Htotal.
  { intros n Hn. apply renumber_total; [done|]. by rewrite Hdom. }
  unfold minimizeDFA, minimizeDFA_bounded. rewrite Hst. simpl.
  destruct (foldl_map_node_total (renumber (parts st)) (items (DFA.transitions dfa)) ∅)
    as [[t ->]| ->]; [|simpl|by right].
  - intros src d Hsrc%elem_of_items. split.
    + apply Htotal. apply elem_of_union. left. unfold DFA.allNodes, DFA.allSrcNodes.
      apply elem_of_union. left. apply elem_of_dom. by eexists.
    + intros c dst Hdst. apply Htotal. apply elem_of_union. left.
      by apply (edge_nodes src d c dst).
  - destruct (map_names_total (renumber (parts st)) (DFA.matchNodeNames dfa))
      as [names ->].
    + intros old Hold. apply Htotal. unfold DFA.matchNodes. set_solver.
    + left. by eexists.
Qed.

(** The minimised DFA is the image of its argument under [mapping]: every
    node is renumbered, every edge of the argument is an edge between the
    renumbered nodes, every edge of the result comes from one, and a
    renumbered node has the name of the node it comes from, or none. *)
Theorem minimizeDFA_is_image dfa' :
  minimizeDFA dfa = Ok dfa' →
  ∃ mapping, mapping_of dfa = Ok mapping ∧
    (∀ n, n ∈ DFA.allNodes dfa ∪ DFA.matchNodes dfa → is_Some (mapping !! n)) ∧
    (∀ s c t, DFA.advance dfa s c = Some t →
       ∃ s' t', mapping !! s = Some s' ∧ mapping !! t = Some t' ∧
                DFA.advance dfa' s' c = Some t') ∧
    (∀ s' c t', DFA.advance dfa' s' c = Some t' →
       ∃ s t, mapping !! s = Some s' ∧ mapping !! t = Some t' ∧
              DFA.advance dfa s c = Some t) ∧
    (∀ n n', mapping !! n = Some n' →
       DFA.matchNodeNames dfa' !! n' = DFA.matchNodeNames dfa !! n).
Proof. apply minimizeDFA_mapping. Qed.

(** On a text that the argument of [minimizeDFA] can walk from a node
    [start], the minimised DFA started at [mapping[start]] matches what the
    argument matches from [start]. *)
Theorem minimized_dfa_matches_from_renumbered_start dfa' start text :
  minimizeDFA dfa = Ok dfa' →
  start ∈ DFA.allNodes dfa →
  is_Some (DFA.run dfa start text) →
  ∃ mapping start', mapping_of dfa = Ok mapping ∧ mapping !! start = Some start' ∧
    match_at dfa' start' text = match_at dfa start text.
Proof.
  intros (mapping & Hmap & Htotal & Hstep & _ & Hnames)%minimizeDFA_mapping Hstart [t Hrun].
  destruct (Htotal start) as [start' Hstart']; [set_solver|].
  exists mapping, start'. split_and!; [done..|].
  destruct (run_renumbered dfa' mapping text start start' t Hstep Hstart' Hrun)
    as (t' & Ht' & Hrun').
  unfold match_at. rewrite Hrun, Hrun'. simpl. by apply Hnames.
Qed.

Lemma foldl_map_edge_dom (mapping : gmap nat nat) new_src edges : ∀ acc t,
  new_src ∈ dom acc →
  foldl (map_edge mapping new_src) (Ok acc) edges = Ok t → dom t = dom acc.
Proof.
  induction edges as [|[c0 d0] edges IH]; intros acc t Hsrc; cbn [foldl].
  - by intros [= <-].
  - destruct (mapping !! d0) as [new_dst|] eqn:Hmap.
    + destruct (map_edge_cases mapping new_src acc c0 d0 new_dst Hmap)
        as [[_ ->]|[[_ ->]|[_ ->]]].
      * intros Hfold. apply IH in Hfold; [|rewrite dom_set_edge; set_solver].
        rewrite Hfold, dom_set_edge. set_solver.
      * by apply IH.
      * by rewrite foldl_map_edge_Err.
    + unfold map_edge at 2. simpl. unfold getitem. rewrite Hmap. simpl.
      by rewrite foldl_map_edge_Err.
Qed.

(** The keys of the new transitions are the new nodes of the old keys. *)
Lemma foldl_map_node_dom (mapping : gmap nat nat) entries : ∀ acc t,
  foldl (map_node mapping) (Ok acc) entries = Ok t →
  ∀ k, k ∈ dom t ↔
       k ∈ dom acc ∨ ∃ src (d : gmap Z nat), (src, d) ∈ entries ∧ mapping !! src = Some k.
Proof.
  induction entries as [|[node0 d0] entries IH]; intros acc t; cbn [foldl].
  - intros [= <-] k. split; [by left|]. intros [?|(? & ? & Hin & _)]; [done|].
    by apply elem_of_nil in Hin.
  - unfold map_node at 2. simpl. unfold getitem.
    destruct (mapping !! node0) as [new_src|] eqn:Hsrc; simpl;
      [|by rewrite foldl_map_node_Err].
    destruct (foldl (map_edge mapping new_src) (Ok (touch new_src acc)) (items d0))
      as [t1|e|] eqn:Hedges.
    + apply foldl_map_edge_dom in Hedges; [|rewrite dom_touch; set_solver].
      intros Hfold k. rewrite (IH _ _ Hfold k), Hedges, dom_touch. split.
      * intros [[->%elem_of_singleton|?]%elem_of_union|(src & d & Hin & Hk)].
        -- right. exists node0, d0. split; [by left|done].
        -- by left.
        -- right. exists src, d. split; [by right|done].
      * intros [?|(src & d & [[= -> ->]|Hin]%elem_of_cons & Hk)].
        -- left. set_solver.
        -- left. assert (k = new_src) as -> by congruence. set_solver.
        -- right. by exists src, d.
    + by rewrite foldl_map_node_Err.
    + intros Hfold. exfalso. revert Hfold. clear.
      induction entries as [|entry entries IH]; cbn [foldl]; [done|]. apply IH.
Qed.

Lemma omap_length_le {B C} (f : B → option C) (l : list B) :
  length (omap f l) ≤ length l.
Proof.
  induction l as [|x l IH]; [done|]. cbn [omap list_omap]. destruct (f x); simpl; lia.
Qed.

(** [minimizeDFA] keeps every match node apart: the initial partition puts
    each match node in a set of its own, and no other node is ever given the
    new node of a match node. *)
Theorem minimizeDFA_keeps_match_nodes_apart mapping a b j :
  mapping_of dfa = Ok mapping →
  a ∈ DFA.matchNodes dfa →
  mapping !! a = Some j → mapping !! b = Some j → a = b.
Proof.
  unfold mapping_of. destruct refine_partition_Ok as (st & -> & Hinv & _). simpl.
  intros [= <-]. by apply (renumber_match_inj dfa).
Qed.

(** The minimised DFA has at most as many nodes with a dictionary of edges
    as its argument. *)
Theorem minimizeDFA_does_not_grow dfa' :
  minimizeDFA dfa = Ok dfa' →
  size (DFA.allSrcNodes dfa') ≤ size (DFA.allSrcNodes dfa).
Proof.
  destruct refine_partition_Ok as (st & Hst & Hinv & Hdom).
  unfold minimizeDFA, minimizeDFA_bounded. rewrite Hst. simpl.
  intros (t & Ht & (names & _ & [= <-])%result_bind_Ok)%result_bind_Ok.
  unfold DFA.allSrcNodes. simpl.
  pose proof (foldl_map_node_dom _ _ _ _ Ht) as Hkeys.
  set (image := omap (renumber (parts st) !!.) (elements (dom (DFA.transitions dfa)))).
  assert (dom t ⊆ list_to_set image) as Hsub.
  { intros k [Hk|(src & d & Hin%elem_of_items & Hk)]%Hkeys; [set_solver|].
    apply elem_of_list_to_set, list_elem_of_omap. exists src. split; [|done].
    apply elem_of_elements, elem_of_dom. by eexists. }
  apply subseteq_size in Hsub. etrans; [done|].
  etrans; [apply size_list_to_set_le|].
  etrans; [apply omap_length_le|]. done.
Qed.

End renumbering.

(** * The nodes of the fat DFA *)

Section gen_nodes.
Context `{SetOrder}.
Variable nfa : NFA.t.










Lemma elem_of_allDstNodes {A} (dfa : DFA.t A) m :
  m ∈ DFA.allDstNodes dfa ↔ ∃ n c, DFA.advance dfa n c = Some m.
Proof.
  unfold DFA.allDstNodes, DFA.advance. rewrite elem_of_union_list. split.
  - intros (X & (n & -> & Hn%elem_of_elements)%list_elem_of_fmap & Hm).
    unfold DFA.dstNodes in Hm.
    destruct (DFA.transitions dfa !! n) as [d|] eqn:Hd; [|set_solver].
    apply elem_of_list_to_set, list_elem_of_fmap in Hm as ([c m'] & -> & Hc).
    apply elem_of_map_to_list in Hc. exists n, c. apply lookup2_Some. by exists d.
  - intros (n & c & (d & Hd & Hc)%lookup2_Some).
    exists (DFA.dstNodes dfa n). split.
    + apply list_elem_of_fmap. exists n. split; [done|].
      apply elem_of_elements, elem_of_dom. by eexists.
    + unfold DFA.dstNodes. rewrite Hd. apply elem_of_list_to_set, list_elem_of_fmap.
      exists (c, m). split; [done|]. by apply elem_of_map_to_list.
Qed.





Lemma invalid_name dfa :
  gen_dfa nfa = Ok dfa →
  DFA.matchNodeNames dfa !! 1 = (λ name, {[name]}) <$> NFA.matchNodeNames nfa !! 1.
Proof.
  intros (st & Hinv & HR & Hinvalid & Hstart & ->)%gen_dfa_bounded_Ok. simpl.
  rewrite (gen_names_lookup nfa _ {[1]} 1);
    [|by apply (inv_inj _ _ _ _ Hinv)|by apply (inv_invalid _ _ _ _ Hinv)].
  assert (NFA.names_of nfa {[1]} =
          match NFA.matchNodeNames nfa !! 1 with
          | Some name => {[name]}
          | None => ∅
          end) as ->.
  { apply set_eq. intros name. rewrite elem_of_names_of.
    destruct (NFA.matchNodeNames nfa !! 1) as [name1|] eqn:Hname.
    - rewrite elem_of_singleton. split.
      + intros (n & ->%elem_of_singleton & Hn). congruence.
      + intros ->. exists 1. split; [set_solver|done].
    - split; [|set_solver]. intros (n & ->%elem_of_singleton & Hn). congruence. }
  destruct (NFA.matchNodeNames nfa !! 1) as [name1|]; simpl.
  - rewrite decide_False; [done|]. set_solver.
  - by rewrite decide_True.
Qed.











End gen_nodes.

(** * The simulation of the NFA *)

Section nfa_simulation.
Variable nfa : NFA.t.

(** For every order in which Python pops and iterates sets,
    [advance_empties(state)] is the set of nodes reachable from [state] by
    empty-symbol transitions, so it contains [state], and [advance(state,
    byte)] is the set of nodes reachable by one transition on [byte] followed
    by empty-symbol transitions. *)
Theorem nfa_step_is_closure `{SetOrder} (state : gset nat) (byte : Z) (m : nat) :
  (m ∈ NFA.advance_empties nfa state ↔ eps_closure nfa state m) ∧
  state ⊆ NFA.advance_empties nfa state ∧
  (m ∈ NFA.advance nfa state byte ↔
     ∃ k, byte_step nfa state byte k ∧ rtc (eps_step nfa) k m).
Proof.
  split_and!.
  - apply elem_of_advance_empties.
  - apply advance_empties_extensive.
  - apply elem_of_advance.
Qed.

Lemma advance_empties_order (O1 O2 : SetOrder) state :
  @NFA.advance_empties O1 nfa state = @NFA.advance_empties O2 nfa state.
Proof. apply set_eq. intros m. by rewrite !elem_of_advance_empties. Qed.

Lemma advance_order (O1 O2 : SetOrder) state byte :
  @NFA.advance O1 nfa state byte = @NFA.advance O2 nfa state byte.
Proof. apply set_eq. intros m. by rewrite !elem_of_advance. Qed.

(** The order in which Python pops and iterates sets, which the language
    leaves open, does not change what the NFA computes: [advance_empties],
    [advance], [match] and [validate] return the same for any two orders. *)
Theorem nfa_results_ignore_set_order (O1 O2 : SetOrder) :
  (∀ state, @NFA.advance_empties O1 nfa state = @NFA.advance_empties O2 nfa state) ∧
  (∀ state byte, @NFA.advance O1 nfa state byte = @NFA.advance O2 nfa state byte) ∧
  (∀ text, @NFA.match_ O1 nfa text = @NFA.match_ O2 nfa text) ∧
  @NFA.validate O1 nfa = @NFA.validate O2 nfa.
Proof.
  split_and!.
  - apply advance_empties_order.
  - apply advance_order.
  - intros text. unfold NFA.match_, NFA.run.
    rewrite (advance_empties_order O1 O2).
    assert (∀ s, foldl (@NFA.advance O1 nfa) s text = foldl (@NFA.advance O2 nfa) s text)
      as ->; [|done].
    induction text as [|b text IH]; intros s; cbn [foldl]; [done|].
    by rewrite IH, (advance_order O1 O2).
  - unfold NFA.validate. by rewrite (advance_empties_order O1 O2).
Qed.

(** Once the simulation state is empty it stays empty: a text whose prefix
    leaves no node matches nothing, whatever follows. *)
Theorem nfa_dead_state_matches_nothing `{SetOrder} (text more : list Z) :
  NFA.run nfa text = ∅ → NFA.match_ nfa (text ++ more) = ∅.
Proof.
  intros Hdead. unfold NFA.match_.
  assert (NFA.run nfa (text ++ more) = ∅) as ->.
  { unfold NFA.run in *. rewrite foldl_app, Hdead.
    induction more as [|b more IH]; cbn [foldl]; [done|].
    by rewrite advance_empty. }
  assert (NFA.names_of nfa ∅ = ∅) as ->.
  { apply set_eq. intros name. rewrite elem_of_names_of. set_solver. }
  case_decide; [done|]. apply set_eq. intros name. rewrite elem_of_filter. set_solver.
Qed.

End nfa_simulation.

(** * More on the runtime *)

Section lexer_calls.
Variable cls : LexerClass.

(** What the matching loop finds: how far it walks, and the longest prefix
    that ends in a match node. *)
Lemma scan_walk transitions kinds rest : ∀ state p kind e p' kind' e',
  scan transitions kinds rest state p kind e = (p', kind', e') →
  is_Some (walk transitions state (take (p' - p) rest)) ∧
  (p' - p = length rest ∨ walk transitions state (take (S (p' - p)) rest) = None) ∧
  (∀ n s k, 0 < n ≤ length rest →
     walk transitions state (take n rest) = Some s → kinds !! s = Some k →
     ∃ q, e' = Some q ∧ p + n ≤ q) ∧
  (e' = e ∧ kind' = kind ∨
   ∃ q s, e' = Some q ∧ p < q ∧
     walk transitions state (take (q - p) rest) = Some s ∧ kinds !! s = Some kind').
Proof.
  induction rest as [|byte rest IH]; intros state p kind e p' kind' e' Hscan;
    simpl in Hscan.
  - injection Hscan as <- <- <-. rewrite Nat.sub_diag. simpl.
    split_and!; [done|by left| |by left]. intros n s k Hn. lia.
  - destruct (lookup2 transitions state byte) as [state'|] eqn:Hstep.
    + assert (p < p') as Hlt.
      { destruct (kinds !! state'); apply scan_bounds in Hscan; lia. }
      replace (p' - p) with (S (p' - S p)) by lia. cbn [take walk]. rewrite Hstep.
      destruct (kinds !! state') as [k'|] eqn:Hkind.
      * pose proof (scan_bounds _ _ _ _ _ _ _ _ _ _ Hscan) as [_ Hend].
        apply IH in Hscan as (Hwalk & Hstop & Hlongest & Hfound).
        split_and!; [done| |..].
        -- destruct Hstop as [->|?]; [by left|by right].
        -- intros [|n] s k Hn; [lia|]. cbn [take walk]. rewrite Hstep.
           destruct n as [|n].
           ++ destruct Hend as [[-> _]|(q & -> & Hq)]; intros _ _; eexists; split; eauto; lia.
           ++ intros Hs Hk. destruct (Hlongest (S n) s k) as (q & -> & Hq); [simpl in Hn; lia|done..|].
              exists q. split; [done|lia].
        -- right. destruct Hfound as [[-> ->]|(q & s & -> & Hq & Hs & Hk)].
           ++ exists (S p), state'. split_and!; [done|lia| |done].
              replace (S p - p) with 1 by lia. cbn [take walk]. by rewrite Hstep.
           ++ exists q, s. split_and!; [done|lia| |done].
              replace (q - p) with (S (q - S p)) by lia. cbn [take walk]. by rewrite Hstep.
      * apply IH in Hscan as (Hwalk & Hstop & Hlongest & Hfound).
        split_and!; [done| |..].
        -- destruct Hstop as [->|?]; [by left|by right].
        -- intros [|n] s k Hn; [lia|]. cbn [take walk]. rewrite Hstep.
           destruct n as [|n].
           ++ simpl. intros [= <-] Hk. congruence.
           ++ intros Hs Hk. destruct (Hlongest (S n) s k) as (q & -> & Hq); [simpl in Hn; lia|done..|].
              exists q. split; [done|lia].
        -- destruct Hfound as [?|(q & s & -> & Hq & Hs & Hk)]; [by left|right].
           exists q, s. split_and!; [done|lia| |done].
           replace (q - p) with (S (q - S p)) by lia. cbn [take walk]. by rewrite Hstep.
    + injection Hscan as <- <- <-. rewrite Nat.sub_diag. cbn [take walk]. rewrite Hstep.
      split_and!; [done|by right| |by left].
      intros [|n] s k Hn; [lia|]. cbn [take walk]. by rewrite Hstep.
Qed.

(** The outcomes of one call of [__next__], case by case. *)
Lemma next_cases self :
  (pos self = length (text self) ∧ next cls self = StopIteration) ∨
  (pos self ≠ length (text self) ∧ stack self = [] ∧ next cls self = Raise IndexError) ∨
  (pos self ≠ length (text self) ∧
   ∃ mode pop_kind, last (stack self) = Some (mode, pop_kind) ∧
     ((mode_data cls !! mode = None ∧ next cls self = Raise AssertionError) ∨
      ∃ mode_start transitions kinds p' kind e',
        mode_data cls !! mode = Some (mode_start, transitions, kinds) ∧
        scan transitions kinds (drop (pos self) (text self)) mode_start (pos self)
             "incomplete" None = (p', kind, e') ∧
        ((pos self < default p' e' ∧
          next cls self =
            Return (Token.mk kind (pos self) (default p' e'))
                   {| text := text self; pos := default p' e';
                      stack := update_stack cls mode pop_kind kind (stack self) |}) ∨
         (¬ pos self < default p' e' ∧ next cls self = Raise AssertionError)))).
Proof.
  unfold next. case_decide as Hpos; [by left|right].
  destruct (last (stack self)) as [[mode pop_kind]|] eqn:Hlast.
  - right. split; [done|]. exists mode, pop_kind. split; [done|].
    destruct (mode_data cls !! mode) as [[[mode_start transitions] kinds]|]; [|by left].
    right.
    destruct (scan transitions kinds (drop (pos self) (text self)) mode_start (pos self)
                "incomplete" None) as [[p' kind] e'] eqn:Hscan.
    exists mode_start, transitions, kinds, p', kind, e'. split_and!; [done..|].
    apply scan_bounds in Hscan as [_ Hend].
    destruct e' as [q|]; simpl.
    + case_decide; [by left|by right].
    + destruct Hend as [[_ ->]|(q & ? & _)]; [|done].
      rewrite decide_True by done. case_decide; [by left|by right].
  - left. split; [done|]. apply last_None in Hlast. done.
Qed.

(** When the start node of the mode has no transition on the current byte,
    the matching loop stops where it started. *)
Lemma scan_stuck transitions kinds rest state p kind e :
  (∀ byte, rest !! 0 = Some byte → lookup2 transitions state byte = None) →
  scan transitions kinds rest state p kind e = (p, kind, e).
Proof.
  destruct rest as [|byte rest]; simpl; [done|]. intros Hstuck.
  by rewrite (Hstuck byte).
Qed.

(** [__next__] raises only through its assertions, and never through the
    assertion on [kind]: [IndexError] on an empty stack, [AssertionError] when
    the mode on top of the stack has no data or when the start node of the mode
    has no transition on the current byte, which would give an empty token. *)
Theorem next_raises_iff self :
  (next cls self = Raise IndexError ↔
     pos self ≠ length (text self) ∧ stack self = []) ∧
  (next cls self = Raise AssertionError ↔
     pos self ≠ length (text self) ∧
     ∃ mode pop_kind, last (stack self) = Some (mode, pop_kind) ∧
       match mode_data cls !! mode with
       | None => True
       | Some (mode_start, transitions, _) =>
         ∀ byte, text self !! pos self = Some byte →
                 lookup2 transitions mode_start byte = None
       end) ∧
  next cls self ≠ Raise KeyError ∧ next cls self ≠ Raise SystemExit.
Proof.
  destruct (next_cases self)
    as [[Hpos Hnext]|[(Hpos & Hstack & Hnext)|(Hpos & mode & pop_kind & Hlast & Hmode)]].
  - rewrite Hnext. split_and!; try done; split; try done; by intros [? _].
  - rewrite Hnext, Hstack. split_and!; try done.
    split; [done|]. intros (_ & mode & pop_kind & Hlast & _). done.
  - assert (stack self ≠ []) as Hne by (intros Heq; by rewrite Heq in Hlast).
    destruct Hmode as [[Hdata Hnext]|
      (mode_start & transitions & kinds & p' & kind & e' & Hdata & Hscan & Hend)].
    + rewrite Hnext. split_and!; try done; [split; [done|by intros [_ ?]]|].
      split; [|done]. intros _. split; [done|]. exists mode, pop_kind.
      by rewrite Hdata.
    + assert ((∀ byte, text self !! pos self = Some byte →
                       lookup2 transitions mode_start byte = None) ↔
              ¬ pos self < default p' e') as Hstuck.
      { split.
        - intros Hno. rewrite scan_stuck in Hscan.
          + injection Hscan as <- <- <-. simpl. lia.
          + intros byte. rewrite lookup_drop, Nat.add_0_r. apply Hno.
        - intros Hend' byte Hbyte.
          destruct (lookup2 transitions mode_start byte) as [state'|] eqn:Hstep; [|done].
          exfalso. apply Hend'.
          rewrite (drop_S _ byte _ Hbyte) in Hscan.
          pose proof (scan_progress _ _ _ _ _ _ _ _ _ _ _ _ Hstep Hscan) as Hlt.
          apply scan_bounds in Hscan as [_ [[-> _]|(q & -> & Hq)]]; simpl; lia. }
      destruct Hend as [[Hlt Hnext]|[Hge Hnext]]; rewrite Hnext.
      * split_and!; try done; split; try done.
        -- by intros [_ ?].
        -- intros (_ & mode' & pop_kind' & Hlast' & Hdata').
           rewrite Hlast in Hlast'. injection Hlast' as <- <-.
           rewrite Hdata in Hdata'. by apply Hstuck in Hdata'.
      * split_and!; try done; [split; [done|by intros [_ ?]]|].
        split; [|done]. intros _. split; [done|]. exists mode, pop_kind.
        split; [done|]. rewrite Hdata. by apply Hstuck.
Qed.

(** Maximal munch.  The token that [__next__] returns ends after the
    longest non-empty prefix of the remaining text on which the mode's
    transitions reach a match node, and has the kind of that node; if no
    prefix reaches a match node, it has kind ["incomplete"] and ends where
    the walk of the transitions stops. *)
Theorem token_is_longest_match self token self' mode pop_kind
    mode_start transitions kinds :
  next cls self = Return token self' →
  last (stack self) = Some (mode, pop_kind) →
  mode_data cls !! mode = Some (mode_start, transitions, kinds) →
  let rest := drop (pos self) (text self) in
  let len := Token.end_ token - Token.pos token in
  (∀ n state, len < n ≤ length rest →
     walk transitions mode_start (take n rest) = Some state → kinds !! state = None) ∧
  ((∃ state, walk transitions mode_start (take len rest) = Some state ∧
             kinds !! state = Some (Token.kind token)) ∨
   (Token.kind token = "incomplete" ∧
    (∀ n state, 0 < n ≤ length rest →
       walk transitions mode_start (take n rest) = Some state → kinds !! state = None) ∧
    is_Some (walk transitions mode_start (take len rest)) ∧
    (len = length rest ∨ walk transitions mode_start (take (S len) rest) = None))).
Proof.
  intros Hnext Hlast Hdata rest len.
  destruct (next_cases self)
    as [[_ Hnext']|[(_ & _ & Hnext')|(_ & mode' & pop_kind' & Hlast' & Hmode)]];
    [congruence..|].
  rewrite Hlast in Hlast'. injection Hlast' as <- <-.
  destruct Hmode as [[Hdata' _]|
    (mode_start' & transitions' & kinds' & p' & kind & e' & Hdata' & Hscan & Hend)];
    [congruence|].
  rewrite Hdata in Hdata'. injection Hdata' as <- <- <-.
  destruct Hend as [[Hlt Hnext']|[_ Hnext']]; [|congruence].
  rewrite Hnext in Hnext'. injection Hnext' as -> _.
  subst len. simpl. fold rest in Hscan.
  apply scan_walk in Hscan as (Hwalk & Hstop & Hlongest & Hfound).
  destruct Hfound as [[-> ->]|(q & s & -> & Hq & Hs & Hk)]; simpl in *.
  - assert (∀ n state, 0 < n ≤ length rest →
              walk transitions mode_start (take n rest) = Some state →
              kinds !! state = None) as Hnone.
    { intros n state Hn Hs. destruct (kinds !! state) as [k|] eqn:Hk; [|done].
      by destruct (Hlongest n state k Hn Hs Hk) as (q & ? & _). }
    split; [|by right].
    intros n state Hn. apply Hnone. lia.
  - split; [|left; by exists s].
    intros n state Hn Hstate. destruct (kinds !! state) as [k|] eqn:Hkind; [|done].
    destruct (Hlongest n state k) as (q' & [= <-] & Hq'); [lia|done..|]. lia.
Qed.

(** What a returned token changes, for a lexer whose stack has the [main]
    frame at its bottom. *)
Lemma next_Return self token self' :
  next cls self = Return token self' →
  stack_ok cls (stack self) → pos self ≤ length (text self) →
  Token.pos token = pos self ∧
  pos self < Token.end_ token ≤ length (text self) ∧
  pos self' = Token.end_ token ∧ text self' = text self ∧
  stack_ok cls (stack self').
Proof.
  intros Hnext Hstack Hpos.
  destruct (next_cases self)
    as [[_ Hnext']|[(_ & _ & Hnext')|(_ & mode & pop_kind & Hlast & Hmode)]];
    [congruence..|].
  destruct Hmode as [[_ Hnext']|
    (mode_start & transitions & kinds & p' & kind & e' & Hdata & Hscan & Hend)];
    [congruence|].
  destruct Hend as [[Hlt Hnext']|[_ Hnext']]; [|congruence].
  rewrite Hnext in Hnext'. injection Hnext' as -> ->. simpl.
  apply scan_bounds in Hscan as [Hp' Hend]. rewrite length_drop in Hp'.
  split_and!; [done|done| |done|done|by apply update_stack_ok].
  destruct Hend as [[-> _]|(q & -> & Hq)]; simpl; lia.
Qed.

Lemma next_Raise self e :
  next cls self = Raise e → stack_ok cls (stack self) →
  e = AssertionError ∧ pos self ≠ length (text self).
Proof.
  intros Hnext (pushed & Hstack & _).
  destruct (next_cases self)
    as [[_ Hnext']|[(_ & Hempty & _)|(Hpos & mode & pop_kind & _ & Hmode)]].
  - congruence.
  - by rewrite Hstack in Hempty.
  - split; [|done].
    destruct Hmode as [[_ ?]|(? & ? & ? & ? & ? & ? & _ & _ & [[_ ?]|[_ ?]])]; congruence.
Qed.

Lemma tokens_prefix fuel : ∀ self,
  stack_ok cls (stack self) → pos self ≤ length (text self) →
  length (text self) - pos self < fuel →
  ∃ toks q, tiles (pos self) toks q ∧
    ((tokens cls fuel self = (toks, Exhausted) ∧ q = length (text self)) ∨
     (tokens cls fuel self = (toks, Raised AssertionError) ∧ q < length (text self))).
Proof.
  induction fuel as [|fuel IH]; intros self Hstack Hpos Hfuel; [lia|].
  cbn [tokens]. destruct (next cls self) as [|token self'|e] eqn:Hnext.
  - exists [], (pos self). split; [done|]. left. split; [done|].
    destruct (next_cases self) as [[? _]|[(_ & _ & ?)|(_ & mode & pop_kind & _ & Hmode)]];
      [done|congruence|].
    destruct Hmode as [[_ ?]|(? & ? & ? & ? & ? & ? & _ & _ & [[_ ?]|[_ ?]])]; congruence.
  - destruct (next_Return self token self' Hnext Hstack Hpos)
      as (Htok & Hend & Hpos' & Htext & Hstack').
    destruct (IH self') as (toks & q & Htiles & Hres); [done|rewrite Htext; lia..|].
    rewrite Htext in Hres.
    exists (token :: toks), q. split.
    + simpl. rewrite Htok. rewrite Hpos' in Htiles. split_and!; [done|lia|done].
    + destruct Hres as [[-> ->]|[-> ?]]; [by left|by right].
  - exists [], (pos self). split; [done|]. right.
    destruct (next_Raise self e Hnext Hstack) as [-> ?]. split; [done|lia].
Qed.

(** For every lexer class and every text, iterating the lexer ends within one
    call per byte plus one: it yields tokens that tile a prefix of the text,
    none of them empty, and then stops at the end of the text or raises
    [AssertionError] before it.  The [main] frame is never popped, so
    [self.stack[-1]] never raises. *)
Theorem lex_tiles_a_prefix source_text :
  ∃ toks q, tiles 0 toks q ∧
    ((lex cls source_text = (toks, Exhausted) ∧ q = length source_text) ∨
     (lex cls source_text = (toks, Raised AssertionError) ∧ q < length source_text)).
Proof.
  unfold lex.
  destruct (tokens_prefix (S (length source_text)) (init source_text))
    as (toks & q & Htiles & Hres); simpl; [|lia..|by exists toks, q].
  exists []. by split.
Qed.

End lexer_calls.

(** * The combined DFA *)

Section combine_facts.
Context `{SetOrder} {A : Type}.

Lemma remap_of_lookup base nodes n k :
  NoDup nodes →
  remap_of base nodes !! n = Some k ↔ ∃ i, nodes !! i = Some n ∧ k = base + i.
Proof.
  intros Hdup. unfold remap_of. rewrite <- elem_of_list_to_map.
  - rewrite list_elem_of_lookup. split.
    + intros (i & [Hn Hk%lookup_seq]%lookup_zip_Some). exists i. split; [done|]. lia.
    + intros (i & Hn & ->). exists i. apply lookup_zip_Some. split; [done|].
      apply lookup_seq. split; [done|]. by apply lookup_lt_Some in Hn.
  - rewrite fst_zip; [done|]. by rewrite length_seq.
Qed.

Lemma NoDup_sorted_nodes (s : gset nat) : NoDup (sorted_nodes s).
Proof. unfold sorted_nodes. rewrite merge_sort_Permutation. apply NoDup_elements. Qed.

Lemma remap_nodes base (s : gset nat) n k :
  remap_of base (sorted_nodes s) !! n = Some k →
  n ∈ s ∧ base ≤ k < base + length (sorted_nodes s).
Proof.
  intros (i & Hi & ->)%remap_of_lookup; [|apply NoDup_sorted_nodes]. split.
  - eapply elem_of_sorted_nodes, list_elem_of_lookup_2, Hi.
  - apply lookup_lt_Some in Hi. lia.
Qed.

Lemma remap_total base (s : gset nat) n :
  n ∈ s → is_Some (remap_of base (sorted_nodes s) !! n).
Proof.
  intros [i Hi]%elem_of_sorted_nodes%list_elem_of_lookup_1.
  exists (base + i). apply remap_of_lookup; [apply NoDup_sorted_nodes|]. by exists i.
Qed.

Lemma remap_inj base (s : gset nat) a b k :
  remap_of base (sorted_nodes s) !! a = Some k →
  remap_of base (sorted_nodes s) !! b = Some k → a = b.
Proof.
  intros (i & Hi & ->)%remap_of_lookup (j & Hj & Hij)%remap_of_lookup;
    try apply NoDup_sorted_nodes.
  assert (i = j) as -> by lia. congruence.
Qed.

Lemma update_remapped_Err {V W} (remap : gmap nat nat) (g : V → result W) e pairs :
  foldl (λ (acc : result (gmap nat W)) '(k, v),
           m ← acc; k' ← getitem remap k; w ← g v; Ok (<[k' := w]> m))
        (Err e) pairs = Err e.
Proof. induction pairs as [|[k v] pairs IH]; cbn [foldl]; [done|]. apply IH. Qed.

Lemma update_remapped_Timeout {V W} (remap : gmap nat nat) (g : V → result W) pairs :
  foldl (λ (acc : result (gmap nat W)) '(k, v),
           m ← acc; k' ← getitem remap k; w ← g v; Ok (<[k' := w]> m))
        Timeout_ pairs = Timeout_.
Proof. induction pairs as [|[k v] pairs IH]; cbn [foldl]; [done|]. apply IH. Qed.

(** [update] leaves the keys that no pair is mapped to, and gives every
    pair's key its value, when [remap] maps distinct keys apart. *)
Lemma update_remapped_Ok {V W} remap (g : V → result W) pairs : ∀ target target',
  (∀ a b k, remap !! a = Some k → remap !! b = Some k → a = b) →
  NoDup pairs.*1 →
  update_remapped remap g target pairs = Ok target' →
  (∀ k, (∀ a v, (a, v) ∈ pairs → remap !! a ≠ Some k) → target' !! k = target !! k) ∧
  (∀ a v, (a, v) ∈ pairs →
     ∃ k w, remap !! a = Some k ∧ g v = Ok w ∧ target' !! k = Some w).
Proof.
  unfold update_remapped.
  induction pairs as [|[a0 v0] pairs IH]; intros target target' Hinj Hdup; cbn [foldl].
  - intros [= <-]. split; [done|]. intros a v Hin. by apply elem_of_nil in Hin.
  - simpl in Hdup. apply NoDup_cons in Hdup as [Hfresh Hdup].
    simpl. unfold getitem at 2.
    destruct (remap !! a0) as [k0|] eqn:Ha0; simpl;
      [|by rewrite update_remapped_Err].
    destruct (g v0) as [w0|e|] eqn:Hg; simpl;
      [|by rewrite update_remapped_Err|by rewrite update_remapped_Timeout].
    intros (Hkeep & Hall)%IH; [|done..]. split.
    + intros k Hk. rewrite Hkeep.
      * apply lookup_insert_ne. intros <-. by apply (Hk a0 v0); [left|].
      * intros a v Hin. apply (Hk a v). by right.
    + intros a v [[= -> ->]|Hin]%elem_of_cons; [|by apply Hall].
      exists k0, w0. split_and!; [done..|]. rewrite Hkeep; [apply lookup_insert_eq|].
      intros a v Hin Ha. apply Hfresh.
      assert (a = a0) as -> by by eapply Hinj.
      apply list_elem_of_fmap. by exists (a0, v).
Qed.

Lemma remap_trans_dict_Ok (remap : gmap nat nat) (d d' : gmap Z nat) :
  remap_trans_dict remap d = Ok d' →
  ∀ c, d' !! c = d !! c ≫= (remap !!.).
Proof.
  unfold remap_trans_dict.
  assert (∀ l (acc : gmap Z nat) d',
            foldl (λ acc '(c, dst), m ← acc; dst' ← getitem remap dst; Ok (<[c := dst']> m))
                  (Ok acc) l = Ok d' →
            NoDup l.*1 →
            ∀ c, (c ∉ l.*1 → d' !! c = acc !! c) ∧
                 (∀ dst, (c, dst) ∈ l → d' !! c = remap !! dst ∧ is_Some (remap !! dst)))
    as Hgen.
  { induction l as [|[c0 dst0] l IH]; intros acc d0; cbn [foldl].
    - intros [= <-] _ c. split; [done|]. intros dst Hin. by apply elem_of_nil in Hin.
    - simpl. unfold getitem at 2.
      destruct (remap !! dst0) as [dst0'|] eqn:Hdst0; simpl.
      + intros Hfold [Hfresh Hdup]%NoDup_cons c.
        destruct (IH _ _ Hfold Hdup c) as [Hout Hin]. split.
        * intros Hc. rewrite Hout by set_solver. apply lookup_insert_ne. set_solver.
        * intros dst [[= -> ->]|Hdst]%elem_of_cons; [|by apply Hin].
          rewrite Hdst0. split; [|done].
          destruct (IH _ _ Hfold Hdup c0) as [Hout0 _].
          rewrite Hout0 by done. apply lookup_insert_eq.
      + intros Hfold. exfalso. revert Hfold. clear.
        induction l as [|[c dst] l IH]; cbn [foldl]; [done|]. apply IH. }
  intros Hfold c.
  destruct (Hgen _ _ _ Hfold (NoDup_items d) c) as [Hout Hin].
  destruct (d !! c) as [dst|] eqn:Hc; simpl.
  - by apply Hin, elem_of_items.
  - rewrite Hout; [done|].
    intros ([c' dst] & -> & Hcd%elem_of_items)%list_elem_of_fmap. simpl in Hc. congruence.
Qed.

Lemma elem_of_sorted_items {V} (m : gmap nat V) k v :
  (k, v) ∈ NFA.sorted_items m ↔ m !! k = Some v.
Proof.
  unfold NFA.sorted_items. by rewrite merge_sort_Permutation, elem_of_map_to_list.
Qed.

Lemma NoDup_sorted_items {V} (m : gmap nat V) : NoDup (NFA.sorted_items m).*1.
Proof.
  unfold NFA.sorted_items. rewrite merge_sort_Permutation. apply NoDup_fst_map_to_list.
Qed.

End combine_facts.

Section combine_loop_facts.
Context `{SetOrder} {A : Type}.

Lemma embeds_below (dfa : DFA.t A) remap bound
    (T T' : gmap nat (gmap Z nat)) (N N' : gmap nat A) :
  (∀ n k, remap !! n = Some k → k < bound) →
  (∀ k, k < bound → T' !! k = T !! k ∧ N' !! k = N !! k) →
  embeds dfa remap T N → embeds dfa remap T' N'.
Proof.
  intros Hrange Hsame Hemb n n' Hn.
  destruct (Hemb n n' Hn) as [Hedges Hname].
  destruct (Hsame n') as [HT HN]; [by eapply Hrange|].
  split; [|by rewrite HN].
  intros c. rewrite <- Hedges. unfold lookup2. by rewrite HT.
Qed.

Lemma combine_step_spec (st : @combined A) mode_name dfa st' :
  bounded st → combine_step st (mode_name, dfa) = Ok st' →
  let remap := remap_of (c_indexer st) (sorted_nodes (DFA.allNodes dfa)) in
  bounded st' ∧ c_indexer st ≤ c_indexer st' ∧
  (∀ k, k < c_indexer st →
     c_transitions st' !! k = c_transitions st !! k ∧
     c_matchNodeNames st' !! k = c_matchNodeNames st !! k) ∧
  (∀ n k, remap !! n = Some k → k < c_indexer st') ∧
  embeds dfa remap (c_transitions st') (c_matchNodeNames st') ∧
  ∃ mode, c_modes st' = c_modes st ++ [mode] ∧ mode_of (mode_name, dfa) remap mode.
Proof.
  intros [HboundT HboundN]. unfold combine_step.
  set (nodes := sorted_nodes (DFA.allNodes dfa)).
  set (remap := remap_of (c_indexer st) nodes).
  intros (start & Hstart%getitem_Ok & (invalid & Hinvalid%getitem_Ok &
          (invalid_name & Hname%getitem_Ok & (T' & HT & (N' & HN & [= <-])
          %result_bind_Ok)%result_bind_Ok)%result_bind_Ok)%result_bind_Ok)%result_bind_Ok.
  simpl.
  assert (∀ a b k, remap !! a = Some k → remap !! b = Some k → a = b) as Hinj.
  { intros a b k. apply remap_inj. }
  assert (∀ n k, remap !! n = Some k →
            c_indexer st ≤ k < c_indexer st + length nodes) as Hrange.
  { intros n k Hn. by apply remap_nodes in Hn as [_ ?]. }
  apply update_remapped_Ok in HT as [HTkeep HTall];
    [|done|apply NoDup_sorted_items].
  apply update_remapped_Ok in HN as [HNkeep HNall];
    [|done|apply NoDup_sorted_items].
  assert (∀ k, k < c_indexer st →
            T' !! k = c_transitions st !! k ∧ N' !! k = c_matchNodeNames st !! k)
    as Hbelow.
  { intros k Hk. split.
    - apply HTkeep. intros a v _ Ha%Hrange. lia.
    - apply HNkeep. intros a v _ Ha%Hrange. lia. }
  split_and!.
  - split; simpl.
    + intros k [row Hrow]%elem_of_dom.
      destruct (decide (k < c_indexer st + length nodes)) as [|Hge]; [done|].
      rewrite HTkeep in Hrow.
      * assert (k < c_indexer st); [|lia]. apply HboundT, elem_of_dom. by eexists.
      * intros a v _ Ha%Hrange. lia.
    + intros k [name Hk]%elem_of_dom.
      destruct (decide (k < c_indexer st + length nodes)) as [|Hge]; [done|].
      rewrite HNkeep in Hk.
      * assert (k < c_indexer st); [|lia]. apply HboundN, elem_of_dom. by eexists.
      * intros a v _ Ha%Hrange. lia.
  - lia.
  - done.
  - intros n k Hn%Hrange. lia.
  - intros n n' Hn. split.
    + intros c. unfold DFA.advance, lookup2 at 2.
      destruct (DFA.transitions dfa !! n) as [d|] eqn:Hd; simpl.
      * destruct (HTall n d) as (k & d' & Hk & Hd' & Hrow); [by apply elem_of_sorted_items|].
        assert (k = n') as -> by congruence.
        unfold lookup2. rewrite Hrow. simpl. by apply remap_trans_dict_Ok.
      * unfold lookup2. rewrite HTkeep.
        -- destruct (c_transitions st !! n') as [row|] eqn:Hrow; [|done].
           assert (n' < c_indexer st) by (apply HboundT, elem_of_dom; by eexists).
           apply Hrange in Hn. lia.
        -- intros a v Hav%elem_of_sorted_items Ha.
           assert (a = n) as -> by by eapply Hinj. congruence.
    + destruct (DFA.matchNodeNames dfa !! n) as [name|] eqn:Hnm.
      * destruct (HNall n name) as (k & w & Hk & [= <-] & Hw); [by apply elem_of_sorted_items|].
        congruence.
      * rewrite HNkeep.
        -- destruct (c_matchNodeNames st !! n') as [name|] eqn:Hnm'; [|done].
           assert (n' < c_indexer st) by (apply HboundN, elem_of_dom; by eexists).
           apply Hrange in Hn. lia.
        -- intros a v Hav%elem_of_sorted_items Ha.
           assert (a = n) as -> by by eapply Hinj. congruence.
  - eexists. split; [done|]. by split_and!.
Qed.

Lemma combine_fold_Err e (pairs : list (string * DFA.t A)) :
  foldl (λ acc pair, st ← acc; combine_step st pair) (Err e) pairs = Err e.
Proof. induction pairs as [|pair pairs IH]; cbn [foldl]; [done|]. apply IH. Qed.

Lemma combine_fold_Timeout (pairs : list (string * DFA.t A)) :
  foldl (λ acc pair, st ← acc; combine_step st pair) Timeout_ pairs = Timeout_.
Proof. induction pairs as [|pair pairs IH]; cbn [foldl]; [done|]. apply IH. Qed.

(** Every pair gets a mode and a copy of its DFA, in the order of the
    loop, and later pairs leave the copies of earlier ones alone. *)
Lemma combine_fold_spec (pairs : list (string * DFA.t A)) : ∀ st st_f,
  bounded st →
  foldl (λ acc pair, st ← acc; combine_step st pair) (Ok st) pairs = Ok st_f →
  c_indexer st ≤ c_indexer st_f ∧
  (∀ k, k < c_indexer st →
     c_transitions st_f !! k = c_transitions st !! k ∧
     c_matchNodeNames st_f !! k = c_matchNodeNames st !! k) ∧
  ∃ new_modes, c_modes st_f = c_modes st ++ new_modes ∧
    Forall2 (λ pair mode,
               ∃ remap, mode_of pair remap mode ∧
                 (∀ n, n ∈ DFA.allNodes pair.2 → is_Some (remap !! n)) ∧
                 embeds pair.2 remap (c_transitions st_f) (c_matchNodeNames st_f))
            pairs new_modes.
Proof.
  induction pairs as [|[mode_name dfa] pairs IH]; intros st st_f Hbounded; cbn [foldl].
  - intros [= <-]. split_and!; [done..|]. exists []. by rewrite app_nil_r.
  - cbn [mbind result_mbind result_bind].
    destruct (combine_step st (mode_name, dfa)) as [st1|e|] eqn:Hstep;
      [|by rewrite combine_fold_Err|by rewrite combine_fold_Timeout].
    apply combine_step_spec in Hstep
      as (Hbounded1 & Hidx1 & Hbelow1 & Hrange1 & Hemb1 & mode & Hmodes1 & Hmode);
      [|done].
    intros (Hidx & Hbelow & new_modes & Hmodes & Hall)%IH; [|done].
    split_and!.
    + lia.
    + intros k Hk. destruct (Hbelow k) as [-> ->]; [lia|]. by apply Hbelow1.
    + exists (mode :: new_modes). split.
      * by rewrite Hmodes, Hmodes1, <- app_assoc.
      * constructor; [|done].
        exists (remap_of (c_indexer st) (sorted_nodes (DFA.allNodes dfa))).
        split_and!; [done|by apply remap_total|].
        by eapply embeds_below.
Qed.

Lemma insert_sorted_perm {B} (key : B → string) x l : insert_sorted key x l ≡ₚ x :: l.
Proof.
  induction l as [|y l IH]; simpl; [done|].
  destruct (String.leb (key y) (key x)); [|done].
  by rewrite IH, Permutation_swap.
Qed.

Lemma sorted_by_key_perm {B} (key : B → string) l : sorted_by_key key l ≡ₚ l.
Proof.
  unfold sorted_by_key.
  assert (∀ acc, foldl (λ acc x, insert_sorted key x acc) acc l ≡ₚ acc ++ l) as Hgen.
  { induction l as [|x l IH]; intros acc; cbn [foldl]; [by rewrite app_nil_r|].
    rewrite IH, insert_sorted_perm. simpl. apply Permutation_middle. }
  apply Hgen.
Qed.

(** Walks of the copy are the walks of the original, renumbered. *)
Lemma run_embedded (dfa dfa_c : DFA.t A) remap text : ∀ n n',
  (∀ n, n ∈ DFA.allNodes dfa → is_Some (remap !! n)) →
  embeds dfa remap (DFA.transitions dfa_c) (DFA.matchNodeNames dfa_c) →
  remap !! n = Some n' →
  match_at dfa_c n' text = match_at dfa n text.
Proof.
  unfold match_at.
  induction text as [|byte text IH]; intros n n' Htotal Hemb Hn; simpl.
  - by apply Hemb.
  - destruct (Hemb n n' Hn) as [Hedges _].
    unfold DFA.advance at 1. rewrite Hedges.
    destruct (DFA.advance dfa n byte) as [m|] eqn:Hadv; simpl; [|done].
    destruct (Htotal m) as [m' Hm].
    { apply lookup2_Some in Hadv as (d & Hd & Hc). by apply (edge_nodes dfa n d byte m). }
    rewrite Hm. by apply IH.
Qed.

(** The combined DFA matches from a mode's start node what the DFA of the
    mode matches from node 0, and from the mode's invalid node what that DFA
    matches from node 1: [combine_dfas] gives every pair a [Mode] with the
    pair's name and keeps its language. *)
Theorem combined_dfa_matches_each_mode (pairs : list (string * DFA.t A))
    dfa_c modes node_modes mode_name dfa :
  combine_dfas pairs = Ok (dfa_c, modes, node_modes) →
  (mode_name, dfa) ∈ pairs →
  ∃ mode, mode ∈ modes ∧
    Mode.name mode = mode_name ∧
    Mode.incomplete_name mode = incomplete_name mode_name ∧
    DFA.matchNodeNames dfa !! 1 = Some (Mode.invalid_name mode) ∧
    ∀ text,
      match_at dfa_c (Mode.start mode) text = match_at dfa 0 text ∧
      match_at dfa_c (Mode.invalid mode) text = match_at dfa 1 text.
Proof.
  unfold combine_dfas, combine_loop.
  intros (st & Hfold & [= <- <- <-])%result_bind_Ok Hin.
  apply combine_fold_spec in Hfold as (_ & _ & new_modes & Hmodes & Hall).
  2:{ split; simpl; intros k; rewrite dom_empty_L; set_solver. }
  simpl in Hmodes. subst new_modes.
  rewrite <- (sorted_by_key_perm mode_key) in Hin.
  apply list_elem_of_lookup_1 in Hin as [i Hi].
  destruct (Forall2_lookup_l _ _ _ _ _ Hall Hi)
    as (mode & Hmode & remap & (Hname & Hinc & Hstart & Hinvalid & Hiname) & Htotal & Hemb).
  exists mode. simpl in *. split_and!; [by eapply list_elem_of_lookup_2|done..|].
  intros text. split; by apply (run_embedded dfa _ remap).
Qed.

End combine_loop_facts.

Section combine_errors.
Context `{SetOrder} {A : Type}.

Lemma update_remapped_total {V W} (remap : gmap nat nat) (g : V → result W) pairs :
  ∀ target,
  (∀ a v, (a, v) ∈ pairs → is_Some (remap !! a) ∧ ∃ w, g v = Ok w) →
  ∃ target', update_remapped remap g target pairs = Ok target'.
Proof.
  unfold update_remapped.
  induction pairs as [|[a0 v0] pairs IH]; intros target Hall; cbn [foldl]; [by eexists|].
  destruct (Hall a0 v0) as [[k Hk] [w Hw]]; [by left|].
  simpl. unfold getitem at 2. rewrite Hk. simpl. rewrite Hw. simpl.
  apply IH. intros a v Hin. apply Hall. by right.
Qed.

Lemma remap_trans_dict_total (remap : gmap nat nat) (d : gmap Z nat) :
  (∀ c dst, d !! c = Some dst → is_Some (remap !! dst)) →
  ∃ d', remap_trans_dict remap d = Ok d'.
Proof.
  intros Hall. unfold remap_trans_dict.
  assert (∀ l (acc : gmap Z nat),
            (∀ c dst, (c, dst) ∈ l → is_Some (remap !! dst)) →
            ∃ d', foldl (λ acc '(c, dst),
                           m ← acc; dst' ← getitem remap dst; Ok (<[c := dst']> m))
                        (Ok acc) l = Ok d') as Hgen.
  { induction l as [|[c0 dst0] l IH]; intros acc Hl; cbn [foldl]; [by eexists|].
    destruct (Hl c0 dst0) as [k Hk]; [by left|].
    simpl. unfold getitem at 2. rewrite Hk. simpl. apply IH.
    intros c dst Hin. apply (Hl c). by right. }
  apply Hgen. intros c dst Hin%elem_of_items. by apply (Hall c).
Qed.

Lemma combine_step_total (st : @combined A) mode_name dfa :
  combinable dfa → ∃ st', combine_step st (mode_name, dfa) = Ok st'.
Proof.
  intros (H0 & H1 & Hname & Hmatch). unfold DFA.matchNodes in Hname.
  apply elem_of_dom in Hname as [name Hname]. unfold combine_step.
  destruct (remap_total (c_indexer st) _ 0 H0) as [start Hstart].
  destruct (remap_total (c_indexer st) _ 1 H1) as [invalid Hinvalid].
  unfold getitem at 1 2 3. rewrite Hstart, Hinvalid, Hname. simpl.
  destruct (update_remapped_total
              (remap_of (c_indexer st) (sorted_nodes (DFA.allNodes dfa)))
              (remap_trans_dict (remap_of (c_indexer st) (sorted_nodes (DFA.allNodes dfa))))
              (NFA.sorted_items (DFA.transitions dfa)) (c_transitions st)) as [T' ->].
  { intros src d Hd%elem_of_sorted_items. split.
    - apply remap_total. unfold DFA.allNodes, DFA.allSrcNodes.
      apply elem_of_union. left. apply elem_of_dom. by eexists.
    - apply remap_trans_dict_total. intros c dst Hc. apply remap_total.
      by apply (edge_nodes dfa src d c dst). }
  simpl.
  destruct (update_remapped_total
              (remap_of (c_indexer st) (sorted_nodes (DFA.allNodes dfa)))
              (@Ok A)
              (NFA.sorted_items (DFA.matchNodeNames dfa)) (c_matchNodeNames st)) as [N' ->].
  { intros node nm Hd%elem_of_sorted_items. split; [|by eexists].
    apply remap_total, Hmatch. unfold DFA.matchNodes. apply elem_of_dom. by eexists. }
  simpl. by eexists.
Qed.

Lemma combine_step_combinable (st : @combined A) mode_name dfa st' :
  combine_step st (mode_name, dfa) = Ok st' → combinable dfa.
Proof.
  unfold combine_step.
  intros (start & Hstart%getitem_Ok & (invalid & Hinvalid%getitem_Ok &
          (invalid_name & Hname%getitem_Ok & (T' & HT & (N' & HN & _)
          %result_bind_Ok)%result_bind_Ok)%result_bind_Ok)%result_bind_Ok)%result_bind_Ok.
  apply remap_nodes in Hstart as [H0 _]. apply remap_nodes in Hinvalid as [H1 _].
  apply update_remapped_Ok in HN as [_ HNall];
    [|intros a b k; apply remap_inj|apply NoDup_sorted_items].
  unfold combinable, DFA.matchNodes.
  split_and!; [done..|by apply elem_of_dom|].
  intros n [nm Hn]%elem_of_dom.
  destruct (HNall n nm) as (k & _ & Hk & _); [by apply elem_of_sorted_items|].
  by apply remap_nodes in Hk as [? _].
Qed.

Lemma combine_fold_returns (pairs : list (string * DFA.t A)) : ∀ st,
  (∃ st_f, foldl (λ acc pair, st ← acc; combine_step st pair) (Ok st) pairs = Ok st_f) ↔
  Forall (λ pair, combinable pair.2) pairs.
Proof.
  induction pairs as [|[mode_name dfa] pairs IH]; intros st; cbn [foldl].
  - split; [done|]. by eexists.
  - cbn [mbind result_mbind result_bind]. rewrite Forall_cons. cbn [snd]. split.
    + intros [st_f Hfold].
      destruct (combine_step st (mode_name, dfa)) as [st1|e|] eqn:Hstep;
        rewrite ?Hstep in Hfold.
      * split; [by eapply combine_step_combinable|]. apply (IH st1). by eexists.
      * by rewrite combine_fold_Err in Hfold.
      * by rewrite combine_fold_Timeout in Hfold.
    + intros [Hdfa Hrest].
      destruct (combine_step_total st mode_name dfa Hdfa) as [st1 ->]. by apply IH.
Qed.

(** [combine_dfas] returns exactly when every DFA it is given has the nodes
    0 and 1, a name for node 1, and no match node outside its transitions;
    otherwise a lookup in [remap] or in [matchNodeNames] raises. *)
Theorem combine_dfas_returns_iff (pairs : list (string * DFA.t A)) :
  (∃ r, combine_dfas pairs = Ok r) ↔
  ∀ mode_name dfa, (mode_name, dfa) ∈ pairs → combinable dfa.
Proof.
  unfold combine_dfas, combine_loop.
  assert ((∀ mode_name dfa, (mode_name, dfa) ∈ pairs → combinable dfa) ↔
          Forall (λ pair : string * DFA.t A, combinable pair.2)
                 (sorted_by_key mode_key pairs)) as ->.
  { rewrite Forall_forall. split.
    - intros Hall [mode_name dfa] Hin. rewrite sorted_by_key_perm in Hin. by eapply Hall.
    - intros Hall mode_name dfa Hin. rewrite <- (sorted_by_key_perm mode_key) in Hin.
      by apply (Hall (mode_name, dfa)). }
  rewrite <- combine_fold_returns. split.
  - intros [r (st & Hst & _)%result_bind_Ok]. by exists st.
  - intros [st ->]. simpl. by eexists.
Qed.

Lemma leb_empty s : String.leb "" s = true.
Proof. by destruct s. Qed.

Lemma leb_empty_inv s : String.leb s "" = true → s = "".
Proof. by destruct s. Qed.

(** A pair with the least key stays in front when the list is sorted. *)
Lemma insert_sorted_head {B} (key : B → string) x l :
  (key x = "" ∨ ∃ y, y ∈ l ∧ key y = "") →
  (∀ h t, l = h :: t → (∃ y, y ∈ l ∧ key y = "") → key h = "") →
  ∃ h t, insert_sorted key x l = h :: t ∧ key h = "".
Proof.
  intros Hsome Hhead. destruct l as [|y l]; simpl.
  - destruct Hsome as [?|(y & Hy & _)]; [by eexists _, _|by apply elem_of_nil in Hy].
  - destruct (String.leb (key y) (key x)) eqn:Hle.
    + eexists _, _. split; [done|].
      destruct Hsome as [Hx|Hy]; [|by eapply Hhead].
      rewrite Hx in Hle. by apply leb_empty_inv.
    + eexists _, _. split; [done|].
      destruct Hsome as [?|Hy]; [done|].
      rewrite (Hhead y l eq_refl Hy), leb_empty in Hle. done.
Qed.

Lemma sorted_by_key_head {B} (key : B → string) l x :
  x ∈ l → key x = "" → ∃ h t, sorted_by_key key l = h :: t ∧ key h = "".
Proof.
  unfold sorted_by_key. intros Hin Hkey.
  assert (∀ acc,
            (∀ h t, acc = h :: t → (∃ y, y ∈ acc ∧ key y = "") → key h = "") →
            (∀ h t, foldl (λ acc x, insert_sorted key x acc) acc l = h :: t →
               (∃ y, y ∈ acc ++ l ∧ key y = "") → key h = "")) as Hgen.
  { clear. induction l as [|x l IH]; intros acc Hacc h t; cbn [foldl].
    - rewrite app_nil_r. apply Hacc.
    - intros Hfold (y & Hy & Hkey). apply (IH (insert_sorted key x acc)) with t; [|done|].
      + intros h' t' Heq (y' & Hy' & Hkey').
        rewrite insert_sorted_perm in Hy'.
        destruct (insert_sorted_head key x acc) as (h0 & t0 & Heq0 & ?); [|done|congruence].
        apply elem_of_cons in Hy' as [->|Hy']; [by left|right; by exists y'].
      + exists y. split; [|done]. rewrite insert_sorted_perm.
        rewrite elem_of_app in *. rewrite elem_of_cons in *. set_solver. }
  destruct (foldl (λ acc x, insert_sorted key x acc) [] l) as [|h t] eqn:Hfold.
  - pose proof (sorted_by_key_perm key l) as Hperm. unfold sorted_by_key in Hperm.
    rewrite Hfold in Hperm. apply Permutation_nil_l in Hperm. subst l.
    by apply elem_of_nil in Hin.
  - exists h, t. split; [done|]. apply (Hgen [] ltac:(done) h t Hfold).
    exists x. by split.
Qed.

Lemma sorted_nodes_head (s : gset nat) :
  0 ∈ s → sorted_nodes s !! 0 = Some 0.
Proof.
  intros H0%elem_of_sorted_nodes. unfold sorted_nodes in *.
  pose proof (StronglySorted_merge_sort le (elements s)) as Hsorted.
  destruct (merge_sort le (elements s)) as [|h t]; [by apply elem_of_nil in H0|].
  simpl. f_equal. apply elem_of_cons in H0 as [->|H0]; [done|].
  apply StronglySorted_inv in Hsorted as [_ Hall].
  rewrite Forall_forall in Hall. specialize (Hall 0 H0). lia.
Qed.

(** The mode [main] comes first: when one of the pairs is named [main], the
    first mode of the result starts at node 0 of the combined DFA, and it is
    [main], or a mode whose name is the empty string, which sorts with it. *)
Theorem combined_dfa_starts_with_main (pairs : list (string * DFA.t A))
    dfa_c modes node_modes dfa :
  combine_dfas pairs = Ok (dfa_c, modes, node_modes) →
  ("main", dfa) ∈ pairs →
  ∃ mode rest, modes = mode :: rest ∧ Mode.start mode = 0 ∧
    (Mode.name mode = "main" ∨ Mode.name mode = "").
Proof.
  unfold combine_dfas, combine_loop.
  intros (st & Hfold & [= <- <- <-])%result_bind_Ok Hin.
  destruct (sorted_by_key_head mode_key pairs ("main", dfa) Hin)
    as ([mode_name dfa0] & t & Hsorted & Hkey); [done|].
  rewrite Hsorted in Hfold. cbn [foldl mbind result_mbind result_bind] in Hfold.
  destruct (combine_step _ (mode_name, dfa0)) as [st1|e|] eqn:Hstep;
    [|by rewrite combine_fold_Err in Hfold|by rewrite combine_fold_Timeout in Hfold].
  pose proof (combine_step_combinable _ _ _ _ Hstep) as (H0 & _).
  apply combine_step_spec in Hstep
    as (Hbounded1 & _ & _ & _ & _ & mode & Hmodes1 & Hname & _ & Hstart & _).
  2:{ split; simpl; intros k; rewrite dom_empty_L; set_solver. }
  apply combine_fold_spec in Hfold as (_ & _ & new_modes & Hmodes & _); [|done].
  simpl in *. exists mode, new_modes. split_and!.
  - by rewrite Hmodes, Hmodes1.
  - apply remap_of_lookup in Hstart as (i & Hi & ->); [|apply NoDup_sorted_nodes].
    pose proof (sorted_nodes_head _ H0) as Hhead.
    pose proof (NoDup_sorted_nodes (DFA.allNodes dfa0)) as Hdup.
    by rewrite (NoDup_lookup _ i 0 0 Hdup Hi Hhead).
  - rewrite Hname. unfold mode_key in Hkey. simpl in Hkey.
    case_decide; [by left|by right].
Qed.

End combine_errors.

(** * The lines of a source *)

Section source_lines.
Variable text : list Z.

Lemma rfind_newline_spec end_ :
  match rfind_newline text end_ with
  | Some i => i < end_ ∧ text !! i = Some newline ∧
              ∀ j, i < j < end_ → text !! j ≠ Some newline
  | None => ∀ j, j < end_ → text !! j ≠ Some newline
  end.
Proof.
  induction end_ as [|i IH]; simpl; [lia|].
  case_decide as Hi.
  - split_and!; [lia|done|lia].
  - destruct (rfind_newline text i) as [k|].
    + destruct IH as (Hk & Hnl & Hnone). split_and!; [lia|done|].
      intros j Hj. destruct (decide (j = i)) as [->|]; [done|]. apply Hnone. lia.
    + intros j Hj. destruct (decide (j = i)) as [->|]; [done|]. apply IH. lia.
Qed.

Lemma find_newline_from_spec rest : ∀ k,
  match find_newline_from rest k with
  | Some i => k ≤ i ∧ rest !! (i - k) = Some newline ∧
              ∀ j, j < i - k → rest !! j ≠ Some newline
  | None => ∀ j, rest !! j ≠ Some newline
  end.
Proof.
  induction rest as [|b rest IH]; intros k; simpl; [done|].
  case_decide as Hb.
  - rewrite Nat.sub_diag. subst b. split_and!; [lia|done|lia].
  - specialize (IH (S k)). destruct (find_newline_from rest (S k)) as [i|].
    + destruct IH as (Hi & Hnl & Hnone).
      replace (i - k) with (S (i - S k)) by lia. split_and!; [lia|done|].
      intros [|j] Hj; simpl; [congruence|]. apply Hnone. lia.
    + intros [|j]; simpl; [congruence|]. apply IH.
Qed.

Lemma find_newline_spec pos :
  match find_newline text pos with
  | Some i => pos ≤ i < length text ∧ text !! i = Some newline ∧
              ∀ j, pos ≤ j < i → text !! j ≠ Some newline
  | None => ∀ j, pos ≤ j → text !! j ≠ Some newline
  end.
Proof.
  unfold find_newline. pose proof (find_newline_from_spec (drop pos text) pos) as Hspec.
  destruct (find_newline_from (drop pos text) pos) as [i|].
  - destruct Hspec as (Hi & Hnl & Hnone). rewrite lookup_drop in Hnl.
    replace (pos + (i - pos)) with i in Hnl by lia.
    split_and!; [lia|by eapply lookup_lt_Some|done|].
    intros j Hj. specialize (Hnone (j - pos)). rewrite lookup_drop in Hnone.
    replace (pos + (j - pos)) with j in Hnone by lia. apply Hnone. lia.
  - intros j Hj. specialize (Hspec (j - pos)). rewrite lookup_drop in Hspec.
    by replace (pos + (j - pos)) with j in Hspec by lia.
Qed.

(** What determines the start and the end of a line. *)
Lemma get_line_start_unique pos s :
  s ≤ pos → (s = 0 ∨ text !! (s - 1) = Some newline) →
  (∀ i, s ≤ i < pos → text !! i ≠ Some newline) →
  get_line_start text pos = s.
Proof.
  intros Hs Hbefore Hnone. unfold get_line_start.
  pose proof (rfind_newline_spec pos) as Hspec.
  destruct (rfind_newline text pos) as [i|].
  - destruct Hspec as (Hi & Hnl & Hafter).
    destruct (decide (S i = s)) as [|Hne]; [done|]. exfalso.
    destruct (decide (i < s)) as [Hlt|Hge].
    + destruct Hbefore as [->|Hprev]; [lia|]. apply (Hafter (s - 1)); [lia|done].
    + apply (Hnone i); [lia|done].
  - destruct s as [|s']; [done|]. destruct Hbefore as [?|Hprev]; [done|].
    exfalso. apply (Hspec s'); [lia|].
    by replace (S s' - 1) with s' in Hprev by lia.
Qed.

(** [get_line_start(pos)] is at most [pos]; it is 0 or follows a newline;
    and there is no newline from it up to [pos]. *)
Theorem line_start_follows_last_newline pos :
  get_line_start text pos ≤ pos ∧
  (get_line_start text pos = 0 ∨
   text !! (get_line_start text pos - 1) = Some newline) ∧
  (∀ i, get_line_start text pos ≤ i < pos → text !! i ≠ Some newline).
Proof.
  unfold get_line_start. pose proof (rfind_newline_spec pos) as Hspec.
  destruct (rfind_newline text pos) as [i|].
  - destruct Hspec as (Hi & Hnl & Hafter). split_and!; [lia| |].
    + right. by replace (S i - 1) with i by lia.
    + intros j Hj. apply Hafter. lia.
  - split_and!; [lia|by left|]. intros j Hj. apply Hspec. lia.
Qed.

(** [get_line_end(pos)] is at most the length of the text and, for a
    position inside the text, beyond [pos]; it is the length of the text or
    follows a newline, which is the only newline from [pos] up to it: the
    newline is the final character of its line. *)
Theorem line_end_follows_next_newline pos :
  get_line_end text pos ≤ length text ∧
  (pos < length text → pos < get_line_end text pos) ∧
  ((get_line_end text pos = length text ∧
    ∀ i, pos ≤ i → S i < length text → text !! i ≠ Some newline) ∨
   (pos < get_line_end text pos ∧
    text !! (get_line_end text pos - 1) = Some newline ∧
    ∀ i, pos ≤ i → S i < get_line_end text pos → text !! i ≠ Some newline)).
Proof.
  unfold get_line_end. pose proof (find_newline_spec pos) as Hspec.
  destruct (find_newline text pos) as [i|].
  - destruct Hspec as (Hi & Hnl & Hbefore). split_and!; [lia|lia|].
    right. split_and!; [lia|by replace (S i - 1) with i by lia|].
    intros j Hj Hlt. apply Hbefore. lia.
  - split_and!; [lia|lia|]. left. split; [done|]. intros j Hj _. by apply Hspec.
Qed.

(** Every position of a line gives the same line: for [q] from
    [get_line_start(pos)] up to, but not including, [get_line_end(pos)], the
    start and the end of the line of [q] are those of the line of [pos]. *)
Theorem positions_of_a_line_agree pos q :
  get_line_start text pos ≤ q < get_line_end text pos →
  get_line_start text q = get_line_start text pos ∧
  get_line_end text q = get_line_end text pos.
Proof.
  intros Hq.
  assert (get_line_start text pos ≤ pos ∧
          (get_line_start text pos = 0 ∨
           text !! (get_line_start text pos - 1) = Some newline) ∧
          (∀ i, get_line_start text pos ≤ i < pos → text !! i ≠ Some newline))
    as (Hs & Hprev & Hnone).
  { unfold get_line_start. pose proof (rfind_newline_spec pos) as Hspec.
    destruct (rfind_newline text pos) as [i|].
    - destruct Hspec as (Hi & Hnl & Hafter). split_and!; [lia| |].
      + right. by replace (S i - 1) with i by lia.
      + intros j Hj. apply Hafter. lia.
    - split_and!; [lia|by left|]. intros j Hj. apply Hspec. lia. }
  revert Hq. unfold get_line_end at 1 3.
  pose proof (find_newline_spec pos) as Hspec.
  destruct (find_newline text pos) as [e|].
  - destruct Hspec as (He & Hnl & Hbefore). intros Hq.
    assert (∀ i, get_line_start text pos ≤ i < e → text !! i ≠ Some newline) as Hline.
    { intros i Hi. destruct (decide (i < pos)); [apply Hnone|apply Hbefore]; lia. }
    split.
    + apply get_line_start_unique; [lia|done|]. intros i Hi. apply Hline. lia.
    + unfold get_line_end. pose proof (find_newline_spec q) as Hspecq.
      destruct (find_newline text q) as [e'|].
      * destruct Hspecq as (He' & Hnl' & Hbefore'). f_equal.
        destruct (decide (e' < e)); [by destruct (Hline e'); try lia|].
        destruct (decide (e < e')); [by destruct (Hbefore' e); try lia|]. lia.
      * by destruct (Hspecq e); try lia.
  - intros Hq.
    assert (∀ i, get_line_start text pos ≤ i → text !! i ≠ Some newline) as Hline.
    { intros i Hi. destruct (decide (i < pos)); [apply Hnone|apply Hspec]; lia. }
    split.
    + apply get_line_start_unique; [lia|done|]. intros i Hi. apply Hline. lia.
    + unfold get_line_end. pose proof (find_newline_spec q) as Hspecq.
      destruct (find_newline text q) as [e'|]; [|done].
      destruct Hspecq as (He' & Hnl' & _). by destruct (Hline e'); try lia.
Qed.

End source_lines.

(** * Ranges of bytes *)

Lemma range_values_single (c : Z) : range_values (c, c) = [c].
Proof.
  unfold range_values. simpl. replace (c - c + 1)%Z with 1%Z by lia. simpl.
  f_equal. lia.
Qed.

Lemma range_values_extend (low prev : Z) :
  (low ≤ prev)%Z →
  range_values (low, (prev + 1)%Z) = range_values (low, prev) ++ [(prev + 1)%Z].
Proof.
  intros Hle. unfold range_values. simpl.
  replace (Z.to_nat (prev + 1 - low + 1)) with (S (Z.to_nat (prev - low + 1))) by lia.
  rewrite seq_S, fmap_app. simpl. do 2 f_equal. lia.
Qed.

Lemma add_char_values ranges char :
  Forall (λ r, (r.1 ≤ r.2)%Z) ranges →
  Forall (λ r, (r.1 ≤ r.2)%Z) (add_char ranges char) ∧
  (add_char ranges char ≫= range_values) = (ranges ≫= range_values) ++ [char].
Proof.
  intros Hok. unfold add_char.
  destruct (last ranges) as [[low prev]|] eqn:Hlast.
  - apply last_Some in Hlast as [front ->]. rewrite removelast_last.
    apply Forall_app in Hok as [Hfront Hlow]. rewrite Forall_singleton in Hlow.
    simpl in Hlow. case_decide as Hnext.
    + subst char. split.
      * apply Forall_app. split; [done|]. apply Forall_singleton. simpl. lia.
      * rewrite !bind_app, !bind_singleton.
        rewrite range_values_extend by done. by rewrite app_assoc.
    + split.
      * apply Forall_app. split; [|by apply Forall_singleton].
        apply Forall_app. split; [done|]. by apply Forall_singleton.
      * by rewrite bind_app, bind_singleton, range_values_single.
  - apply last_None in Hlast as ->. split; [by apply Forall_singleton|].
    by rewrite bind_singleton, range_values_single.
Qed.

Lemma char_ranges_values chars : ∀ ranges,
  Forall (λ r, (r.1 ≤ r.2)%Z) ranges →
  Forall (λ r, (r.1 ≤ r.2)%Z) (foldl add_char ranges chars) ∧
  (foldl add_char ranges chars ≫= range_values) = (ranges ≫= range_values) ++ chars.
Proof.
  induction chars as [|c chars IH]; intros ranges Hok; cbn [foldl].
  - by rewrite app_nil_r.
  - destruct (add_char_values ranges c Hok) as [Hok' Hvalues].
    destruct (IH _ Hok') as [Hok'' ->]. split; [done|].
    by rewrite Hvalues, <- app_assoc.
Qed.

(** The ranges that [byte_case_ranges] formats stand for exactly the
    integers it was given, in their order: each pair has [low ≤ high], and
    listing every range from [low] to [high] gives back [chars]; the
    function formats one string per range. *)
Theorem char_ranges_cover_chars (chars : list Z) :
  Forall (λ r, (r.1 ≤ r.2)%Z) (char_ranges chars) ∧
  (char_ranges chars ≫= range_values) = chars ∧
  length (byte_case_ranges chars) = length (char_ranges chars).
Proof.
  destruct (char_ranges_values chars []) as [Hok Hvalues]; [done|].
  split_and!; [done|done|]. unfold byte_case_ranges. by rewrite length_fmap.
Qed.

Lemma gapped_snoc front (x y : Z * Z) :
  gapped (front ++ [x]) → (x.2 + 1 < y.1)%Z → gapped (front ++ [x; y]).
Proof.
  induction front as [|r front IH]; simpl; [done|].
  destruct front as [|r' front]; simpl in *; [tauto|]. intros [? ?] ?. split; [done|].
  by apply IH.
Qed.

Lemma gapped_last front (low high high' : Z) :
  gapped (front ++ [(low, high)]) → gapped (front ++ [(low, high')]).
Proof.
  induction front as [|r front IH]; simpl; [done|].
  destruct front as [|r' front]; simpl in *; [tauto|]. intros [? ?]. split; [done|].
  by apply IH.
Qed.

Lemma add_char_gapped ranges char :
  gapped ranges → Forall (λ r, (r.2 < char)%Z) ranges →
  gapped (add_char ranges char) ∧ Forall (λ r, (r.2 ≤ char)%Z) (add_char ranges char).
Proof.
  intros Hgap Hbelow. unfold add_char.
  destruct (last ranges) as [[low prev]|] eqn:Hlast.
  - apply last_Some in Hlast as [front ->]. rewrite removelast_last.
    apply Forall_app in Hbelow as [Hfront Hprev]. rewrite Forall_singleton in Hprev.
    simpl in Hprev.
    assert (Forall (λ r : Z * Z, (r.2 ≤ char)%Z) front) as Hfront'.
    { eapply Forall_impl; [done|]. simpl. lia. }
    case_decide as Hnext.
    + split; [by eapply gapped_last|].
      apply Forall_app. split; [done|]. apply Forall_singleton. simpl. lia.
    + split.
      * rewrite <- app_assoc. simpl. apply gapped_snoc; [done|]. simpl. lia.
      * apply Forall_app. split; [|apply Forall_singleton; simpl; lia].
        apply Forall_app. split; [done|]. apply Forall_singleton. simpl. lia.
  - apply last_None in Hlast as ->. split; [done|]. apply Forall_singleton. simpl. lia.
Qed.

Lemma char_ranges_gapped chars : ∀ ranges,
  StronglySorted Z.lt chars →
  gapped ranges → Forall (λ r, Forall (λ c, (r.2 < c)%Z) chars) ranges →
  gapped (foldl add_char ranges chars).
Proof.
  induction chars as [|c chars IH]; intros ranges Hsorted Hgap Hbelow; cbn [foldl]; [done|].
  apply StronglySorted_inv in Hsorted as [Hsorted Hc].
  destruct (add_char_gapped ranges c) as [Hgap' Hbelow']; [done| |].
  { eapply Forall_impl; [done|]. intros r Hr. by apply Forall_cons in Hr as [? _]. }
  apply IH; [done..|].
  eapply Forall_impl; [done|]. intros r Hr. simpl in Hr.
  eapply Forall_impl; [done|]. simpl. lia.
Qed.

(** On integers in ascending order without repetition, as [byte_cases]
    passes them, the ranges are as long as they can be: between one range
    and the next at least one integer is left out. *)
Theorem char_ranges_are_maximal (chars : list Z) :
  StronglySorted Z.lt chars → gapped (char_ranges chars).
Proof. intros Hsorted. by apply char_ranges_gapped. Qed.

(** * Safe symbols *)

Section py_safe_sym_facts.
Variable is_word : nat → bool.
Variable isdigit : nat → bool.
Hypothesis underscore_is_word : is_word underscore = true.
Hypothesis underscore_no_digit : isdigit underscore = false.

Lemma reserved_not_suffixed :
  Forall (λ r, r ++ [underscore] ∉ py_reserved_syms) py_reserved_syms.
Proof. apply (bool_decide_unpack _). vm_compute. exact I. Qed.

Lemma sub_word (name : list nat) :
  Forall (λ c, is_word c = true) name →
  (λ c, if is_word c then c else underscore) <$> name = name.
Proof.
  induction 1 as [|c name Hc Hname IH]; [done|]. by rewrite fmap_cons, Hc, IH.
Qed.

(** The symbol that [py_safe_sym] returns is not a reserved word, consists of
    word characters, does not start with a digit, and is left as it is by
    [py_safe_sym]; the function raises [IndexError] on the empty string
    only. *)
Theorem py_safe_sym_is_safe (name : list nat) :
  (py_safe_sym is_word isdigit name = Err IndexError ↔ name = []) ∧
  ∀ sym, py_safe_sym is_word isdigit name = Ok sym →
    sym ∉ py_reserved_syms ∧
    Forall (λ c, is_word c = true) sym ∧
    (∃ c rest, sym = c :: rest ∧ isdigit c = false) ∧
    py_safe_sym is_word isdigit sym = Ok sym.
Proof.
  split.
  { unfold py_safe_sym. destruct name as [|c name]; simpl; [done|]. split; done. }
  intros sym. unfold py_safe_sym at 1.
  set (name1 := (λ c, if is_word c then c else underscore) <$> name).
  assert (Forall (λ c, is_word c = true) name1) as Hword1.
  { unfold name1. apply Forall_fmap, Forall_true. intros c. simpl.
    by destruct (is_word c) eqn:Hc. }
  destruct name1 as [|c name1'] eqn:Hname1; [done|].
  set (name2 := if isdigit c then underscore :: c :: name1' else c :: name1').
  assert (Forall (λ c, is_word c = true) name2 ∧
          ∃ c2 rest, name2 = c2 :: rest ∧ isdigit c2 = false) as [Hword2 Hfirst2].
  { unfold name2. destruct (isdigit c) eqn:Hc.
    - split; [by constructor|]. by eexists _, _.
    - split; [done|]. by eexists _, _. }
  intros [= <-].
  assert ((if decide (name2 ∈ py_reserved_syms) then name2 ++ [underscore] else name2)
            ∉ py_reserved_syms) as Hsafe.
  { case_decide as Hres; [|done].
    pose proof reserved_not_suffixed as Hall. rewrite Forall_forall in Hall.
    by apply Hall. }
  assert (Forall (λ c, is_word c = true)
            (if decide (name2 ∈ py_reserved_syms) then name2 ++ [underscore] else name2))
    as Hword.
  { case_decide; [|done]. apply Forall_app. split; [done|]. by apply Forall_singleton. }
  assert (∃ c3 rest,
            (if decide (name2 ∈ py_reserved_syms) then name2 ++ [underscore] else name2)
              = c3 :: rest ∧ isdigit c3 = false) as Hfirst.
  { destruct Hfirst2 as (c2 & rest & -> & Hc2). case_decide; by eexists _, _. }
  split_and!; [done..|].
  destruct Hfirst as (c3 & rest & Heq & Hc3). rewrite Heq in *.
  unfold py_safe_sym. cbv zeta. rewrite sub_word by done. rewrite Hc3.
  by rewrite decide_False.
Qed.

End py_safe_sym_facts.

(** * Representations of strings *)

Lemma raw_of_pos_printable n : ∀ p rest,
  Pos.to_nat p < n →
  Forall printable (codes rest) → Forall printable (codes (HexString.Raw.of_pos p rest)).
Proof.
  induction n as [|n IH]; intros p rest Hp Hrest; [lia|].
  destruct p as [[[[p|p|]|[p|p|]|]|[[p|p|]|[p|p|]|]|]|[[[p|p|]|[p|p|]|]|[[p|p|]|[p|p|]|]|]|];
    cbn [HexString.Raw.of_pos];
    try (apply IH; [lia|]);
    (apply Forall_cons; split; [unfold printable; vm_compute; lia|done]).
Qed.

Lemma hex_printable (n : nat) : Forall printable (codes (hex (Z.of_nat n))).
Proof.
  unfold hex, HexString.of_Z. destruct (Z.of_nat n) as [|p|p] eqn:Hn; [| |lia].
  - repeat (apply Forall_cons; split; [unfold printable; vm_compute; lia|]). done.
  - unfold HexString.of_pos.
    repeat (apply Forall_cons; split; [unfold printable; vm_compute; lia|]).
    apply (raw_of_pos_printable (S (Pos.to_nat p))); [lia|done].
Qed.

Lemma ploy_escape_printable (char : nat) : Forall printable (ploy_escape char).
Proof.
  unfold ploy_escape.
  repeat case_decide;
    try (repeat (apply Forall_cons; split; [unfold printable; lia|]); done).
  apply Forall_cons. split; [unfold printable; lia|].
  apply Forall_app. split; [apply hex_printable|].
  apply Forall_singleton. unfold printable. lia.
Qed.

(** [ploy_repr] returns printable ASCII between two single quotes, whatever
    the string holds.  It does not tell all strings apart: the character
    U+001F and the NUL character followed by [x1f;] have the same
    representation. *)
Theorem ploy_repr_is_printable_and_ambiguous :
  (∀ string,
     Forall printable (ploy_repr string) ∧
     head (ploy_repr string) = Some 39 ∧ last (ploy_repr string) = Some 39) ∧
  ploy_repr [31] = ploy_repr [0; 120; 49; 102; 59].
Proof.
  split.
  - intros string. unfold ploy_repr. split_and!.
    + apply Forall_cons. split; [unfold printable; lia|].
      apply Forall_app. split; [|apply Forall_singleton; unfold printable; lia].
      induction string as [|c string IH]; [done|].
      rewrite bind_cons. apply Forall_app. split; [apply ploy_escape_printable|done].
    + done.
    + by rewrite app_assoc, last_snoc.
  - vm_compute. reflexivity.
Qed.

(** * Nodes after a match *)

Section post_facts.
Context `{SetOrder} {A : Type}.
Variable dfa : DFA.t A.

Lemma elem_of_dstNodes_of node dsts x :
  dstNodes_of dfa node = Ok dsts →
  x ∈ dsts ↔ ∃ c, DFA.advance dfa node c = Some x.
Proof.
  unfold dstNodes_of.
  intros (d & Hd%getitem_Ok & [= <-])%result_bind_Ok.
  rewrite elem_of_list_to_set, list_elem_of_fmap. unfold DFA.advance. split.
  - intros ([c x'] & -> & Hc%elem_of_map_to_list). exists c. apply lookup2_Some. by exists d.
  - intros (c & (d' & Hd' & Hc)%lookup2_Some). exists (c, x). split; [done|].
    apply elem_of_map_to_list. congruence.
Qed.

Lemma post_dst_fold dsts : ∀ nodes remaining,
  foldl (post_dst dfa) (nodes, remaining) dsts =
    (nodes ∪ filter (λ dst, dst ∉ DFA.matchNodes dfa ∧ dst ∉ nodes) (list_to_set dsts),
     remaining ∪ filter (λ dst, dst ∉ DFA.matchNodes dfa ∧ dst ∉ nodes) (list_to_set dsts)).
Proof.
  induction dsts as [|dst dsts IH]; intros nodes remaining; cbn [foldl].
  - f_equal; set_solver.
  - unfold post_dst at 2. case_decide as Hnew.
    + rewrite IH. f_equal; apply set_eq; intros x;
        rewrite !elem_of_union, !elem_of_filter, !elem_of_list_to_set, !elem_of_cons,
                !elem_of_union, !elem_of_singleton;
        destruct (decide (x = dst)) as [->|]; naive_solver.
    + rewrite IH. f_equal; apply set_eq; intros x;
        rewrite !elem_of_union, !elem_of_filter, !elem_of_list_to_set, !elem_of_cons;
        destruct (decide (x = dst)) as [->|]; naive_solver.
Qed.

Lemma post_step_inv nodes remaining processed node dsts :
  post_inv dfa nodes remaining processed → node ∈ remaining →
  dstNodes_of dfa node = Ok dsts →
  let new := filter (λ dst, dst ∉ DFA.matchNodes dfa ∧ dst ∉ nodes) dsts in
  post_inv dfa (nodes ∪ new) (remaining ∖ {[node]} ∪ new) ({[node]} ∪ processed).
Proof.
  intros (Hdisj & Hall & Hsound & Hclosed & Hdsts) Hnode Hdst new.
  assert (∀ x, x ∈ new ↔
               (∃ c, DFA.advance dfa node c = Some x) ∧
               x ∉ DFA.matchNodes dfa ∧ x ∉ nodes) as Hnew.
  { intros x. unfold new. rewrite elem_of_filter, (elem_of_dstNodes_of node dsts x Hdst).
    tauto. }
  assert (node ∈ DFA.matchNodes dfa ∪ nodes) as Hnode' by set_solver.
  assert (∀ x, x ∈ processed → x ∈ DFA.matchNodes dfa ∪ nodes) as Hproc by set_solver.
  split_and!.
  - apply elem_of_disjoint. intros x [->%elem_of_singleton|Hx]%elem_of_union.
    + intros [[_ ?]%elem_of_difference|(_ & ? & ?)%Hnew]%elem_of_union; set_solver.
    + intros [[? _]%elem_of_difference|(_ & ? & ?)%Hnew]%elem_of_union; [set_solver|].
      apply Hproc in Hx. set_solver.
  - clear -Hall Hnode. apply set_eq. intros x.
    assert (x ∈ processed ∪ remaining ↔ x ∈ DFA.matchNodes dfa ∪ nodes) as Hx
      by (by rewrite Hall).
    revert Hx. rewrite !elem_of_union, elem_of_difference, elem_of_singleton.
    destruct (decide (x = node)) as [->|]; tauto.
  - intros x [Hx|(Hedge & Hnm & _)%Hnew]%elem_of_union; [by apply Hsound|].
    apply elem_of_union in Hnode' as [Hm|Hn].
    + exists node. split; [done|]. by apply tc_once.
    + destruct (Hsound node Hn) as (m & Hm & Hpath). exists m. split; [done|].
      eapply tc_r; [done|]. by split.
  - intros n x [->%elem_of_singleton|Hn]%elem_of_union [Hedge Hnm].
    + destruct (decide (x ∈ nodes)); [set_solver|].
      apply elem_of_union. right. by apply Hnew.
    + apply elem_of_union. left. by apply (Hclosed n).
  - intros x [Hx|([c Hedge] & _)%Hnew]%elem_of_union; [by apply Hdsts|].
    apply elem_of_allDstNodes. by exists node, c.
Qed.

Lemma post_loop_spec fuel : ∀ nodes remaining processed,
  (∀ n, n ∈ DFA.matchNodes dfa ∪ DFA.allDstNodes dfa → n ∈ DFA.allSrcNodes dfa) →
  post_inv dfa nodes remaining processed →
  size ((DFA.matchNodes dfa ∪ DFA.allNodes dfa) ∖ processed) < fuel →
  ∃ X, post_loop dfa fuel nodes remaining = Ok X ∧
       post_inv dfa X ∅ (DFA.matchNodes dfa ∪ X).
Proof.
  induction fuel as [|fuel IH]; intros nodes remaining processed Hrows Hinv Hfuel; [lia|].
  cbn [post_loop]. destruct (pop remaining) as [node|] eqn:Hpop.
  - apply pop_Some in Hpop.
    pose proof Hinv as (Hdisj & Hall & Hsound & Hclosed & Hdsts).
    assert (node ∈ DFA.matchNodes dfa ∪ DFA.allDstNodes dfa) as Hin by set_solver.
    apply Hrows in Hin as Hrow. unfold DFA.allSrcNodes in Hrow.
    apply elem_of_dom in Hrow as [d Hd].
    assert (dstNodes_of dfa node = Ok (list_to_set (map_to_list d).*2)) as Hdst.
    { unfold dstNodes_of, getitem. by rewrite Hd. }
    rewrite Hdst. simpl. rewrite post_dst_fold.
    assert (list_to_set (visit (list_to_set (map_to_list d).*2 : gset nat))
              = (list_to_set (map_to_list d).*2 : gset nat)) as ->.
    { apply set_eq. intros x. by rewrite elem_of_list_to_set, elem_of_visit. }
    apply (IH _ _ ({[node]} ∪ processed)); [done|by apply post_step_inv|].
    assert (node ∉ processed) as Hfresh by set_solver.
    assert (node ∈ DFA.matchNodes dfa ∪ DFA.allNodes dfa) as Hnode.
    { unfold DFA.allNodes. set_solver. }
    assert ((DFA.matchNodes dfa ∪ DFA.allNodes dfa) ∖ processed
              = {[node]} ∪ (DFA.matchNodes dfa ∪ DFA.allNodes dfa) ∖ ({[node]} ∪ processed))
      as Heq.
    { apply set_eq. intros x. destruct (decide (x = node)) as [->|]; set_solver. }
    rewrite Heq, size_union, size_singleton in Hfuel by set_solver. lia.
  - apply pop_None in Hpop. subst remaining. exists nodes. split; [done|].
    destruct Hinv as (Hdisj & Hall & Hsound & Hclosed & Hdsts).
    rewrite union_empty_r_L in Hall. subst processed.
    split_and!; [apply disjoint_empty_r|by rewrite union_empty_r_L|done..].
Qed.

(** In a DFA whose match nodes and edge targets all have a dictionary of
    edges, [postMatchNodes] returns the nodes that are reached from a match
    node along edges through nodes that are no match nodes, themselves
    included. *)
Theorem postMatchNodes_are_reached_after_a_match :
  DFA.matchNodes dfa ∪ DFA.allDstNodes dfa ⊆ DFA.allSrcNodes dfa →
  ∃ X, postMatchNodes dfa = Ok X ∧
    ∀ x, x ∈ X ↔ ∃ m, m ∈ DFA.matchNodes dfa ∧ tc (post_edge dfa) m x.
Proof.
  intros Hrows. rewrite elem_of_subseteq in Hrows.
  destruct (post_loop_spec (S (size (DFA.matchNodes dfa ∪ DFA.allNodes dfa)))
              ∅ (DFA.matchNodes dfa) ∅) as (X & HX & Hinv); [done| |..].
  - split_and!; [set_solver|set_solver|set_solver|set_solver|set_solver].
  - rewrite difference_empty_L. lia.
  - exists X. split; [done|].
    destruct Hinv as (_ & _ & Hsound & Hclosed & _).
    intros x. split; [apply Hsound|].
    intros (m & Hm & Hpath).
    assert (m ∈ DFA.matchNodes dfa ∪ X) as Hstart by set_solver.
    revert Hstart. clear Hm.
    induction Hpath as [a b Hedge|a b c Hedge Hpath IH]; intros Ha.
    + by apply (Hclosed a).
    + apply IH. apply elem_of_union. right. by apply (Hclosed a).
Qed.

End post_facts.

#[local] Existing Instance ascending.

Lemma unwrap_Ok {A} (r : result (DFA.t A)) : is_Ok r → r = Ok (unwrap r).
Proof. by destruct r. Qed.

Example lex_paren :
  lex paren_lexer [40; 97; 98; 41; 99]%Z =
  ([Token.mk "open" 0 1; Token.mk "ab" 1 3; Token.mk "close" 3 4;
    Token.mk "invalid" 4 5], Exhausted).
Proof. vm_compute. reflexivity. Qed.

Example lex_paren_incomplete :
  lex paren_lexer [40; 97]%Z =
  ([Token.mk "open" 0 1; Token.mk "incomplete" 1 2], Exhausted).
Proof. vm_compute. reflexivity. Qed.

Lemma paren_lexer_paren : mode_data paren_lexer !! "paren" = Some paren_data.
Proof.
  unfold paren_lexer, mode_data. rewrite lookup_insert_ne by done.
  apply lookup_singleton_eq.
Qed.

(** C1 (witness). *)
Lemma lexer_tokens_partition_text_witness :
  ∃ toks,
    lex paren_lexer [40; 97; 98; 41; 99]%Z = (toks, Exhausted) ∧
    (∀ token, toks !! 0 = Some token → Token.pos token = 0) ∧
    (∀ i token token',
       toks !! i = Some token → toks !! S i = Some token' →
       Token.pos token' = Token.end_ token) ∧
    (∀ token, token ∈ toks → Token.pos token < Token.end_ token) ∧
    concat (bytes_for [40; 97; 98; 41; 99]%Z <$> toks) = [40; 97; 98; 41; 99]%Z.
Proof.
  apply (lexer_tokens_partition_text paren_lexer [40; 97; 98; 41; 99]%Z).
  - apply sink_completeb_correct. vm_compute. reflexivity.
  - repeat constructor; unfold is_byte; lia.
Defined.

(** C7 (counterexample). In the mode [paren] the input ends inside the rule
    [ab]: no match node was reached, and the token's kind is [incomplete],
    not the incomplete name [paren_incomplete] of the mode. *)
Lemma incomplete_kind_ignores_mode :
  last (stack (in_paren [40; 97]%Z)) = Some ("paren", Some "close") ∧
  mode_data paren_lexer !! "paren" = Some paren_data ∧
  scan paren_data.1.2 paren_data.2 (drop 1 [40; 97]%Z) paren_data.1.1 1
       "incomplete" None = (2, "incomplete", None) ∧
  (∃ self', next paren_lexer (in_paren [40; 97]%Z)
            = Return (Token.mk "incomplete" 1 2) self') ∧
  "incomplete" ≠ incomplete_name "paren".
Proof.
  split_and!.
  - reflexivity.
  - apply paren_lexer_paren.
  - vm_compute. reflexivity.
  - eexists. vm_compute. reflexivity.
  - vm_compute. discriminate.
Qed.

(** C7 (witness). *)
Lemma unmatched_token_kind_is_incomplete_witness :
  Token.kind (Token.mk "incomplete" 1 2) = "incomplete" ∧
  Token.end_ (Token.mk "incomplete" 1 2) = 2 ∧
  ("paren" = "main" →
   Token.kind (Token.mk "incomplete" 1 2) = incomplete_name "paren").
Proof.
  apply (unmatched_token_kind_is_incomplete paren_lexer
           (in_paren [40; 97]%Z) (Token.mk "incomplete" 1 2)
           {| text := [40; 97]%Z; pos := 2;
              stack := [("main", None); ("paren", Some "close")] |}
           "paren" (Some "close") paren_data.1.1 paren_data.1.2 paren_data.2
           2 "incomplete").
  - vm_compute. reflexivity.
  - reflexivity.
  - apply paren_lexer_paren.
  - vm_compute. reflexivity.
Defined.

(** C8 (witness): the token [close] pops the frame of [paren]. *)
Lemma mode_stack_update_witness :
  (Some "close" = Some "close" →
     [("main", None)] = removelast (stack (in_paren [40; 41]%Z))) ∧
  (Some "close" ≠ Some "close" →
     ∀ to_mode pk,
       lookup2 (mode_transitions paren_lexer) "paren" "close" = Some (to_mode, pk) →
       [("main", None)] = stack (in_paren [40; 41]%Z) ++ [(to_mode, Some pk)]) ∧
  (Some "close" ≠ Some "close" →
     lookup2 (mode_transitions paren_lexer) "paren" "close" = None →
     [("main", None)] = stack (in_paren [40; 41]%Z)).
Proof.
  apply (mode_stack_update paren_lexer
           (in_paren [40; 41]%Z) (Token.mk "close" 1 2)
           {| text := [40; 41]%Z; pos := 2; stack := [("main", None)] |}
           "paren" (Some "close")).
  - vm_compute. reflexivity.
  - reflexivity.
Defined.




Lemma gen_dfa_loop_Ok : gen_dfa nfa_loop = Ok fat_loop.
Proof. unfold fat_loop. apply unwrap_Ok. vm_compute. exact I. Qed.

(** C2 (the failing input). The fat DFA of [nfa_loop] matches the string
    [a] as [r]; its minimised DFA matches nothing on it: the class of the
    start node holds two nodes and is renumbered to 1, so the minimised
    DFA has no node 0 to start from. *)
Theorem minimized_dfa_loses_start_node :
  match_results nfa_loop [97%Z] = Ok ({["r"]}, Some {["r"]}, None).
Proof. vm_compute. reflexivity. Qed.

(** C6 (the failing input). The classes of the fat DFA of [nfa_acb] are
    [{0}], [{1}], [{2,3}] and [{4}]; the sorted list that is enumerated
    holds the class [{2,3}] twice, once per member, so the new ids are 0,
    1, 3 and 4, with 2 left out.  For [nfa_loop] the class of the start
    node is [{0,4}], and its new id is 1. *)
Theorem renumbering_skips_ids :
  renumbering fat_acb =
    Ok ([[0]; [1]; [2; 3]; [2; 3]; [4]],
        list_to_map [(0, 0); (1, 1); (2, 3); (3, 3); (4, 4)]) ∧
  renumbering fat_loop =
    Ok ([[0; 4]; [0; 4]; [1]; [2]; [3]],
        list_to_map [(0, 1); (4, 1); (1, 2); (2, 3); (3, 4)]).
Proof. split; vm_compute; reflexivity. Qed.








#[local] Existing Instance ascending.

Lemma minimizeDFA_acb_Ok : minimizeDFA fat_acb = Ok min_acb.
Proof. unfold min_acb. apply unwrap_Ok. vm_compute. exact I. Qed.

Lemma combine_dfas_pairs_Ok :
  combine_dfas mode_pairs = Ok (combined_pairs.1.1, combined_pairs.1.2, combined_pairs.2).
Proof.
  unfold combined_pairs.
  assert (is_Ok (combine_dfas mode_pairs)) as Hok by (vm_compute; exact I).
  destruct (combine_dfas mode_pairs) as [[[dfa_c modes] node_modes]| |]; done.
Qed.

Lemma minimizeDFA_is_image_witness :
  ∃ mapping, mapping_of fat_acb = Ok mapping ∧
    (∀ n, n ∈ DFA.allNodes fat_acb ∪ DFA.matchNodes fat_acb → is_Some (mapping !! n)) ∧
    (∀ s c t, DFA.advance fat_acb s c = Some t →
       ∃ s' t', mapping !! s = Some s' ∧ mapping !! t = Some t' ∧
                DFA.advance min_acb s' c = Some t') ∧
    (∀ s' c t', DFA.advance min_acb s' c = Some t' →
       ∃ s t, mapping !! s = Some s' ∧ mapping !! t = Some t' ∧
              DFA.advance fat_acb s c = Some t) ∧
    (∀ n n', mapping !! n = Some n' →
       DFA.matchNodeNames min_acb !! n' = DFA.matchNodeNames fat_acb !! n).
Proof. apply (minimizeDFA_is_image fat_acb min_acb). apply minimizeDFA_acb_Ok. Defined.

Lemma minimized_dfa_matches_from_renumbered_start_witness :
  ∃ mapping start', mapping_of fat_acb = Ok mapping ∧ mapping !! 0 = Some start' ∧
    match_at min_acb start' [97; 98]%Z = match_at fat_acb 0 [97; 98]%Z.
Proof.
  apply (minimized_dfa_matches_from_renumbered_start fat_acb min_acb 0 [97; 98]%Z).
  - apply minimizeDFA_acb_Ok.
  - apply (bool_decide_unpack _). vm_compute. exact I.
  - eexists. vm_compute. reflexivity.
Defined.



Lemma nfa_dead_state_matches_nothing_witness :
  NFA.match_ nfa_a ([32%Z] ++ [97%Z]) = ∅.
Proof.
  apply (nfa_dead_state_matches_nothing nfa_a [32%Z] [97%Z]).
  apply (bool_decide_unpack _). vm_compute. exact I.
Defined.

Lemma token_is_longest_match_witness :
  let rest := drop (pos (in_paren [40; 97; 98; 41]%Z)) (text (in_paren [40; 97; 98; 41]%Z)) in
  let len := Token.end_ (Token.mk "ab" 1 3) - Token.pos (Token.mk "ab" 1 3) in
  (∀ n state, len < n ≤ length rest →
     walk paren_data.1.2 paren_data.1.1 (take n rest) = Some state →
     paren_data.2 !! state = None) ∧
  ((∃ state, walk paren_data.1.2 paren_data.1.1 (take len rest) = Some state ∧
             paren_data.2 !! state = Some (Token.kind (Token.mk "ab" 1 3))) ∨
   (Token.kind (Token.mk "ab" 1 3) = "incomplete" ∧
    (∀ n state, 0 < n ≤ length rest →
       walk paren_data.1.2 paren_data.1.1 (take n rest) = Some state →
       paren_data.2 !! state = None) ∧
    is_Some (walk paren_data.1.2 paren_data.1.1 (take len rest)) ∧
    (len = length rest ∨
     walk paren_data.1.2 paren_data.1.1 (take (S len) rest) = None))).
Proof.
  apply (token_is_longest_match paren_lexer
           (in_paren [40; 97; 98; 41]%Z) (Token.mk "ab" 1 3)
           (after_ab [40; 97; 98; 41]%Z)
           "paren" (Some "close") paren_data.1.1 paren_data.1.2 paren_data.2).
  - vm_compute. reflexivity.
  - reflexivity.
  - apply paren_lexer_paren.
Defined.

Lemma combined_dfa_matches_each_mode_witness :
  ∃ mode, mode ∈ combined_pairs.1.2 ∧
    Mode.name mode = "str" ∧
    Mode.incomplete_name mode = incomplete_name "str" ∧
    DFA.matchNodeNames dfa_str !! 1 = Some (Mode.invalid_name mode) ∧
    ∀ text,
      match_at combined_pairs.1.1 (Mode.start mode) text = match_at dfa_str 0 text ∧
      match_at combined_pairs.1.1 (Mode.invalid mode) text = match_at dfa_str 1 text.
Proof.
  apply (combined_dfa_matches_each_mode mode_pairs
           combined_pairs.1.1 combined_pairs.1.2 combined_pairs.2 "str" dfa_str).
  - apply combine_dfas_pairs_Ok.
  - unfold mode_pairs. by left.
Defined.

Lemma combined_dfa_starts_with_main_witness :
  ∃ mode rest, combined_pairs.1.2 = mode :: rest ∧ Mode.start mode = 0 ∧
    (Mode.name mode = "main" ∨ Mode.name mode = "").
Proof.
  apply (combined_dfa_starts_with_main mode_pairs
           combined_pairs.1.1 combined_pairs.1.2 combined_pairs.2 dfa_main).
  - apply combine_dfas_pairs_Ok.
  - unfold mode_pairs. right. by left.
Defined.

Lemma mapping_of_acb_Ok : mapping_of fat_acb = Ok mapping_acb.
Proof.
  unfold mapping_acb.
  assert (is_Ok (mapping_of fat_acb)) as Hok by (vm_compute; exact I).
  by destruct (mapping_of fat_acb).
Qed.

Lemma minimizeDFA_keeps_match_nodes_apart_witness : 4 = 4.
Proof.
  apply (minimizeDFA_keeps_match_nodes_apart fat_acb mapping_acb 4 4 4).
  - apply mapping_of_acb_Ok.
  - apply (bool_decide_unpack _). vm_compute. exact I.
  - vm_compute. reflexivity.
  - vm_compute. reflexivity.
Defined.

Lemma minimizeDFA_does_not_grow_witness :
  size (DFA.allSrcNodes min_acb) ≤ size (DFA.allSrcNodes fat_acb).
Proof. apply (minimizeDFA_does_not_grow fat_acb min_acb). apply minimizeDFA_acb_Ok. Defined.




Lemma positions_of_a_line_agree_witness :
  get_line_start [97; 98; 10; 99; 100]%Z 2 = get_line_start [97; 98; 10; 99; 100]%Z 1 ∧
  get_line_end [97; 98; 10; 99; 100]%Z 2 = get_line_end [97; 98; 10; 99; 100]%Z 1.
Proof.
  apply (positions_of_a_line_agree [97; 98; 10; 99; 100]%Z 1 2).
  vm_compute. lia.
Defined.

Lemma char_ranges_are_maximal_witness : gapped (char_ranges [97; 98; 99; 101]%Z).
Proof.
  apply (char_ranges_are_maximal [97; 98; 99; 101]%Z).
  repeat constructor; lia.
Defined.

Lemma py_safe_sym_is_safe_witness :
  (py_safe_sym ascii_word ascii_digit (codes "class") = Err IndexError ↔
     codes "class" = []) ∧
  ∀ sym, py_safe_sym ascii_word ascii_digit (codes "class") = Ok sym →
    sym ∉ py_reserved_syms ∧
    Forall (λ c, ascii_word c = true) sym ∧
    (∃ c rest, sym = c :: rest ∧ ascii_digit c = false) ∧
    py_safe_sym ascii_word ascii_digit sym = Ok sym.
Proof.
  apply (py_safe_sym_is_safe ascii_word ascii_digit); reflexivity.
Defined.

Lemma postMatchNodes_are_reached_after_a_match_witness :
  ∃ X, postMatchNodes dfa_post = Ok X ∧
    ∀ x, x ∈ X ↔ ∃ m, m ∈ DFA.matchNodes dfa_post ∧ tc (post_edge dfa_post) m x.
Proof.
  apply (postMatchNodes_are_reached_after_a_match dfa_post).
  apply (bool_decide_unpack _). vm_compute. exact I.
Defined.
